(** * struhchuh: strchr-like scanners over a buffer of known length

    A shallow embedding of the scanners of the repository's search routines
    (test_naive, test_twobyte and the twelve block-based variants built on
    Alan Mycroft's zero-byte trick and on SSE2 compare / movemask), with the
    properties of its specification stated and settled against the code.

    Conventions of the embedding.
    - Memory is a total map from addresses to bytes; [s] is the address held
      by the C pointer and [s[i]] is the byte at address [s + i].  Loads never
      fail: every load is logged instead, so that what a scanner reads can be
      stated as a property of its log.
    - C [int] values (indices, lengths, movemask results) are mathematical
      integers.  No [int] operation of a scanner leaves the range of [int]
      as long as [INT_MIN < len <= INT_MAX - 15]: the extreme ones are the
      [len - 1] of the pair scanners and the last [i += 16] of a block loop.
      Outside these bounds the source overflows where the embedding goes
      on, so every property that is stated for all lengths carries the
      bounds it needs as hypotheses.  [uint32_t] and [uint64_t] arithmetic
      wraps and the wrap-around is written out.
    - Multi-byte loads are little-endian (the code is x86 specific).
    - Loops carry a fuel argument; running out of fuel is a distinguished
      outcome, and every scanner is shown to return with the fuel it is
      given.

    The file has three parts: the scanners and their test harness, as the
    source has them; the vocabulary of their specification (contracts,
    masks, lanes, covered loads); and the proofs. *)

From Stdlib Require Import ZArith List Bool Lia.
From Stdlib.Strings Require Import Byte String.
Import ListNotations.
Local Open Scope Z_scope.

(** ** Bytes, memory and logged loads *)

Definition memory : Type := Z -> byte.

(** The unsigned value of a byte. *)
Definition u8 (b : byte) : Z := Z.of_N (Byte.to_N b).

(** The two characters every scanner is specialised to. *)
Definition star : byte := "*"%byte.
Definition hash : byte := "#"%byte.

(** One load of [acc_width] bytes starting at address [acc_addr]. *)
Record access : Type := Access { acc_addr : Z; acc_width : Z }.

(** A computation logs its loads and either produces a value or runs out of
    fuel. *)
Definition M (A : Type) : Type := (list access * option A)%type.

Definition ret {A : Type} (a : A) : M A := ([], Some a).

Definition out_of_fuel {A : Type} : M A := ([], None).

Definition bind {A B : Type} (m : M A) (f : A -> M B) : M B :=
  match m with
  | (t, None) => (t, None)
  | (t, Some a) => let '(t', r) := f a in (t ++ t', r)
  end.

Notation "x <- m ;; k" := (bind m (fun x => k))
  (at level 61, m at next level, right associativity).

Definition loads {A : Type} (m : M A) : list access := fst m.
Definition result {A : Type} (m : M A) : option A := snd m.

(** What a loop hands back to the function around it: the function returns
    [v], or the loop was left at index [i]. *)
Inductive flow : Type :=
| Return (v : Z)
| Continue (i : Z).

(** ** Machine arithmetic *)

(** The range of a C [int]. *)
Definition INT_MIN : Z := - 2 ^ 31.
Definition INT_MAX : Z := 2 ^ 31 - 1.

Definition wrap (W : Z) (z : Z) : Z := z mod 2 ^ W.

(** C truth of an integer: [if (x)]. *)
Definition nonzero (x : Z) : bool := negb (x =? 0).

Fixpoint ctz_pos (p : positive) : Z :=
  match p with
  | xO q => 1 + ctz_pos q
  | _ => 0
  end.

(** [__builtin_ffs] and [__builtin_ffsll]: one plus the index of the least
    significant set bit, zero for zero.  The lowest set bit of a negative
    number in two's complement is that of its absolute value. *)
Definition __builtin_ffs (x : Z) : Z :=
  match x with
  | Z0 => 0
  | Zpos p => 1 + ctz_pos p
  | Zneg p => 1 + ctz_pos p
  end.

Definition __builtin_ffsll (x : Z) : Z := __builtin_ffs x.

(** The borrow test of Mycroft's trick on a [W]-bit word, before the mask
    with [highs]: [(raw - ones) & ~raw]. *)
Definition borrow_test (W ones raw : Z) : Z :=
  Z.land (wrap W (raw - ones)) (wrap W (Z.lnot raw)).

(** [(raw - ones) & (~raw) & highs]. *)
Definition mycroft (W ones highs raw : Z) : Z :=
  Z.land (borrow_test W ones raw) highs.

(** ** SSE2 registers and intrinsics *)

(** A 128-bit register as its sixteen byte lanes, lowest address first. *)
Definition uint128_t : Type := list byte.

Definition _mm_set1_epi8 (c : byte) : uint128_t := repeat c 16.

(** PCMPEQB: 0xff in the lanes that are equal, 0x00 in the others. *)
Definition _mm_cmpeq_epi8 (a b : uint128_t) : uint128_t :=
  map (fun p => if Byte.eqb (fst p) (snd p) then xff else x00) (combine a b).

(** PMOVMSKB: the top bit of lane [k] becomes bit [k] of the result. *)
Fixpoint _mm_movemask_epi8 (v : uint128_t) : Z :=
  match v with
  | [] => 0
  | b :: v' => Z.b2z (Z.testbit (u8 b) 7) + 2 * _mm_movemask_epi8 v'
  end.

Section Scanners.

Variable mem : memory.

Definition load8 (a : Z) : M byte := ([Access a 1], Some (mem a)).

(** The little-endian value of the [n] bytes at [a]. *)
Fixpoint le_word (n : nat) (a : Z) : Z :=
  match n with
  | O => 0
  | S k => u8 (mem a) + 256 * le_word k (a + 1)
  end.

Fixpoint lanes (n : nat) (a : Z) : list byte :=
  match n with
  | O => []
  | S k => mem a :: lanes k (a + 1)
  end.

(** [*(uint32_t* )a] and [*(uint64_t* )a] are [load 4 a] and [load 8 a]. *)
Definition load (n : nat) (a : Z) : M Z :=
  ([Access a (Z.of_nat n)], Some (le_word n a)).
Definition load32 : Z -> M Z := load 4.
Definition load64 : Z -> M Z := load 8.
Definition load128 (a : Z) : M uint128_t := ([Access a 16], Some (lanes 16 a)).

(** The arguments of every scanner: the pointer and the length. *)
Variable s : Z.
Variable len : Z.

(** ** The bytewise scanners *)

Fixpoint naive_loop (fuel : nat) (i : Z) : M Z :=
  if i <? len then
    match fuel with
    | O => out_of_fuel
    | S fuel' =>
        c <- load8 (s + i);;
        if Byte.eqb c star then ret i
        else naive_loop fuel' (i + 1)
    end
  else ret (-127).

Definition test_naive : M Z := naive_loop (Z.to_nat len) 0.

(** [len--] is the [len - 1] of the loop condition; [&&] loads [s[i + 1]]
    only when [s[i]] is a star. *)
Fixpoint twobyte_loop (fuel : nat) (i : Z) : M Z :=
  if i <? len - 1 then
    match fuel with
    | O => out_of_fuel
    | S fuel' =>
        c <- load8 (s + i);;
        if Byte.eqb c star then
          d <- load8 (s + (i + 1));;
          if Byte.eqb d hash then ret i
          else twobyte_loop fuel' (i + 1)
        else twobyte_loop fuel' (i + 1)
    end
  else ret (-127).

Definition test_twobyte : M Z := twobyte_loop (Z.to_nat len) 0.

(** ** The bytewise prologues

    Every prologued scanner starts with the same loop, up to the alignment
    [A] (3, 7 or 15) it waits for:
    [while (i < len) { if (s[i] == '*') return i; i++;
                       if (((uintptr_t)(s + i) & A) == 0) break; }] *)
Fixpoint prologue1 (A : Z) (fuel : nat) (i : Z) : M flow :=
  if i <? len then
    match fuel with
    | O => out_of_fuel
    | S fuel' =>
        c <- load8 (s + i);;
        if Byte.eqb c star then ret (Return i)
        else
          let i := i + 1 in
          if Z.land (s + i) A =? 0 then ret (Continue i)
          else prologue1 A fuel' i
    end
  else ret (Continue i).

(** The same for the two-byte scanners:
    [while (i < len - 1) { if (s[i] == '*' && s[i + 1] == '#') return i; i++;
                           if (((uintptr_t)(s + i) & A) == 0) break; }] *)
Fixpoint prologue2 (A : Z) (fuel : nat) (i : Z) : M flow :=
  if i <? len - 1 then
    match fuel with
    | O => out_of_fuel
    | S fuel' =>
        c <- load8 (s + i);;
        found <- (if Byte.eqb c star then
                    d <- load8 (s + (i + 1));; ret (Byte.eqb d hash)
                  else ret false);;
        if found : bool then ret (Return i)
        else
          let i := i + 1 in
          if Z.land (s + i) A =? 0 then ret (Continue i)
          else prologue2 A fuel' i
    end
  else ret (Continue i).

(** ** Single byte, SSE2 *)

Fixpoint pure_sse2_loop (fuel : nat) (i alignment_mask : Z) : M Z :=
  if i <? len then
    match fuel with
    | O => out_of_fuel
    | S fuel' =>
        raw <- load128 (s + i);;
        let comparison := _mm_cmpeq_epi8 raw (_mm_set1_epi8 star) in
        let bits := Z.land (_mm_movemask_epi8 comparison) alignment_mask in
        if nonzero bits then
          let answer := i + __builtin_ffs bits - 1 in
          if answer >=? len then ret (-127) else ret answer
        else pure_sse2_loop fuel' (i + 16) 0xffff
    end
  else ret (-127).

Definition test_pure_sse2 : M Z :=
  let last_bits := Z.land s 15 in
  let alignment_mask := Z.shiftl 0xffff last_bits in
  pure_sse2_loop (Z.to_nat (len + last_bits)) (- last_bits) alignment_mask.

(** The aligned loop that ends test_sse2 and test_sse2_and_mycroft4. *)
Fixpoint sse2_loop (fuel : nat) (i : Z) : M Z :=
  if i <? len then
    match fuel with
    | O => out_of_fuel
    | S fuel' =>
        raw <- load128 (s + i);;
        let comparison := _mm_cmpeq_epi8 raw (_mm_set1_epi8 star) in
        let bits := _mm_movemask_epi8 comparison in
        if nonzero bits then
          let answer := i + __builtin_ffs bits - 1 in
          if answer >=? len then ret (-127) else ret answer
        else sse2_loop fuel' (i + 16)
    end
  else ret (-127).

Definition test_sse2 : M Z :=
  r <- prologue1 15 (Z.to_nat len) 0;;
  match r with
  | Return v => ret v
  | Continue i =>
      if i >=? len then ret (-127)
      else sse2_loop (Z.to_nat (len - i)) i
  end.

(** The 4-byte loop of test_sse2_and_mycroft4, left at 16-byte alignment. *)
Fixpoint mycroft4_until16 (fuel : nat) (i : Z) : M flow :=
  if i <? len then
    match fuel with
    | O => out_of_fuel
    | S fuel' =>
        w <- load32 (s + i);;
        let raw := Z.lxor w 0x2a2a2a2a in
        let raw := mycroft 32 0x01010101 0x80808080 raw in
        if nonzero raw then
          let answer := i + Z.shiftr (__builtin_ffs raw) 3 - 1 in
          if answer >=? len then ret (Return (-127)) else ret (Return answer)
        else
          let i := i + 4 in
          if Z.land (s + i) 15 =? 0 then ret (Continue i)
          else mycroft4_until16 fuel' i
    end
  else ret (Continue i).

Definition test_sse2_and_mycroft4 : M Z :=
  r <- prologue1 3 (Z.to_nat len) 0;;
  match r with
  | Return v => ret v
  | Continue i =>
      if i >=? len then ret (-127)
      else
        r <- mycroft4_until16 (Z.to_nat (len - i)) i;;
        match r with
        | Return v => ret v
        | Continue i =>
            if i >=? len then ret (-127)
            else sse2_loop (Z.to_nat (len - i)) i
        end
  end.

(** ** Two bytes, SSE2 *)

(** Where test_twosse2 returns from: the test on the bit carried over from
    the previous block, the in-block candidate with its length check, or the
    end of the loop. *)
Inductive site : Type := AtStraddle | AtBlock | AtEnd.

Fixpoint twosse2_loop (fuel : nat) (i prev : Z) : M (site * Z) :=
  if i <? len then
    match fuel with
    | O => out_of_fuel
    | S fuel' =>
        raw <- load128 (s + i);;
        let stars := _mm_movemask_epi8 (_mm_cmpeq_epi8 raw (_mm_set1_epi8 star)) in
        let hashes := _mm_movemask_epi8 (_mm_cmpeq_epi8 raw (_mm_set1_epi8 hash)) in
        if nonzero (Z.land prev 0x8000) && nonzero (Z.land hashes 1)
        then ret (AtStraddle, i - 1)
        else
          let combined := Z.land (Z.shiftl stars 1) hashes in
          if nonzero combined then
            let result := i + __builtin_ffs combined - 2 in
            if result >=? len - 1 then ret (AtBlock, -127)
            else ret (AtBlock, result)
          else twosse2_loop fuel' (i + 16) stars
    end
  else ret (AtEnd, -127).

(** test_twosse2 together with the place it returned from ([None] for the
    returns before the aligned loop). *)
Definition twosse2_run : M (option site * Z) :=
  r <- prologue2 15 (Z.to_nat len) 0;;
  match r with
  | Return v => ret (None, v)
  | Continue i =>
      if i >=? len - 1 then ret (None, -127)
      else
        c <- load8 (s + (i - 1));;
        let prev := Z.shiftl (Z.b2z (Byte.eqb c star)) 15 in
        r <- twosse2_loop (Z.to_nat (len - i)) i prev;;
        ret (Some (fst r), snd r)
  end.

Definition test_twosse2 : M Z := r <- twosse2_run;; ret (snd r).

Fixpoint twobsse2_loop (fuel : nat) (i stars : Z) : M Z :=
  if i <? len then
    match fuel with
    | O => out_of_fuel
    | S fuel' =>
        raw <- load128 (s + i);;
        let stars :=
          stars + Z.shiftl (_mm_movemask_epi8 (_mm_cmpeq_epi8 raw (_mm_set1_epi8 star))) 1 in
        let hashes := _mm_movemask_epi8 (_mm_cmpeq_epi8 raw (_mm_set1_epi8 hash)) in
        if nonzero (Z.land hashes stars) then
          let result := i + __builtin_ffs (Z.land hashes stars) - 2 in
          if result >=? len - 1 then ret (-127) else ret result
        else twobsse2_loop fuel' (i + 16) (Z.shiftr stars 16)
    end
  else ret (-127).

Definition test_twobsse2 : M Z :=
  r <- prologue2 15 (Z.to_nat len) 0;;
  match r with
  | Return v => ret v
  | Continue i =>
      if i >=? len - 1 then ret (-127)
      else
        c <- load8 (s + (i - 1));;
        let stars := Z.b2z (Byte.eqb c star) in
        twobsse2_loop (Z.to_nat (len - i)) i stars
  end.

Fixpoint pure_twobsse2_loop (fuel : nat) (i alignment_mask stars : Z) : M Z :=
  if i <? len then
    match fuel with
    | O => out_of_fuel
    | S fuel' =>
        raw <- load128 (s + i);;
        let stars :=
          stars + Z.shiftl (Z.land (_mm_movemask_epi8 (_mm_cmpeq_epi8 raw (_mm_set1_epi8 star)))
                                   alignment_mask) 1 in
        let hashes := _mm_movemask_epi8 (_mm_cmpeq_epi8 raw (_mm_set1_epi8 hash)) in
        let combined := Z.land hashes stars in
        if nonzero combined then
          let result := i + __builtin_ffs combined - 2 in
          if result >=? len - 1 then ret (-127) else ret result
        else pure_twobsse2_loop fuel' (i + 16) 0xffff (Z.shiftr stars 16)
    end
  else ret (-127).

Definition test_pure_twobsse2 : M Z :=
  let last_bits := Z.land s 15 in
  let alignment_mask := Z.shiftl 0xffff last_bits in
  pure_twobsse2_loop (Z.to_nat (len + last_bits)) (- last_bits) alignment_mask 0.

(** ** Single byte, Mycroft's trick

    test_mycroft4 and test_mycroft are one function at two word sizes, and
    so are test_pure_mycroft4 and test_pure_mycroft: [bytes] is the size of
    the word (4 or 8), [A = bytes - 1] the alignment the prologue waits for,
    and [mask], [highs], [ones] are the three constants of the function.
    The 8-byte functions call [__builtin_ffsll], which is [__builtin_ffs]
    on the integers of this embedding. *)
Section Word.

Variable bytes : nat.
Variable A : Z.
Variables mask highs ones : Z.

Fixpoint mycroft_loop (fuel : nat) (i : Z) : M Z :=
  if i <? len then
    match fuel with
    | O => out_of_fuel
    | S fuel' =>
        w <- load bytes (s + i);;
        let raw := Z.lxor w mask in
        let raw := mycroft (8 * Z.of_nat bytes) ones highs raw in
        if nonzero raw then
          let answer := i + Z.shiftr (__builtin_ffs raw) 3 - 1 in
          if answer >=? len then ret (-127) else ret answer
        else mycroft_loop fuel' (i + Z.of_nat bytes)
    end
  else ret (-127).

Definition mycroft_scan : M Z :=
  r <- prologue1 A (Z.to_nat len) 0;;
  match r with
  | Return v => ret v
  | Continue i =>
      if i >=? len then ret (-127)
      else mycroft_loop (Z.to_nat (len - i)) i
  end.

(** The loop of the pure variants; [cur_highs] is the variable [highs],
    which masks the lanes before [s] in the first word only. *)
Fixpoint pure_mycroft_loop (fuel : nat) (i cur_highs : Z) : M Z :=
  if i <? len then
    match fuel with
    | O => out_of_fuel
    | S fuel' =>
        w <- load bytes (s + i);;
        let raw := Z.lxor w mask in
        let raw := mycroft (8 * Z.of_nat bytes) ones cur_highs raw in
        if nonzero raw then
          let answer := i + Z.shiftr (__builtin_ffs raw) 3 - 1 in
          if answer >=? len then ret (-127) else ret answer
        else pure_mycroft_loop fuel' (i + Z.of_nat bytes) highs
    end
  else ret (-127).

Definition pure_mycroft_scan : M Z :=
  let last_bits := Z.land s A in
  let i := - last_bits in
  let first_highs :=
    wrap (8 * Z.of_nat bytes) (Z.shiftl highs (Z.shiftl last_bits 3)) in
  pure_mycroft_loop (Z.to_nat (len + last_bits)) i first_highs.

End Word.

Definition test_mycroft4 : M Z :=
  mycroft_scan 4 3 0x2a2a2a2a 0x80808080 0x01010101.

Definition test_pure_mycroft4 : M Z :=
  pure_mycroft_scan 4 3 0x2a2a2a2a 0x80808080 0x01010101.

Definition test_mycroft : M Z :=
  mycroft_scan 8 7 0x2a2a2a2a2a2a2a2a 0x8080808080808080 0x0101010101010101.

Definition test_pure_mycroft : M Z :=
  pure_mycroft_scan 8 7 0x2a2a2a2a2a2a2a2a 0x8080808080808080 0x0101010101010101.

(** ** Two bytes, Mycroft's trick *)

Definition mask_star : Z := 0x2a2a2a2a2a2a2a2a.
Definition mask_hash : Z := 0x2323232323232323.
Definition highs64 : Z := 0x8080808080808080.
Definition ones64 : Z := 0x0101010101010101.

Fixpoint mycroft2_loop (fuel : nat) (i : Z) : M Z :=
  if i <? len then
    match fuel with
    | O => out_of_fuel
    | S fuel' =>
        w <- load64 (s + i - 1);;
        w2 <- load64 (s + i);;
        let raw := Z.lxor w mask_star in
        let raw2 := Z.lxor w2 mask_hash in
        let raw := borrow_test 64 ones64 raw in
        let raw2 := borrow_test 64 ones64 raw2 in
        let combined := Z.land (Z.land raw raw2) highs64 in
        if nonzero combined then
          let result := (i - 1) + Z.shiftr (__builtin_ffsll combined) 3 - 1 in
          if result >=? len - 1 then ret (-127) else ret result
        else mycroft2_loop fuel' (i + 8)
    end
  else ret (-127).

Definition test_mycroft2 : M Z :=
  r <- prologue2 7 (Z.to_nat len) 0;;
  match r with
  | Return v => ret v
  | Continue i =>
      if i >=? len - 1 then ret (-127)
      else mycroft2_loop (Z.to_nat (len - i)) i
  end.

Fixpoint pure_mycroft2_loop (fuel : nat) (i highs stars_low : Z) : M Z :=
  if i <? len then
    match fuel with
    | O => out_of_fuel
    | S fuel' =>
        raw <- load64 (s + i);;
        let new_stars := Z.lxor raw mask_star in
        let hashes := Z.lxor raw mask_hash in
        let new_stars := Z.land (borrow_test 64 ones64 new_stars) highs in
        let hashes := borrow_test 64 ones64 hashes in
        let stars_low := wrap 64 (stars_low + wrap 64 (Z.shiftl new_stars 8)) in
        let combined := Z.land stars_low hashes in
        if nonzero combined then
          let result := (i - 1) + Z.shiftr (__builtin_ffsll combined) 3 - 1 in
          if result >=? len - 1 then ret (-127) else ret result
        else pure_mycroft2_loop fuel' (i + 8) highs64 (Z.shiftr new_stars 56)
    end
  else ret (-127).

Definition test_pure_mycroft2 : M Z :=
  let last_bits := Z.land s 7 in
  let i := - last_bits in
  let highs := wrap 64 (Z.shiftl highs64 (Z.shiftl last_bits 3)) in
  pure_mycroft2_loop (Z.to_nat (len + last_bits)) i highs 0.

End Scanners.

(** ** Buffers for the examples *)

(** A memory holding the bytes of [l] from address [base] on and [fill]
    everywhere else. *)
Definition mem_of (fill : byte) (base : Z) (l : list byte) : memory :=
  fun a => if a <? base then fill else nth (Z.to_nat (a - base)) l fill.

Definition bytes_of (str : string) : list byte := list_byte_of_string str.

(** ** The test harness (search.cc)

    test and the calls of main, as state passing over the memory, the
    position in the sequence of values of [random] and the lines printed.
    The two pages that test protects with [mprotect] are part of the model:
    a scanner that loads from one of them is reported. *)

(** [(char)z]: the low eight bits of an integer. *)
Definition to_char (z : Z) : byte :=
  match Byte.of_N (Z.to_N (z mod 256)) with
  | Some b => b
  | None => x00
  end.

(** [a[0] = b] and [memset(a, b, n)]. *)
Definition store (mem : memory) (a : Z) (b : byte) : memory :=
  fun x => if x =? a then b else mem x.

Definition memset (mem : memory) (a : Z) (b : byte) (n : Z) : memory :=
  fun x => if (a <=? x) && (x <? a + n) then b else mem x.

(** [for (i = first; i < last; i += step) body], given the number of rounds
    the bounds allow. *)
Fixpoint for_loop {St : Type} (n : nat) (i step : Z) (body : Z -> St -> St)
    (st : St) : St :=
  match n with
  | O => st
  | S n' => for_loop n' (i + step) step body (body i st)
  end.

(** What a run of test puts out: the three messages of its [printf] calls, a
    fault on a protected page, and (for the embedding only) a scanner that
    ran out of fuel. *)
Inductive report : Type :=
| FoundUnexpected (f : Z)
| FoundElsewhere (pos f : Z)
| RandomMismatch (index guess len : Z)
| Segfault
| NoAnswer.

Definition PAGE : Z := 4096.

(** The load [a] reads a byte of the first or of the third of the three
    pages at [three_pages], the two that test protects with [mprotect]. *)
Definition protected (three_pages : Z) (a : access) : bool :=
  let lo := acc_addr a in
  let hi := acc_addr a + acc_width a in
  (lo <? three_pages + PAGE) && (three_pages <? hi) ||
  (lo <? three_pages + PAGE * 3) && (three_pages + PAGE * 2 <? hi).

Definition searcher : Type := memory -> Z -> Z -> M Z.

(** The state of the harness: the memory, the number of calls of [random]
    so far, what was printed. *)
Definition hstate : Type := (memory * nat * list report)%type.

Definition printed (st : hstate) : list report := snd st.

Definition poke (a : Z) (b : byte) (st : hstate) : hstate :=
  let '(mem, n, out) := st in (store mem a b, n, out).

Definition fill (a : Z) (b : byte) (k : Z) (st : hstate) : hstate :=
  let '(mem, n, out) := st in (memset mem a b k, n, out).

Definition print (r : report) (st : hstate) : hstate :=
  let '(mem, n, out) := st in (mem, n, out ++ [r]).

Section Test.

Variable testee : searcher.
Variable bytes : Z.

(** The numbers [random] returns, in the order of the calls. *)
Variable rand : nat -> Z.

Definition random (st : hstate) : Z * hstate :=
  let '(mem, n, out) := st in (rand n, (mem, S n, out)).

(** The address [mmap] returns. *)
Variable three_pages : Z.

(** [if ((f = testee(s, len)) != want) printf(...)], while the first and the
    third page are protected: a load from one of them ends the run, which is
    recorded here as one more line. *)
Definition expect (want : Z) (line : Z -> report) (s len : Z) (st : hstate) : hstate :=
  let '(mem, _, _) := st in
  if existsb (protected three_pages) (loads (testee mem s len)) then print Segfault st
  else
    match result (testee mem s len) with
    | Some f => if negb (f =? want) then print (line f) st else st
    | None => print NoAnswer st
    end.

Definition expect_none : Z -> Z -> hstate -> hstate := expect (-127) FoundUnexpected.

Definition expect_at (pos : Z) : Z -> Z -> hstate -> hstate :=
  expect pos (FoundElsewhere pos).

(** The first loop of test: the buffer at the start of the page, stars (and
    hashes) after it. *)
Definition guard_front : hstate -> hstate :=
  let start := three_pages + PAGE in
  for_loop 40 0 1 (fun len st =>
    let st := fill start "a" len st in
    let st := fill (start + len) star 30 st in
    let st :=
      if bytes =? 2
      then for_loop 15 1 2 (fun k => poke (start + (len + k)) hash) st
      else st in
    let st := expect_none start len st in
    for_loop (Z.to_nat (len + 1 - bytes)) 0 1 (fun pos st =>
      let st := fill start "a" len st in
      let st := poke (start + pos) star st in
      let st := if bytes =? 2 then poke (start + (pos + 1)) hash st else st in
      let st := expect_at pos start len st in
      if bytes =? 2 then
        for_loop (Z.to_nat pos) 0 1 (fun k st =>
          let st := poke (start + k) star st in
          let st := expect_at pos start len st in
          poke (start + k) "a" st) st
      else st) st).

(** The second loop: the buffer at the end of the page, stars before it. *)
Definition guard_back : hstate -> hstate :=
  let end_ := three_pages + PAGE * 2 in
  for_loop 40 0 1 (fun len st =>
    let st := fill (end_ - len) "a" len st in
    let st := fill (end_ - len - 30) star 30 st in
    let st := expect_none (end_ - len) len st in
    for_loop (Z.to_nat (len + 1 - bytes)) 0 1 (fun pos st =>
      let st := fill (end_ - len) "a" len st in
      let st := poke (end_ + (- len + pos)) star st in
      let st := if bytes =? 2 then poke (end_ + (- len + pos + 1)) hash st else st in
      expect_at pos (end_ - len) len st) st).

(** One byte of the random buffer.  Case 4 of the switch has no [break]:
    the byte it stores is overwritten by the default case. *)
Definition fuzz_byte (buffer i : Z) (st : hstate) : hstate :=
  let (x, st) := random st in
  let r := Z.land x 7 in
  if r =? 0 then poke (buffer + i) star st
  else if r =? 1 then poke (buffer + i) hash st
  else if r =? 2 then poke (buffer + i) (to_char (u8 star - 128)) st
  else if r =? 3 then poke (buffer + i) (to_char (u8 hash - 128)) st
  else
    let st :=
      if r =? 4 then let (y, st) := random st in poke (buffer + i) (to_char y) st
      else st in
    poke (buffer + i) (to_char (u8 hash - 3 + r)) st.

(** One round of the random test: 128 random bytes, a random start in them,
    a random length ([%] is the remainder of C), and the testee against the
    bytewise oracle. *)
Definition fuzz_round (buffer : Z) (st : hstate) : hstate :=
  let st := for_loop 128 0 1 (fuzz_byte buffer) st in
  let (x, st) := random st in
  let start := buffer + Z.land x 127 in
  let (y, st) := random st in
  let len := Z.rem y (buffer + 128 - start) in
  let '(mem, _, _) := st in
  let index :=
    if bytes =? 2 then result (test_twobyte mem start len)
    else result (test_naive mem start len) in
  let guess := result (testee mem start len) in
  match index, guess with
  | Some index, Some guess =>
      if negb (index =? guess) then print (RandomMismatch index guess len) st
      else st
  | _, _ => print NoAnswer st
  end.

Definition fuzz (buffer : Z) (st : hstate) : hstate :=
  let st := poke (buffer + 128) x00 st in
  for_loop (Z.to_nat 10000) 0 1 (fun _ => fuzz_round buffer) st.

(** test, for the three pages that [mmap] returns at [three_pages] and the
    129 bytes that [malloc] returns at [buffer]. *)
Definition test (buffer : Z) (st : hstate) : hstate :=
  let st := guard_front st in
  let st := guard_back st in
  fuzz buffer st.

End Test.

(** The calls of test in main, each scanner with its number of bytes;
    test_memchr is not among the sources. *)
Definition main_tests : list (searcher * Z) :=
  [(test_naive, 1); (test_pure_mycroft4, 1); (test_mycroft4, 1); (test_mycroft, 1);
   (test_pure_mycroft, 1); (test_pure_sse2, 1); (test_sse2, 1);
   (test_sse2_and_mycroft4, 1); (test_twobyte, 2); (test_mycroft2, 2);
   (test_pure_mycroft2, 2); (test_twosse2, 2); (test_twobsse2, 2);
   (test_pure_twobsse2, 2)].

(** ** Specifications *)

Section Specs.

Variable mem : memory.
Variables s len : Z.

Definition star_at (i : Z) : Prop := mem (s + i) = star.

Definition pair_at (i : Z) : Prop :=
  mem (s + i) = star /\ mem (s + (i + 1)) = hash.

(** [i] is the smallest index of the buffer that holds a star. *)
Definition first_star (i : Z) : Prop :=
  0 <= i < len /\ star_at i /\ forall j, 0 <= j < i -> ~ star_at j.

Definition no_star : Prop := forall j, 0 <= j < len -> ~ star_at j.

(** [i] is the smallest index with a star at [i], a hash at [i + 1] and
    [i + 1] inside the buffer. *)
Definition first_pair (i : Z) : Prop :=
  0 <= i /\ i + 1 < len /\ pair_at i /\ forall j, 0 <= j < i -> ~ pair_at j.

Definition no_pair : Prop := forall j, 0 <= j -> j + 1 < len -> ~ pair_at j.

(** The contract of a single-byte scanner: it returns (it does not run out
    of fuel), with the first match or with -127 when there is none. *)
Definition scan1_spec (r : option Z) : Prop :=
  (exists i, r = Some i /\ first_star i) \/ (r = Some (-127) /\ no_star).

Definition scan2_spec (r : option Z) : Prop :=
  (exists i, r = Some i /\ first_pair i) \/ (r = Some (-127) /\ no_pair).

End Specs.

(** ** Vocabulary of the proofs *)

Section Vocabulary.

Variable mem : memory.
Variables s len : Z.

(** What [prologue1] leaves behind: an early return is the first star from
    [i] on; otherwise no star was seen, and the loop was left either at the
    end of the buffer or at an aligned address. *)
Definition prologue1_post (A i : Z) (r : flow) : Prop :=
  match r with
  | Return v => i <= v < len /\ star_at mem s v /\
                forall j, i <= j < v -> ~ star_at mem s j
  | Continue j => i <= j /\ (i < len -> i < j <= len) /\ (len <= i -> j = i) /\
                  (j < len -> Z.land (s + j) A = 0) /\
                  forall k, i <= k < j -> ~ star_at mem s k
  end.

Definition prologue2_post (A i : Z) (r : flow) : Prop :=
  match r with
  | Return v => i <= v /\ v + 1 < len /\ pair_at mem s v /\
                forall j, i <= j < v -> ~ pair_at mem s j
  | Continue j => i <= j /\ (i < len - 1 -> i < j <= len - 1) /\
                  (len - 1 <= i -> j = i) /\
                  (j < len - 1 -> Z.land (s + j) A = 0) /\
                  forall k, i <= k < j -> ~ pair_at mem s k
  end.

(** A star at the non-negative index [j]; a pair at the non-negative index
    [j]. *)
Definition starb (j : Z) : bool := (0 <=? j) && Byte.eqb (mem (s + j)) star.

Definition pairb (j : Z) : bool :=
  (0 <=? j) && Byte.eqb (mem (s + j)) star && Byte.eqb (mem (s + (j + 1))) hash.

(** [S] holds, in bit [k], whether lane [k] of the block at [i] is a star
    at a non-negative index. *)
Definition star_bits (i S : Z) : Prop :=
  forall k, 0 <= k -> Z.testbit S k = (k <? 16) && starb (i + k).

(** The mask the pair scanners search: bit [k] tells whether there is a pair
    at index [i + k - 1]. *)
Definition pair_bits (i x : Z) : Prop :=
  forall k, 0 <= k -> Z.testbit x k = (k <? 16) && pairb (i + k - 1).

End Vocabulary.

(** The alignment mask of the pure loops enables exactly the lanes at the
    non-negative indices. *)
Definition lanes_enabled (i alignment_mask : Z) : Prop :=
  forall k, 0 <= k < 16 -> Z.testbit alignment_mask k = (0 <=? i + k).

(** The lengths for which no [int] operation of a scanner overflows: the
    pair scanners compute [len - 1], and a block loop that finds nothing
    ends with an [i += 16] (or 8, or 4) from an index below [len]. *)
Definition int_ok (len : Z) : Prop := INT_MIN < len <= INT_MAX - 15.

(** The outcome of a single-byte scanner is -127 or an index of the buffer;
    that of a pair scanner is -127 or an index whose successor is an index
    of the buffer too. *)
Definition in_range1 (len : Z) (r : option Z) : Prop :=
  exists v, r = Some v /\ (v = -127 \/ 0 <= v < len).

Definition in_range2 (len : Z) (r : option Z) : Prop :=
  exists v, r = Some v /\ (v = -127 \/ (0 <= v /\ v + 1 < len)).

(** A load is covered by the buffer when every byte it reads lies in an
    aligned block, of the size of the load, that also holds a byte of the
    buffer. *)
Definition covered (s len : Z) (a : access) : Prop :=
  forall o, acc_addr a <= o < acc_addr a + acc_width a ->
    exists j, 0 <= j < len /\ (s + j) / acc_width a = o / acc_width a.

(** [mem] holds the bytes of [l] from address [s] on. *)
Definition holds (mem : memory) (s : Z) (l : list byte) : Prop :=
  forall k, (k < List.length l)%nat -> mem (s + Z.of_nat k) = nth k l x00.

(** ** Vocabulary of Mycroft's trick *)

(** The constants of the trick for a word of [n] bytes: 0x01 in every lane,
    and 0x80 in every lane. *)
Fixpoint ones_of (n : nat) : Z :=
  match n with O => 0 | S k => 1 + 256 * ones_of k end.

Definition highs_of (n : nat) : Z := 128 * ones_of n.

Definition lane (k : nat) (x : Z) : Z := (x / 256 ^ Z.of_nat k) mod 256.

Fixpoint borrow (c : bool) (x : Z) (k : nat) : bool :=
  match k with
  | O => c
  | S k' => lane k' x <? 1 + Z.b2z (borrow c x k')
  end.

(** Whether the formula of a scanner for the byte [t], applied to the word
    [w] of [n] bytes, sets the top bit of lane [j]. *)
Definition flagged (n : nat) (w t : Z) (j : nat) : bool :=
  Z.testbit (mycroft (8 * Z.of_nat n) (ones_of n) (highs_of n)
                     (Z.lxor w (t * ones_of n)))
            (8 * Z.of_nat j + 7).

(** The variable [highs] of the pure Mycroft loops: its lanes below index 0
    are masked out. *)
Definition highs_ok (i h : Z) : Prop :=
  0 <= h /\ (2 ^ (8 * Z.max 0 (- i) + 7) | h) /\
  forall p, 0 <= p -> Z.testbit h p = true -> p < 64 /\ p mod 8 = 7.

(** ** Concrete buffers and lists of scanners *)

(** A memory of letters [a] that holds the bytes of [str] from address
    [base] on. *)
Definition buf (base : Z) (str : string) : memory :=
  mem_of "a"%byte base (bytes_of str).

(** The buffer of the repository's test harness ([set_up] in search.cc). *)
Definition small : list byte := bytes_of "Now is the time *# for all good men".

(** The scanners whose contract is proved below. *)
Definition scan1_proved : list (memory -> Z -> Z -> M Z) :=
  [test_naive; test_sse2; test_pure_sse2; test_sse2_and_mycroft4;
   test_mycroft4; test_mycroft].

Definition scan2_proved : list (memory -> Z -> Z -> M Z) :=
  [test_twobyte; test_twosse2; test_twobsse2; test_pure_twobsse2].

(** The scanners that start bytewise, and the bytewise ones. *)
Definition prologued_scanners : list (memory -> Z -> Z -> M Z) :=
  [test_naive; test_twobyte; test_sse2; test_sse2_and_mycroft4; test_mycroft4;
   test_mycroft; test_twosse2; test_twobsse2; test_mycroft2].

Definition pure_scanners : list (memory -> Z -> Z -> M Z) :=
  [test_pure_sse2; test_pure_twobsse2; test_pure_mycroft4; test_pure_mycroft;
   test_pure_mycroft2].

(** ** Vocabulary of the conditions under which the Mycroft scanners are exact *)

(** The byte that differs from the star in its lowest bit only. *)
Definition plus : byte := "+"%byte.

(** The buffer does not hold a [+] directly followed by a hash. *)
Definition no_plus_hash (mem : memory) (s len : Z) : Prop :=
  forall j, 0 <= j -> j + 1 < len ->
    ~ (mem (s + j) = plus /\ mem (s + (j + 1)) = hash).

(** [h] is the [highs] constant of a word of [n] bytes with the lanes below
    lane [L] masked out. *)
Definition lane_mask (n : nat) (L h : Z) : Prop :=
  0 <= h /\
  forall p, 0 <= p ->
    Z.testbit h p = (p <? 8 * Z.of_nat n) && (p mod 8 =? 7) && (8 * L <=? p).

(** The value carried in [stars_low] from one word of test_pure_mycroft2 to
    the next: the star flag [c] of the last lane, moved to lane 0. *)
Definition carried (mem : memory) (s i stars_low : Z) (c : bool) : Prop :=
  stars_low = 128 * Z.b2z c /\
  (c = true -> 1 <= i /\ (mem (s + (i - 1)) = star \/ mem (s + (i - 1)) = plus)) /\
  (1 <= i -> mem (s + (i - 1)) = star -> c = true).

(** The star flag that test_pure_mycroft2 combines with the hash flag of
    lane [k] of the word at [a]: the flag carried from the word before for
    lane 0, the flag of the lane below otherwise, if that lane is enabled
    (lanes below [L] are masked out). *)
Definition star_below (mem : memory) (a L : Z) (c : bool) (k : nat) : bool :=
  match k with
  | O => c
  | S k' =>
      borrow false (Z.lxor (le_word mem 8 a) mask_star) (S k') && (L <=? Z.of_nat k')
  end.

(** ** Vocabulary of the further properties *)

(** Two memories hold the same bytes in the buffer. *)
Definition same_buffer (mem mem' : memory) (s len : Z) : Prop :=
  forall j, 0 <= j < len -> mem (s + j) = mem' (s + j).

(** The outcome for a shorter buffer, from the outcome for a longer one: the
    check [answer >= len] of the block scanners. *)
Definition clamp1 (len v : Z) : Z := if (0 <=? v) && (v <? len) then v else -127.
Definition clamp2 (len v : Z) : Z := if (0 <=? v) && (v + 1 <? len) then v else -127.

(** The outcome for a buffer that starts [off] bytes later. *)
Definition rebase (off v : Z) : Z := if v =? -127 then -127 else v - off.

(** The widths of the loads of the scanners: one byte, a 4-byte or 8-byte
    word, an SSE2 register. *)
Definition width_ok (a : access) : Prop := In (acc_width a) [1; 4; 8; 16].

(** The memory of a state of the harness. *)
Definition memof (st : hstate) : memory := fst (fst st).

(** ** set_up and time (search.cc) *)

(** set_up: the bytes of [large], ten thousand bytes of "Foo " with the pair
    three quarters in, written to the block that [malloc] returns at [l]. *)
Definition LONG : Z := 10000.

Definition set_up_large (l : Z) (mem : memory) : memory :=
  let mem :=
    for_loop (Z.to_nat (LONG / 4)) 0 4 (fun i mem =>
      let mem := store mem (l + i) "F" in
      let mem := store mem (l + (i + 1)) "o" in
      let mem := store mem (l + (i + 2)) "o" in
      store mem (l + (i + 3)) " ") mem in
  let mem := store mem (l + LONG * 3 / 4) star in
  store mem (l + (LONG * 3 / 4 + 1)) hash.

(** The call of [fn] in round [i] of time, on the big buffer or on the small
    one; [sm] is the address of the text and [r] is
    [random_offsets[i & 4095]]. *)
Definition time_call (fn : searcher) (mem : memory) (sm l : Z) (size : bool)
    (i r : Z) : option Z :=
  if size then result (fn mem (l + Z.land i 127) (LONG - Z.land i 127))
  else
    let off := Z.land r 15 in
    result (fn mem (sm + off) (Z.of_nat (List.length small) - off)).

(** The buffer holds no [+]. *)
Definition plus_free (mem : memory) (s len : Z) : Prop :=
  forall j, 0 <= j < len -> mem (s + j) <> plus.

(** Every byte of the load lies in the page that starts at [P]. *)
Definition in_page (P : Z) (a : access) : Prop :=
  P <= acc_addr a /\ acc_addr a + acc_width a <= P + PAGE.

(** The loads of a scanner stay in the page of the buffer. *)
Definition page_safe (scan : searcher) : Prop :=
  forall mem s len P,
    P mod PAGE = 0 -> P <= s -> 0 <= len -> s + len <= P + PAGE ->
    Forall (in_page P) (loads (scan mem s len)).

(** A scanner for [bytes] bytes that meets its contract on the buffers
    without a [+]. *)
Definition exact_on_plus_free (scan : searcher) (bytes : Z) : Prop :=
  (bytes = 1 /\
   forall mem s len, plus_free mem s len -> scan1_spec mem s len (result (scan mem s len))) \/
  (bytes = 2 /\
   forall mem s len, plus_free mem s len -> scan2_spec mem s len (result (scan mem s len))).

(** ** The monad *)

Lemma result_bind {A B : Type} (m : M A) (f : A -> M B) :
  result (bind m f) =
  match result m with Some a => result (f a) | None => None end.
Proof.
  destruct m as [t [a|]]; cbn; [destruct (f a); reflexivity | reflexivity].
Qed.

Lemma loads_bind {A B : Type} (m : M A) (f : A -> M B) :
  loads (bind m f) =
  loads m ++ match result m with Some a => loads (f a) | None => [] end.
Proof.
  destruct m as [t [a|]]; cbn; [destruct (f a); reflexivity | ].
  now rewrite app_nil_r.
Qed.

Lemma byte_eqb_eq (a b : byte) : Byte.eqb a b = true <-> a = b.
Proof.
  split; [apply Byte.byte_dec_bl | apply Byte.byte_dec_lb].
Qed.

Lemma byte_eqb_neq (a b : byte) : Byte.eqb a b = false <-> a <> b.
Proof.
  rewrite <- byte_eqb_eq. destruct (Byte.eqb a b); intuition congruence.
Qed.

(** ** The bytewise scanners meet their contracts *)

Section Bytewise.

Variable mem : memory.
Variables s len : Z.

Lemma naive_loop_spec (fuel : nat) :
  forall i, 0 <= i -> len - i <= Z.of_nat fuel ->
    (forall j, 0 <= j < i -> ~ star_at mem s j) ->
    scan1_spec mem s len (result (naive_loop mem s len fuel i)).
Proof.
  induction fuel as [|fuel IH]; intros i Hi Hf Hpre; cbn [naive_loop];
    destruct (Z.ltb_spec i len) as [Hlt|Hge]; try lia.
  - right. split; [reflexivity|]. intros j Hj. apply Hpre. lia.
  - rewrite result_bind. cbn [load8 result snd].
    destruct (Byte.eqb (mem (s + i)) star) eqn:E.
    + left. exists i. split; [reflexivity|].
      apply byte_eqb_eq in E. repeat split; auto; lia.
    + apply byte_eqb_neq in E. apply IH; try lia.
      intros j Hj. destruct (Z.eq_dec j i) as [->|]; [exact E|apply Hpre; lia].
  - right. split; [reflexivity|]. intros j Hj. apply Hpre. lia.
Qed.

Lemma test_naive_spec : scan1_spec mem s len (result (test_naive mem s len)).
Proof.
  apply naive_loop_spec; lia.
Qed.

Lemma twobyte_loop_spec (fuel : nat) :
  forall i, 0 <= i -> len - i <= Z.of_nat fuel ->
    (forall j, 0 <= j < i -> ~ pair_at mem s j) ->
    scan2_spec mem s len (result (twobyte_loop mem s len fuel i)).
Proof.
  induction fuel as [|fuel IH]; intros i Hi Hf Hpre; cbn [twobyte_loop];
    destruct (Z.ltb_spec i (len - 1)) as [Hlt|Hge]; try lia.
  - right. split; [reflexivity|]. intros j Hj Hj'. apply Hpre. lia.
  - assert (Hnext : ~ pair_at mem s i ->
                    scan2_spec mem s len (result (twobyte_loop mem s len fuel (i + 1)))).
    { intros E. apply IH; try lia.
      intros j Hj. destruct (Z.eq_dec j i) as [->|]; [exact E|apply Hpre; lia]. }
    rewrite result_bind. cbn [load8 result snd].
    destruct (Byte.eqb (mem (s + i)) star) eqn:E.
    + rewrite result_bind. cbn [load8 result snd].
      destruct (Byte.eqb (mem (s + (i + 1))) hash) eqn:E2.
      * left. exists i. split; [reflexivity|].
        apply byte_eqb_eq in E, E2. repeat split; auto; lia.
      * apply Hnext. apply byte_eqb_neq in E2. intros [_ H]. auto.
    + apply Hnext. apply byte_eqb_neq in E. intros [H _]. auto.
  - right. split; [reflexivity|]. intros j Hj Hj'. apply Hpre. lia.
Qed.

Lemma test_twobyte_spec : scan2_spec mem s len (result (test_twobyte mem s len)).
Proof.
  apply twobyte_loop_spec; lia.
Qed.

End Bytewise.

(** C6.  The bytewise scanner for a single byte returns the smallest index
    of the buffer whose byte is the target when there is one and -127
    (NotFound) otherwise; the bytewise pair scanner returns the smallest
    index [i] with the first target at [i], the second at [i + 1] and
    [i + 1 < len], and -127 when there is none. *)
Theorem bytewise_scanners_correct (mem : memory) (s len : Z) :
  scan1_spec mem s len (result (test_naive mem s len)) /\
  scan2_spec mem s len (result (test_twobyte mem s len)).
Proof.
  split; [apply test_naive_spec | apply test_twobyte_spec].
Qed.

(** ** Find-first-set *)

Lemma ctz_pos_nonneg (p : positive) : 0 <= ctz_pos p.
Proof. induction p; cbn [ctz_pos]; lia. Qed.

Lemma ctz_pos_set (p : positive) : Z.testbit (Zpos p) (ctz_pos p) = true.
Proof.
  induction p as [p IH|p IH|]; cbn [ctz_pos]; try reflexivity.
  pose proof (ctz_pos_nonneg p).
  replace (1 + ctz_pos p) with (Z.succ (ctz_pos p)) by lia.
  change (Zpos p~0) with (2 * Zpos p).
  rewrite Z.testbit_even_succ by lia. exact IH.
Qed.

Lemma ctz_pos_clear (p : positive) :
  forall j, 0 <= j < ctz_pos p -> Z.testbit (Zpos p) j = false.
Proof.
  induction p as [p IH|p IH|]; cbn [ctz_pos]; intros j Hj; try lia.
  destruct (Z.eq_dec j 0) as [->|Hne]; [reflexivity|].
  replace j with (Z.succ (j - 1)) by lia.
  change (Zpos p~0) with (2 * Zpos p).
  rewrite Z.testbit_even_succ by lia. apply IH. lia.
Qed.

(** For a positive argument, [__builtin_ffs] is one more than the index of
    the lowest set bit. *)
Lemma ffs_spec (x : Z) :
  0 < x ->
  exists k, 0 <= k /\ __builtin_ffs x = k + 1 /\ Z.testbit x k = true /\
            forall j, 0 <= j < k -> Z.testbit x j = false.
Proof.
  destruct x as [|p|p]; try lia. intros _.
  exists (ctz_pos p). cbn [__builtin_ffs].
  repeat split; [apply ctz_pos_nonneg | lia | apply ctz_pos_set | apply ctz_pos_clear].
Qed.

Lemma nonzero_false (x : Z) : nonzero x = false <-> x = 0.
Proof. unfold nonzero. destruct (Z.eqb_spec x 0); cbn; intuition congruence. Qed.

Lemma nonzero_true (x : Z) : nonzero x = true <-> x <> 0.
Proof. unfold nonzero. destruct (Z.eqb_spec x 0); cbn; intuition congruence. Qed.

(** ** The SSE2 compare mask *)

Section Masks.

Variable mem : memory.

(** The integer PMOVMSKB extracts from the comparison of the [n] bytes at
    [a] with [c]: bit [k] tells whether byte [a + k] is [c]. *)
Lemma eqmask_testbit_nat (c : byte) (n : nat) :
  forall (a : Z) (k : nat),
    Z.testbit (_mm_movemask_epi8 (_mm_cmpeq_epi8 (lanes mem n a) (repeat c n)))
              (Z.of_nat k) =
    (k <? n)%nat && Byte.eqb (mem (a + Z.of_nat k)) c.
Proof.
  unfold _mm_cmpeq_epi8.
  induction n as [|n IH]; intros a k.
  - cbn. now rewrite Z.testbit_0_l.
  - cbn [lanes repeat combine map _mm_movemask_epi8 fst snd].
    rewrite Z.add_comm.
    destruct k as [|k].
    + rewrite Z.testbit_0_r. cbn [Nat.ltb Nat.leb andb Z.of_nat].
      rewrite Z.add_0_r. now destruct (Byte.eqb (mem a) c).
    + rewrite Nat2Z.inj_succ, Z.testbit_succ_r by lia.
      rewrite IH. replace (a + 1 + Z.of_nat k) with (a + Z.succ (Z.of_nat k)) by lia.
      reflexivity.
Qed.

Lemma eqmask_testbit (c : byte) (a k : Z) :
  0 <= k ->
  Z.testbit (_mm_movemask_epi8 (_mm_cmpeq_epi8 (lanes mem 16 a) (_mm_set1_epi8 c))) k =
  (k <? 16) && Byte.eqb (mem (a + k)) c.
Proof.
  intros Hk. unfold _mm_set1_epi8.
  rewrite <- (Z2Nat.id k) at 1 by lia.
  rewrite eqmask_testbit_nat, Z2Nat.id by lia.
  f_equal. destruct (Z.ltb_spec k 16), (Nat.ltb_spec (Z.to_nat k) 16); lia.
Qed.

Lemma eqmask_nonneg (c : byte) (n : nat) (a : Z) :
  0 <= _mm_movemask_epi8 (_mm_cmpeq_epi8 (lanes mem n a) (repeat c n)).
Proof.
  unfold _mm_cmpeq_epi8. revert a.
  induction n as [|n IH]; intros a; cbn [lanes repeat combine map _mm_movemask_epi8]; [lia|].
  specialize (IH (a + 1)).
  destruct (Z.testbit _ 7); cbn [Z.b2z]; lia.
Qed.

End Masks.

(** ** The prologues *)

Section Prologues.

Variable mem : memory.
Variables s len : Z.

Lemma prologue1_spec (A : Z) (fuel : nat) :
  forall i, len - i <= Z.of_nat fuel ->
    exists r, result (prologue1 mem s len A fuel i) = Some r /\
              prologue1_post mem s len A i r.
Proof.
  induction fuel as [|fuel IH]; intros i Hf; cbn [prologue1];
    destruct (Z.ltb_spec i len) as [Hlt|Hge]; try lia.
  - exists (Continue i). split; [reflexivity|]. cbn. repeat split; lia.
  - rewrite result_bind. cbn [load8 result snd].
    destruct (Byte.eqb (mem (s + i)) star) eqn:E.
    + exists (Return i). split; [reflexivity|]. cbn.
      apply byte_eqb_eq in E. repeat split; auto; lia.
    + apply byte_eqb_neq in E.
      destruct (Z.eqb_spec (Z.land (s + (i + 1)) A) 0) as [Hal|Hal].
      * exists (Continue (i + 1)). split; [reflexivity|]. cbn.
        repeat split; try lia; auto.
        intros k Hk. replace k with i by lia. exact E.
      * destruct (IH (i + 1)) as [r [Hr Hpost]]; [lia|].
        exists r. split; [exact Hr|].
        destruct r as [v|j]; cbn in *.
        -- destruct Hpost as [Hv [Hs Hn]]. repeat split; auto; try lia.
           intros j Hj. destruct (Z.eq_dec j i) as [->|]; [exact E|apply Hn; lia].
        -- destruct Hpost as [Hj [Hin [Hout [Hal' Hn]]]].
           repeat split; auto; try lia.
           intros k Hk. destruct (Z.eq_dec k i) as [->|]; [exact E|apply Hn; lia].
  - exists (Continue i). split; [reflexivity|]. cbn. repeat split; lia.
Qed.

Lemma prologue2_spec (A : Z) (fuel : nat) :
  forall i, len - i <= Z.of_nat fuel ->
    exists r, result (prologue2 mem s len A fuel i) = Some r /\
              prologue2_post mem s len A i r.
Proof.
  induction fuel as [|fuel IH]; intros i Hf; cbn [prologue2];
    destruct (Z.ltb_spec i (len - 1)) as [Hlt|Hge]; try lia.
  - exists (Continue i). split; [reflexivity|]. cbn. repeat split; lia.
  - assert (Hnext : ~ pair_at mem s i ->
      exists r,
        result (if Z.land (s + (i + 1)) A =? 0 then ret (Continue (i + 1))
                else prologue2 mem s len A fuel (i + 1)) = Some r /\
        prologue2_post mem s len A i r).
    { intros E.
      destruct (Z.eqb_spec (Z.land (s + (i + 1)) A) 0) as [Hal|Hal].
      * exists (Continue (i + 1)). split; [reflexivity|]. cbn.
        repeat split; try lia; auto.
        intros k Hk. replace k with i by lia. exact E.
      * destruct (IH (i + 1)) as [r [Hr Hpost]]; [lia|].
        exists r. split; [exact Hr|].
        destruct r as [v|j]; cbn in *.
        -- destruct Hpost as [Hv [Hv' [Hs Hn]]].
           split; [lia|]. split; [lia|]. split; [exact Hs|].
           intros j Hj. destruct (Z.eq_dec j i) as [->|]; [exact E|apply Hn; lia].
        -- destruct Hpost as [Hj [Hin [Hout [Hal' Hn]]]].
           repeat split; auto; try lia.
           intros k Hk. destruct (Z.eq_dec k i) as [->|]; [exact E|apply Hn; lia]. }
    rewrite result_bind. cbn [load8 result snd].
    destruct (Byte.eqb (mem (s + i)) star) eqn:E.
    + rewrite !result_bind. cbn [load8 result snd ret].
      destruct (Byte.eqb (mem (s + (i + 1))) hash) eqn:E2.
      * exists (Return i). split; [reflexivity|]. cbn.
        apply byte_eqb_eq in E, E2.
        split; [lia|]. split; [lia|]. split; [split; assumption|]. intros; lia.
      * apply Hnext. apply byte_eqb_neq in E2. intros [_ H]. auto.
    + rewrite result_bind. cbn [result snd ret].
      apply Hnext. apply byte_eqb_neq in E. intros [H _]. auto.
  - exists (Continue i). split; [reflexivity|]. cbn. repeat split; lia.
Qed.

End Prologues.

(** ** Single byte, SSE2: the scanners meet the contract *)

Section SseSingle.

Variable mem : memory.
Variables s len : Z.

Local Abbreviation eqmask c a :=
  (_mm_movemask_epi8 (_mm_cmpeq_epi8 (lanes mem 16 a) (_mm_set1_epi8 c))).

Lemma eqmask_set (c : byte) (a k : Z) :
  0 <= k -> Z.testbit (eqmask c a) k = true -> k < 16 /\ mem (a + k) = c.
Proof.
  intros Hk H. rewrite eqmask_testbit in H by lia.
  apply andb_prop in H. destruct H as [H1 H2].
  apply Z.ltb_lt in H1. apply byte_eqb_eq in H2. auto.
Qed.

Lemma eqmask_clear (c : byte) (a k : Z) :
  0 <= k < 16 -> Z.testbit (eqmask c a) k = false -> mem (a + k) <> c.
Proof.
  intros Hk H. rewrite eqmask_testbit in H by lia.
  destruct (Z.ltb_spec k 16); [|lia]. cbn in H. now apply byte_eqb_neq.
Qed.

Lemma eqmask_pos (c : byte) (a : Z) : 0 <= eqmask c a.
Proof. apply eqmask_nonneg. Qed.

Lemma land_pos (x y : Z) : 0 <= x -> nonzero (Z.land x y) = true -> 0 < Z.land x y.
Proof.
  intros Hx Hnz. apply nonzero_true in Hnz.
  assert (0 <= Z.land x y) by (apply Z.land_nonneg; auto). lia.
Qed.

Lemma sse2_loop_spec (fuel : nat) :
  forall i, 0 <= i -> len - i <= Z.of_nat fuel ->
    (forall j, 0 <= j < i -> ~ star_at mem s j) ->
    scan1_spec mem s len (result (sse2_loop mem s len fuel i)).
Proof.
  induction fuel as [|fuel IH]; intros i Hi Hf Hpre; cbn [sse2_loop];
    destruct (Z.ltb_spec i len) as [Hlt|Hge]; try lia.
  - right. split; [reflexivity|]. intros j Hj. apply Hpre. lia.
  - rewrite result_bind. cbn [load128 result snd].
    set (x := eqmask star (s + i)).
    assert (Hx : 0 <= x) by apply eqmask_pos.
    destruct (nonzero x) eqn:Hnz.
    + apply nonzero_true in Hnz.
      destruct (ffs_spec x) as [k [Hk [Hffs [Hset Hclr]]]]; [lia|].
      apply eqmask_set in Hset; [|lia]. destruct Hset as [Hk16 Hstar].
      assert (Hbefore : forall j, 0 <= j < i + k -> ~ star_at mem s j).
      { intros j Hj. destruct (Z.lt_ge_cases j i) as [Hji|Hji]; [apply Hpre; lia|].
        unfold star_at. replace (s + j) with (s + i + (j - i)) by lia.
        apply eqmask_clear; [lia|]. apply Hclr. lia. }
      rewrite Hffs. replace (i + (k + 1) - 1) with (i + k) by lia.
      destruct (Z.geb_spec (i + k) len) as [Hout|Hin].
      * right. split; [reflexivity|]. intros j Hj. apply Hbefore. lia.
      * left. exists (i + k). split; [reflexivity|].
        split; [lia|]. split; [|exact Hbefore].
        unfold star_at. now rewrite Z.add_assoc.
    + apply nonzero_false in Hnz.
      apply IH; try lia.
      intros j Hj. destruct (Z.lt_ge_cases j i) as [Hji|Hji]; [apply Hpre; lia|].
      unfold star_at. replace (s + j) with (s + i + (j - i)) by lia.
      apply eqmask_clear; [lia|]. fold x. rewrite Hnz. apply Z.testbit_0_l.
  - right. split; [reflexivity|]. intros j Hj. apply Hpre. lia.
Qed.

Lemma test_sse2_spec : scan1_spec mem s len (result (test_sse2 mem s len)).
Proof.
  unfold test_sse2. rewrite result_bind.
  destruct (prologue1_spec mem s len 15 (Z.to_nat len) 0) as [r [Hr Hpost]]; [lia|].
  rewrite Hr. destruct r as [v|i]; cbn in Hpost.
  - left. exists v. split; [reflexivity|].
    destruct Hpost as [Hv [Hs Hn]]. repeat split; auto; lia.
  - destruct Hpost as [Hi [Hin [Hout [_ Hn]]]].
    destruct (Z.geb_spec i len) as [Hge|Hlt].
    + right. split; [reflexivity|]. intros j Hj. apply Hn. lia.
    + apply sse2_loop_spec; try lia. intros j Hj. apply Hn. lia.
Qed.

Lemma lanes_enabled_first (last_bits : Z) :
  0 <= last_bits -> lanes_enabled (- last_bits) (Z.shiftl 0xffff last_bits).
Proof.
  intros Hl k Hk. rewrite Z.shiftl_spec by lia.
  change 0xffff with (Z.ones 16).
  destruct (Z.leb_spec 0 (- last_bits + k)).
  - apply Z.ones_spec_low. lia.
  - apply Z.testbit_neg_r. lia.
Qed.

Lemma lanes_enabled_next (i : Z) : 0 <= i -> lanes_enabled i 0xffff.
Proof.
  intros Hi k Hk. change 0xffff with (Z.ones 16).
  rewrite Z.ones_spec_low by lia. symmetry. apply Z.leb_le. lia.
Qed.

Lemma land_15_bounds (a : Z) : 0 <= Z.land a 15 < 16.
Proof.
  change 15 with (Z.ones 4). rewrite Z.land_ones by lia.
  apply Z.mod_pos_bound. reflexivity.
Qed.

Lemma pure_sse2_loop_spec (fuel : nat) :
  forall i amask, -16 < i -> len - i <= Z.of_nat fuel ->
    lanes_enabled i amask ->
    (forall j, 0 <= j < i -> ~ star_at mem s j) ->
    scan1_spec mem s len (result (pure_sse2_loop mem s len fuel i amask)).
Proof.
  induction fuel as [|fuel IH]; intros i amask Hi Hf Hmask Hpre; cbn [pure_sse2_loop];
    destruct (Z.ltb_spec i len) as [Hlt|Hge]; try lia.
  - right. split; [reflexivity|]. intros j Hj. apply Hpre. lia.
  - rewrite result_bind. cbn [load128 result snd].
    set (x := eqmask star (s + i)).
    assert (Hx : 0 <= x) by apply eqmask_pos.
    destruct (nonzero (Z.land x amask)) eqn:Hnz.
    + apply land_pos in Hnz; [|exact Hx].
      destruct (ffs_spec _ Hnz) as [k [Hk [Hffs [Hset Hclr]]]].
      rewrite Z.land_spec in Hset. apply andb_prop in Hset.
      destruct Hset as [Hset Hen].
      apply eqmask_set in Hset; [|lia]. destruct Hset as [Hk16 Hstar].
      rewrite Hmask in Hen by lia. apply Z.leb_le in Hen.
      assert (Hbefore : forall j, 0 <= j < i + k -> ~ star_at mem s j).
      { intros j Hj. destruct (Z.lt_ge_cases j i) as [Hji|Hji]; [apply Hpre; lia|].
        unfold star_at. replace (s + j) with (s + i + (j - i)) by lia.
        apply eqmask_clear; [lia|].
        specialize (Hclr (j - i)). rewrite Z.land_spec, Hmask in Hclr by lia.
        replace (0 <=? i + (j - i)) with true in Hclr
          by (symmetry; apply Z.leb_le; lia).
        rewrite andb_true_r in Hclr. apply Hclr. lia. }
      rewrite Hffs. replace (i + (k + 1) - 1) with (i + k) by lia.
      destruct (Z.geb_spec (i + k) len) as [Hout|Hin].
      * right. split; [reflexivity|]. intros j Hj. apply Hbefore. lia.
      * left. exists (i + k). split; [reflexivity|].
        split; [lia|]. split; [|exact Hbefore].
        unfold star_at. now rewrite Z.add_assoc.
    + apply nonzero_false in Hnz.
      apply IH; try lia.
      * apply lanes_enabled_next. lia.
      * intros j Hj. destruct (Z.lt_ge_cases j i) as [Hji|Hji]; [apply Hpre; lia|].
        unfold star_at. replace (s + j) with (s + i + (j - i)) by lia.
        apply eqmask_clear; [lia|].
        assert (Hb : Z.testbit (Z.land x amask) (j - i) = false)
          by (rewrite Hnz; apply Z.testbit_0_l).
        rewrite Z.land_spec, Hmask in Hb by lia.
        replace (0 <=? i + (j - i)) with true in Hb
          by (symmetry; apply Z.leb_le; lia).
        now rewrite andb_true_r in Hb.
  - right. split; [reflexivity|]. intros j Hj. apply Hpre. lia.
Qed.

Lemma test_pure_sse2_spec :
  scan1_spec mem s len (result (test_pure_sse2 mem s len)).
Proof.
  unfold test_pure_sse2. pose proof (land_15_bounds s) as Hb.
  apply pure_sse2_loop_spec; try lia.
  apply lanes_enabled_first. lia.
Qed.

End SseSingle.

(** ** Two bytes, SSE2: the bits of the combined mask *)

Lemma land_pow2_nonzero (x n : Z) :
  0 <= n -> nonzero (Z.land x (2 ^ n)) = Z.testbit x n.
Proof.
  intros Hn.
  assert (H : Z.land x (2 ^ n) = if Z.testbit x n then 2 ^ n else 0).
  { apply Z.bits_inj'. intros m Hm.
    rewrite Z.land_spec, Z.pow2_bits_eqb by lia.
    destruct (Z.eqb_spec n m) as [->|Hne].
    - destruct (Z.testbit x m); [now rewrite Z.pow2_bits_true|now rewrite Z.testbit_0_l].
    - rewrite andb_false_r.
      destruct (Z.testbit x n); [now rewrite Z.pow2_bits_false|now rewrite Z.testbit_0_l]. }
  rewrite H. unfold nonzero.
  destruct (Z.testbit x n); [|reflexivity].
  assert (0 < 2 ^ n) by (apply Z.pow_pos_nonneg; lia).
  destruct (Z.eqb_spec (2 ^ n) 0); [lia|reflexivity].
Qed.

Lemma testbit_b2z (c : bool) (m : Z) : Z.testbit (Z.b2z c) m = c && (m =? 0).
Proof.
  destruct (Z.eqb_spec m 0) as [->|Hne].
  - now rewrite Z.b2z_bit0, andb_true_r.
  - rewrite andb_false_r. destruct c; cbn [Z.b2z].
    + change 1 with (2 ^ 0). apply Z.pow2_bits_false. lia.
    + apply Z.testbit_0_l.
Qed.

(** A carried bit below a mask shifted up by one lane. *)
Lemma carry_sum_testbit (b : bool) (S k : Z) :
  0 <= k ->
  Z.testbit (Z.b2z b + Z.shiftl S 1) k = if k =? 0 then b else Z.testbit S (k - 1).
Proof.
  intros Hk. rewrite Z.shiftl_mul_pow2 by lia. change (2 ^ 1) with 2.
  rewrite (Z.mul_comm S 2), Z.add_comm.
  destruct (Z.eqb_spec k 0) as [->|Hne].
  - apply Z.testbit_0_r.
  - replace k with (Z.succ (k - 1)) at 1 by lia. apply Z.testbit_succ_r. lia.
Qed.

Section SsePair.

Variable mem : memory.
Variables s len : Z.

Local Abbreviation eqmask c a :=
  (_mm_movemask_epi8 (_mm_cmpeq_epi8 (lanes mem 16 a) (_mm_set1_epi8 c))).

Lemma pairb_true (j : Z) : pairb mem s j = true -> 0 <= j /\ pair_at mem s j.
Proof.
  unfold pairb, pair_at. intros H.
  apply andb_prop in H. destruct H as [H H3].
  apply andb_prop in H. destruct H as [H1 H2].
  apply Z.leb_le in H1. apply byte_eqb_eq in H2, H3. auto.
Qed.

Lemma pairb_false (j : Z) : 0 <= j -> pairb mem s j = false -> ~ pair_at mem s j.
Proof.
  unfold pairb, pair_at. intros Hj H [H1 H2].
  apply byte_eqb_eq in H1, H2. rewrite H1, H2 in H.
  destruct (Z.leb_spec 0 j); [discriminate|lia].
Qed.

Lemma star_bits_eqmask (i : Z) : 0 <= i -> star_bits mem s i (eqmask star (s + i)).
Proof.
  intros Hi k Hk. rewrite eqmask_testbit by lia. unfold starb.
  rewrite Z.add_assoc.
  destruct (Z.leb_spec 0 (i + k)); [reflexivity|lia].
Qed.

Lemma star_bits_masked (i amask : Z) :
  lanes_enabled i amask -> star_bits mem s i (Z.land (eqmask star (s + i)) amask).
Proof.
  intros Hen k Hk. rewrite Z.land_spec, eqmask_testbit by lia. unfold starb.
  rewrite Z.add_assoc.
  destruct (Z.ltb_spec k 16) as [Hlt|Hge]; [|reflexivity].
  rewrite Hen by lia. cbn [andb].
  now destruct (0 <=? i + k), (Byte.eqb (mem (s + i + k)) star).
Qed.

Lemma pairmask_bits (i S : Z) (b : bool) :
  star_bits mem s i S ->
  b && Byte.eqb (mem (s + i)) hash = pairb mem s (i - 1) ->
  pair_bits mem s i (Z.land (eqmask hash (s + i)) (Z.b2z b + Z.shiftl S 1)).
Proof.
  intros HS Hb k Hk.
  rewrite Z.land_spec, eqmask_testbit, carry_sum_testbit by lia.
  destruct (Z.eqb_spec k 0) as [->|Hne].
  - rewrite !Z.add_0_r. rewrite <- Hb. cbn [Z.ltb Z.compare andb]. apply andb_comm.
  - rewrite HS by lia. unfold pairb, starb.
    replace (i + (k - 1)) with (i + k - 1) by lia.
    replace (s + (i + k - 1 + 1)) with (s + i + k) by lia.
    destruct (Z.ltb_spec k 16); cbn [andb]; [|reflexivity].
    destruct (Z.ltb_spec (k - 1) 16); [cbn [andb]|lia].
    now destruct (0 <=? i + k - 1), (Byte.eqb (mem (s + (i + k - 1))) star),
      (Byte.eqb (mem (s + i + k)) hash).
Qed.

Lemma carry_next (i S : Z) (b : bool) :
  star_bits mem s i S ->
  Z.shiftr (Z.b2z b + Z.shiftl S 1) 16 = Z.b2z (starb mem s (i + 16 - 1)).
Proof.
  intros HS. apply Z.bits_inj'. intros m Hm.
  rewrite Z.shiftr_spec, carry_sum_testbit, testbit_b2z by lia.
  destruct (Z.eqb_spec (m + 16) 0); [lia|].
  rewrite HS by lia.
  destruct (Z.eqb_spec m 0) as [->|Hne].
  - replace (0 + 16 - 1) with 15 by lia. replace (i + 16 - 1) with (i + 15) by lia.
    change (15 <? 16) with true. now rewrite andb_true_r.
  - destruct (Z.ltb_spec (m + 16 - 1) 16); [lia|]. now rewrite andb_false_r.
Qed.

(** The decision every pair scanner takes on a block, given the mask. *)
Lemma pair_block (i x : Z) :
  0 < x -> pair_bits mem s i x ->
  (forall j, 0 <= j < i - 1 -> ~ pair_at mem s j) ->
  scan2_spec mem s len
    (Some (if i + __builtin_ffs x - 2 >=? len - 1 then -127
           else i + __builtin_ffs x - 2)).
Proof.
  intros Hx Hbits Hpre.
  destruct (ffs_spec x Hx) as [k [Hk [Hffs [Hset Hclr]]]].
  rewrite Hbits in Hset by lia. apply andb_prop in Hset. destruct Hset as [Hk16 Hp].
  apply Z.ltb_lt in Hk16. apply pairb_true in Hp. destruct Hp as [Hnn Hp].
  assert (Hbefore : forall j, 0 <= j < i + k - 1 -> ~ pair_at mem s j).
  { intros j Hj. destruct (Z.lt_ge_cases j (i - 1)) as [Hji|Hji]; [apply Hpre; lia|].
    apply pairb_false; [lia|].
    specialize (Hclr (j - i + 1)). rewrite Hbits in Hclr by lia.
    replace (i + (j - i + 1) - 1) with j in Hclr by lia.
    destruct (Z.ltb_spec (j - i + 1) 16); [|lia]. apply Hclr. lia. }
  rewrite Hffs. replace (i + (k + 1) - 2) with (i + k - 1) by lia.
  destruct (Z.geb_spec (i + k - 1) (len - 1)) as [Hout|Hin].
  - right. split; [reflexivity|]. intros j Hj Hj'. apply Hbefore. lia.
  - left. exists (i + k - 1). split; [reflexivity|].
    split; [lia|]. split; [lia|]. split; [exact Hp|exact Hbefore].
Qed.

Lemma pair_block_none (i x : Z) :
  x = 0 -> pair_bits mem s i x ->
  (forall j, 0 <= j < i - 1 -> ~ pair_at mem s j) ->
  forall j, 0 <= j < i + 16 - 1 -> ~ pair_at mem s j.
Proof.
  intros Hx Hbits Hpre j Hj.
  destruct (Z.lt_ge_cases j (i - 1)) as [Hji|Hji]; [apply Hpre; lia|].
  apply pairb_false; [lia|].
  specialize (Hbits (j - i + 1)). rewrite Hx, Z.testbit_0_l in Hbits.
  replace (i + (j - i + 1) - 1) with j in Hbits by lia.
  destruct (Z.ltb_spec (j - i + 1) 16); [|lia].
  symmetry. apply Hbits. lia.
Qed.

End SsePair.

Lemma result_if_ret {A : Type} (c : bool) (a b : A) :
  result (if c then ret a else ret b) = Some (if c then a else b).
Proof. now destruct c. Qed.

(** ** Two bytes, SSE2: the scanners meet the contract *)

Section SsePairScanners.

Variable mem : memory.
Variables s len : Z.

Local Abbreviation eqmask c a :=
  (_mm_movemask_epi8 (_mm_cmpeq_epi8 (lanes mem 16 a) (_mm_set1_epi8 c))).

Lemma starb_hash_pairb (i : Z) :
  starb mem s (i - 1) && Byte.eqb (mem (s + i)) hash = pairb mem s (i - 1).
Proof.
  unfold starb, pairb. now replace (s + (i - 1 + 1)) with (s + i) by lia.
Qed.

Lemma twobsse2_loop_spec (fuel : nat) :
  forall i stars, 1 <= i -> len - i <= Z.of_nat fuel ->
    stars = Z.b2z (starb mem s (i - 1)) ->
    (forall j, 0 <= j < i - 1 -> ~ pair_at mem s j) ->
    scan2_spec mem s len (result (twobsse2_loop mem s len fuel i stars)).
Proof.
  induction fuel as [|fuel IH]; intros i stars Hi Hf Hst Hpre; cbn [twobsse2_loop];
    destruct (Z.ltb_spec i len) as [Hlt|Hge]; try lia.
  - right. split; [reflexivity|]. intros j Hj Hj'. apply Hpre. lia.
  - rewrite result_bind. cbn [load128 result snd]. cbv zeta. subst stars.
    pose proof (star_bits_eqmask mem s i ltac:(lia)) as HS.
    pose proof (pairmask_bits mem s i _ _ HS (starb_hash_pairb i)) as Hbits.
    set (x := Z.land (eqmask hash (s + i)) _) in *.
    destruct (nonzero x) eqn:Hnz.
    + rewrite result_if_ret. apply pair_block with (i := i); auto.
      apply land_pos; [apply eqmask_nonneg|exact Hnz].
    + apply nonzero_false in Hnz. apply IH; try lia.
      * now apply carry_next.
      * now apply pair_block_none with (x := x).
  - right. split; [reflexivity|]. intros j Hj Hj'. apply Hpre. lia.
Qed.

Lemma test_twobsse2_spec :
  scan2_spec mem s len (result (test_twobsse2 mem s len)).
Proof.
  unfold test_twobsse2. rewrite result_bind.
  destruct (prologue2_spec mem s len 15 (Z.to_nat len) 0) as [r [Hr Hpost]]; [lia|].
  rewrite Hr. destruct r as [v|i]; cbn in Hpost.
  - left. exists v. split; [reflexivity|].
    destruct Hpost as [Hv [Hv' [Hs Hn]]].
    split; [lia|]. split; [lia|]. split; [exact Hs|]. intros j Hj. apply Hn. lia.
  - destruct Hpost as [Hi [Hin [Hout [_ Hn]]]].
    destruct (Z.geb_spec i (len - 1)) as [Hge|Hlt].
    + right. split; [reflexivity|]. intros j Hj Hj'. apply Hn. lia.
    + rewrite result_bind. cbn [load8 result snd]. cbv zeta.
      apply twobsse2_loop_spec; try lia.
      * unfold starb. destruct (Z.leb_spec 0 (i - 1)); [reflexivity|lia].
      * intros j Hj. apply Hn. lia.
Qed.

Lemma pure_twobsse2_loop_spec (fuel : nat) :
  forall i amask stars, -16 < i -> len - i <= Z.of_nat fuel ->
    lanes_enabled i amask ->
    stars = Z.b2z (starb mem s (i - 1)) ->
    (forall j, 0 <= j < i - 1 -> ~ pair_at mem s j) ->
    scan2_spec mem s len (result (pure_twobsse2_loop mem s len fuel i amask stars)).
Proof.
  induction fuel as [|fuel IH]; intros i amask stars Hi Hf Hen Hst Hpre;
    cbn [pure_twobsse2_loop];
    destruct (Z.ltb_spec i len) as [Hlt|Hge]; try lia.
  - right. split; [reflexivity|]. intros j Hj Hj'. apply Hpre. lia.
  - rewrite result_bind. cbn [load128 result snd]. cbv zeta. subst stars.
    pose proof (star_bits_masked mem s i amask Hen) as HS.
    pose proof (pairmask_bits mem s i _ _ HS (starb_hash_pairb i)) as Hbits.
    set (x := Z.land (eqmask hash (s + i)) _) in *.
    destruct (nonzero x) eqn:Hnz.
    + rewrite result_if_ret. apply pair_block with (i := i); auto.
      apply land_pos; [apply eqmask_nonneg|exact Hnz].
    + apply nonzero_false in Hnz. apply IH; try lia.
      * apply lanes_enabled_next. lia.
      * now apply carry_next.
      * now apply pair_block_none with (x := x).
  - right. split; [reflexivity|]. intros j Hj Hj'. apply Hpre. lia.
Qed.

Lemma test_pure_twobsse2_spec :
  scan2_spec mem s len (result (test_pure_twobsse2 mem s len)).
Proof.
  unfold test_pure_twobsse2. pose proof (land_15_bounds s) as Hb.
  apply pure_twobsse2_loop_spec; try lia.
  - apply lanes_enabled_first. lia.
  - unfold starb. destruct (Z.leb_spec 0 (- Z.land s 15 - 1)); [lia|reflexivity].
Qed.

(** The loop of test_twosse2: it returns, what it returns meets the
    contract, and a return from the straddle test is a match. *)
Lemma twosse2_loop_spec (fuel : nat) :
  forall i prev, 1 <= i -> len - i <= Z.of_nat fuel ->
    Z.testbit prev 15 = starb mem s (i - 1) ->
    (forall j, 0 <= j < i - 1 -> ~ pair_at mem s j) ->
    exists st v,
      result (twosse2_loop mem s len fuel i prev) = Some (st, v) /\
      scan2_spec mem s len (Some v) /\
      (st = AtStraddle -> first_pair mem s len v).
Proof.
  induction fuel as [|fuel IH]; intros i prev Hi Hf Hprev Hpre; cbn [twosse2_loop];
    destruct (Z.ltb_spec i len) as [Hlt|Hge]; try lia.
  - exists AtEnd, (-127). split; [reflexivity|]. split; [|discriminate].
    right. split; [reflexivity|]. intros j Hj Hj'. apply Hpre. lia.
  - rewrite result_bind. cbn [load128 result snd]. cbv zeta.
    change 0x8000 with (2 ^ 15). change (Z.land (eqmask hash (s + i)) 1)
      with (Z.land (eqmask hash (s + i)) (2 ^ 0)).
    rewrite !land_pow2_nonzero by lia.
    rewrite Hprev, eqmask_testbit by lia.
    change (0 <? 16) with true. cbn [andb]. rewrite Z.add_0_r.
    rewrite starb_hash_pairb.
    destruct (pairb mem s (i - 1)) eqn:Hp.
    + exists AtStraddle, (i - 1). split; [reflexivity|].
      apply pairb_true in Hp. destruct Hp as [Hnn Hp].
      assert (Hfirst : first_pair mem s len (i - 1)).
      { split; [lia|]. split; [lia|]. split; [exact Hp|exact Hpre]. }
      split; [|intros _; exact Hfirst].
      left. exists (i - 1). split; [reflexivity|exact Hfirst].
    + pose proof (star_bits_eqmask mem s i ltac:(lia)) as HS.
      assert (Hb : false && Byte.eqb (mem (s + i)) hash = pairb mem s (i - 1))
        by (now rewrite Hp).
      pose proof (pairmask_bits mem s i _ _ HS Hb) as Hbits.
      cbn [Z.b2z] in Hbits. rewrite Z.add_0_l in Hbits.
      rewrite Z.land_comm.
      set (x := Z.land (eqmask hash (s + i)) _) in *.
      destruct (nonzero x) eqn:Hnz.
      * assert (Hx : 0 < x)
          by (apply land_pos; [apply eqmask_nonneg|exact Hnz]).
        pose proof (pair_block mem s len i x Hx Hbits Hpre) as Hspec.
        destruct (i + __builtin_ffs x - 2 >=? len - 1).
        -- exists AtBlock, (-127). split; [reflexivity|]. split; [exact Hspec|discriminate].
        -- exists AtBlock, (i + __builtin_ffs x - 2).
           split; [reflexivity|]. split; [exact Hspec|discriminate].
      * apply nonzero_false in Hnz. apply IH; try lia.
        -- rewrite eqmask_testbit by lia. unfold starb.
           change (15 <? 16) with true.
           replace (s + (i + 16 - 1)) with (s + i + 15) by lia.
           destruct (Z.leb_spec 0 (i + 16 - 1)); [reflexivity|lia].
        -- now apply pair_block_none with (x := x).
  - exists AtEnd, (-127). split; [reflexivity|]. split; [|discriminate].
    right. split; [reflexivity|]. intros j Hj Hj'. apply Hpre. lia.
Qed.

Lemma twosse2_run_spec :
  exists st v,
    result (twosse2_run mem s len) = Some (st, v) /\
    scan2_spec mem s len (Some v) /\
    (st = Some AtStraddle -> first_pair mem s len v).
Proof.
  unfold twosse2_run. rewrite result_bind.
  destruct (prologue2_spec mem s len 15 (Z.to_nat len) 0) as [r [Hr Hpost]]; [lia|].
  rewrite Hr. destruct r as [v|i]; cbn in Hpost.
  - exists None, v. split; [reflexivity|]. split; [|discriminate].
    left. exists v. split; [reflexivity|].
    destruct Hpost as [Hv [Hv' [Hs Hn]]].
    split; [lia|]. split; [lia|]. split; [exact Hs|]. intros j Hj. apply Hn. lia.
  - destruct Hpost as [Hi [Hin [Hout [_ Hn]]]].
    destruct (Z.geb_spec i (len - 1)) as [Hge|Hlt].
    + exists None, (-127). split; [reflexivity|]. split; [|discriminate].
      right. split; [reflexivity|]. intros j Hj Hj'. apply Hn. lia.
    + rewrite result_bind. cbn [load8 result snd]. cbv zeta.
      destruct (twosse2_loop_spec (Z.to_nat (len - i)) i
                  (Z.shiftl (Z.b2z (Byte.eqb (mem (s + (i - 1))) star)) 15))
        as [st [v [Hres [Hspec Hstr]]]]; try lia.
      * rewrite Z.shiftl_spec by lia. change (15 - 15) with 0.
        rewrite Z.b2z_bit0. unfold starb.
        destruct (Z.leb_spec 0 (i - 1)); [reflexivity|lia].
      * intros j Hj. apply Hn. lia.
      * rewrite result_bind, Hres. exists (Some st), v.
        split; [reflexivity|]. split; [exact Hspec|].
        intros E. apply Hstr. congruence.
Qed.

Lemma test_twosse2_spec : scan2_spec mem s len (result (test_twosse2 mem s len)).
Proof.
  unfold test_twosse2. rewrite result_bind.
  destruct twosse2_run_spec as [st [v [Hres [Hspec _]]]].
  rewrite Hres. exact Hspec.
Qed.

End SsePairScanners.

(** C10.  Whenever test_twosse2 returns from its cross-block straddle test
    (returning [i - 1] because the last lane of the previous block was a
    star and the first lane of the current block is a hash), the value is a
    valid pair match although no length check is applied to it: it is not
    negative, the byte there is a star, the next byte is a hash, the next
    index is inside the buffer -- and no pair starts before it.  The length
    is one for which [len - 1] and [i += 16] do not overflow. *)
Theorem twosse2_straddle_valid (mem : memory) (s len v : Z) :
  int_ok len ->
  result (twosse2_run mem s len) = Some (Some AtStraddle, v) ->
  0 <= v /\ mem (s + v) = star /\ mem (s + (v + 1)) = hash /\ v + 1 < len /\
  forall j, 0 <= j < v -> ~ pair_at mem s j.
Proof.
  intros _ Hrun.
  destruct (twosse2_run_spec mem s len) as [st [v' [Hres [_ Hstr]]]].
  rewrite Hrun in Hres. injection Hres as <- <-.
  destruct (Hstr eq_refl) as [Hv [Hlen [[Hs Hh] Hn]]].
  repeat split; auto.
Qed.

(** The straddle test of test_twosse2 fires on a buffer that starts one byte
    before a 16-byte boundary and has its pair at indices 16 and 17. *)
Lemma twosse2_straddle_witness :
  int_ok 18 /\
  result (twosse2_run (buf 15 "aaaaaaaaaaaaaaaa*#") 15 18) = Some (Some AtStraddle, 16) /\
  0 <= 16 /\
  buf 15 "aaaaaaaaaaaaaaaa*#" (15 + 16) = star /\
  buf 15 "aaaaaaaaaaaaaaaa*#" (15 + (16 + 1)) = hash /\
  16 + 1 < 18 /\
  forall j, 0 <= j < 16 -> ~ pair_at (buf 15 "aaaaaaaaaaaaaaaa*#") 15 j.
Proof.
  assert (Hlen : int_ok 18) by (unfold int_ok, INT_MIN, INT_MAX; lia).
  assert (Hrun : result (twosse2_run (buf 15 "aaaaaaaaaaaaaaaa*#") 15 18) =
                 Some (Some AtStraddle, 16)) by (vm_compute; reflexivity).
  split; [exact Hlen|]. split; [exact Hrun|].
  exact (twosse2_straddle_valid (buf 15 "aaaaaaaaaaaaaaaa*#") 15 18 16 Hlen Hrun).
Defined.

(** ** Mycroft's trick, lane by lane *)

Lemma pow_8S (n : nat) : 2 ^ (8 * Z.of_nat (S n)) = 256 * 2 ^ (8 * Z.of_nat n).
Proof.
  replace (8 * Z.of_nat (S n)) with (8 + 8 * Z.of_nat n) by lia.
  rewrite Z.pow_add_r by lia. reflexivity.
Qed.

Lemma sub_step (n : nat) (x : Z) (c : bool) :
  (x - ones_of (S n) - Z.b2z c) mod 2 ^ (8 * Z.of_nat (S n)) =
  (x mod 256 - 1 - Z.b2z c) mod 256 +
  256 * ((x / 256 - ones_of n - Z.b2z (x mod 256 <? 1 + Z.b2z c))
         mod 2 ^ (8 * Z.of_nat n)).
Proof.
  rewrite pow_8S. cbn [ones_of].
  assert (Hp : 0 < 2 ^ (8 * Z.of_nat n)) by (apply Z.pow_pos_nonneg; lia).
  rewrite Z.rem_mul_r by lia.
  f_equal.
  - replace (x - (1 + 256 * ones_of n) - Z.b2z c)
      with (x - 1 - Z.b2z c + (- ones_of n) * 256) by lia.
    rewrite Z.mod_add by lia.
    Z.div_mod_to_equations; lia.
  - f_equal. f_equal.
    replace (x - (1 + 256 * ones_of n) - Z.b2z c)
      with (x - 1 - Z.b2z c + (- ones_of n) * 256) by lia.
    rewrite Z.div_add by lia.
    assert ((x - 1 - Z.b2z c) / 256 = x / 256 - Z.b2z (x mod 256 <? 1 + Z.b2z c)).
    { destruct c; cbn [Z.b2z]; destruct (Z.ltb_spec (x mod 256) (1 + 1));
        destruct (Z.ltb_spec (x mod 256) (1 + 0)); cbn [Z.b2z];
        Z.div_mod_to_equations; lia. }
    lia.
Qed.

Lemma testbit_byte_cons (u y j : Z) :
  0 <= u < 256 -> 0 <= j ->
  Z.testbit (u + 256 * y) j = if j <? 8 then Z.testbit u j else Z.testbit y (j - 8).
Proof.
  intros Hu Hj. destruct (Z.ltb_spec j 8) as [Hlt|Hge].
  - rewrite <- (Z.mod_pow2_bits_low (u + 256 * y) 8 j) by lia.
    change (2 ^ 8) with 256.
    rewrite Z.mul_comm, Z.mod_add, Z.mod_small by lia. reflexivity.
  - replace j with ((j - 8) + 8) at 1 by lia.
    rewrite <- Z.div_pow2_bits by lia. change (2 ^ 8) with 256.
    rewrite Z.mul_comm, Z.div_add, Z.div_small by lia. reflexivity.
Qed.

Lemma testbit7 (a : Z) : 0 <= a < 256 -> Z.testbit a 7 = (128 <=? a).
Proof.
  intros Ha.
  destruct (Z.leb_spec 128 a).
  - apply Z.testbit_true; [lia|]. change (2 ^ 7) with 128.
    Z.div_mod_to_equations; lia.
  - apply Z.testbit_false; [lia|]. change (2 ^ 7) with 128.
    Z.div_mod_to_equations; lia.
Qed.

Lemma byte_fact (v : Z) (c : bool) :
  0 <= v < 256 ->
  Z.testbit ((v - 1 - Z.b2z c) mod 256) 7 && negb (Z.testbit v 7) =
  (v <? 1 + Z.b2z c).
Proof.
  intros Hv.
  assert (Hm : 0 <= (v - 1 - Z.b2z c) mod 256 < 256) by (apply Z.mod_pos_bound; lia).
  rewrite !testbit7 by lia.
  destruct c; cbn [Z.b2z];
    destruct (Z.leb_spec 128 ((v - 1 - 1) mod 256));
    destruct (Z.leb_spec 128 ((v - 1 - 0) mod 256));
    destruct (Z.leb_spec 128 v);
    destruct (Z.ltb_spec v (1 + 1));
    destruct (Z.ltb_spec v (1 + 0)); cbn [andb negb]; try reflexivity;
    Z.div_mod_to_equations; lia.
Qed.

Lemma lane_0 (x : Z) : lane 0 x = x mod 256.
Proof. unfold lane. cbn [Z.of_nat]. now rewrite Z.pow_0_r, Z.div_1_r. Qed.

Lemma lane_S (k : nat) (x : Z) : lane (S k) x = lane k (x / 256).
Proof.
  unfold lane. rewrite Nat2Z.inj_succ, Z.pow_succ_r by lia.
  rewrite Z.div_div by (try apply Z.pow_pos_nonneg; lia). reflexivity.
Qed.

Lemma borrow_shift (c : bool) (x : Z) (m : nat) :
  borrow c x (S m) = borrow (lane 0 x <? 1 + Z.b2z c) (x / 256) m.
Proof.
  induction m as [|m IH]; [reflexivity|].
  cbn [borrow] in *. rewrite IH, lane_S. reflexivity.
Qed.

Lemma sub_ones_bit (n : nat) :
  forall (x : Z) (c : bool) (k : nat), (k < n)%nat ->
    Z.testbit ((x - ones_of n - Z.b2z c) mod 2 ^ (8 * Z.of_nat n)) (8 * Z.of_nat k + 7)
    && negb (Z.testbit x (8 * Z.of_nat k + 7)) =
    borrow c x (S k).
Proof.
  induction n as [|n IH]; intros x c k Hk; [lia|].
  rewrite sub_step.
  assert (Hu : 0 <= (x mod 256 - 1 - Z.b2z c) mod 256 < 256)
    by (apply Z.mod_pos_bound; lia).
  rewrite testbit_byte_cons by lia.
  destruct k as [|k].
  - cbn [Z.of_nat Z.mul Z.add Z.ltb Z.compare]. cbn [borrow]. rewrite lane_0.
    rewrite <- (Z.mod_pow2_bits_low x 8 7) by lia. change (2 ^ 8) with 256.
    apply byte_fact. apply Z.mod_pos_bound. lia.
  - destruct (Z.ltb_spec (8 * Z.of_nat (S k) + 7) 8); [lia|].
    replace (8 * Z.of_nat (S k) + 7 - 8) with (8 * Z.of_nat k + 7) by lia.
    replace (8 * Z.of_nat (S k) + 7) with (8 * Z.of_nat k + 7 + 8) by lia.
    rewrite <- (Z.div_pow2_bits x 8) by lia. change (2 ^ 8) with 256.
    rewrite IH by lia. rewrite (borrow_shift c x (S k)), lane_0. reflexivity.
Qed.

Lemma borrow_test_bit (n : nat) (x : Z) (k : nat) :
  (k < n)%nat ->
  Z.testbit (borrow_test (8 * Z.of_nat n) (ones_of n) x) (8 * Z.of_nat k + 7) =
  borrow false x (S k).
Proof.
  intros Hk. unfold borrow_test, wrap. rewrite Z.land_spec.
  rewrite (Z.testbit_mod_pow2 (Z.lnot x)), Z.lnot_spec by lia.
  destruct (Z.ltb_spec (8 * Z.of_nat k + 7) (8 * Z.of_nat n)); [|lia].
  cbn [andb]. rewrite <- (sub_ones_bit n x false k Hk). cbn [Z.b2z].
  now rewrite Z.sub_0_r.
Qed.

Lemma highs_of_bit (n : nat) :
  forall j, 0 <= j ->
    Z.testbit (highs_of n) j = (j <? 8 * Z.of_nat n) && (j mod 8 =? 7).
Proof.
  unfold highs_of. induction n as [|n IH]; intros j Hj.
  - cbn [ones_of]. rewrite Z.testbit_0_l.
    destruct (Z.ltb_spec j (8 * Z.of_nat 0)); [lia|reflexivity].
  - cbn [ones_of]. replace (128 * (1 + 256 * ones_of n)) with (128 + 256 * (128 * ones_of n)) by lia.
    rewrite testbit_byte_cons by lia.
    destruct (Z.ltb_spec j 8).
    + change 128 with (2 ^ 7). rewrite Z.pow2_bits_eqb by lia.
      destruct (Z.ltb_spec j (8 * Z.of_nat (S n))); [|lia]. cbn [andb].
      rewrite Z.mod_small by lia. apply Z.eqb_sym.
    + rewrite IH by lia.
      replace (j mod 8) with ((j - 8) mod 8)
        by (Z.div_mod_to_equations; lia).
      f_equal.
      destruct (Z.ltb_spec (j - 8) (8 * Z.of_nat n)), (Z.ltb_spec j (8 * Z.of_nat (S n)));
        try reflexivity; lia.
Qed.

Lemma mycroft_bit (n : nat) (x : Z) (k : nat) :
  (k < n)%nat ->
  Z.testbit (mycroft (8 * Z.of_nat n) (ones_of n) (highs_of n) x) (8 * Z.of_nat k + 7) =
  borrow false x (S k).
Proof.
  intros Hk. unfold mycroft.
  rewrite Z.land_spec, borrow_test_bit, highs_of_bit by lia.
  destruct (Z.ltb_spec (8 * Z.of_nat k + 7) (8 * Z.of_nat n)); [|lia].
  replace ((8 * Z.of_nat k + 7) mod 8) with 7 by (Z.div_mod_to_equations; lia).
  now rewrite andb_true_r.
Qed.

Lemma lane_bounds (k : nat) (x : Z) : 0 <= lane k x < 256.
Proof. unfold lane. apply Z.mod_pos_bound. lia. Qed.

Lemma lane_cons_0 (u y : Z) : 0 <= u < 256 -> lane 0 (u + 256 * y) = u.
Proof.
  intros Hu. rewrite lane_0, Z.mul_comm, Z.mod_add, Z.mod_small by lia. reflexivity.
Qed.

Lemma lane_cons_S (k : nat) (u y : Z) :
  0 <= u < 256 -> lane (S k) (u + 256 * y) = lane k y.
Proof.
  intros Hu. rewrite lane_S, Z.mul_comm, Z.div_add, Z.div_small by lia. reflexivity.
Qed.

Lemma lane_testbit (k : nat) (x m : Z) :
  0 <= m ->
  Z.testbit (lane k x) m = (m <? 8) && Z.testbit x (m + 8 * Z.of_nat k).
Proof.
  intros Hm. unfold lane. change 256 with (2 ^ 8) at 2.
  rewrite Z.testbit_mod_pow2 by lia. f_equal.
  replace (256 ^ Z.of_nat k) with (2 ^ (8 * Z.of_nat k))
    by (rewrite Z.pow_mul_r by lia; reflexivity).
  apply Z.div_pow2_bits; lia.
Qed.

Lemma lane_lxor (k : nat) (a b : Z) :
  lane k (Z.lxor a b) = Z.lxor (lane k a) (lane k b).
Proof.
  apply Z.bits_inj'. intros m Hm.
  rewrite Z.lxor_spec, !lane_testbit, Z.lxor_spec by lia.
  now destruct (m <? 8).
Qed.

Lemma lane_rep (t : Z) (n : nat) :
  0 <= t < 256 -> forall k, (k < n)%nat -> lane k (t * ones_of n) = t.
Proof.
  intros Ht. induction n as [|n IH]; intros k Hk; [lia|].
  cbn [ones_of]. replace (t * (1 + 256 * ones_of n)) with (t + 256 * (t * ones_of n)) by lia.
  destruct k as [|k]; [now apply lane_cons_0|].
  rewrite lane_cons_S by lia. apply IH. lia.
Qed.

(** What the trick flags, exactly: a zero lane, or a lane holding 1 directly
    above a flagged lane. *)
Lemma borrow_flag_iff (x : Z) (k : nat) :
  borrow false x (S k) = true <->
  lane k x = 0 \/ (lane k x = 1 /\ exists k', k = S k' /\ borrow false x (S k') = true).
Proof.
  pose proof (lane_bounds k x) as Hl.
  destruct k as [|k].
  - cbn [borrow Z.b2z]. rewrite Z.ltb_lt. split.
    + intros H. left. lia.
    + intros [H|[_ [k' [H _]]]]; [lia|discriminate].
  - change (borrow false x (S (S k)))
      with (lane (S k) x <? 1 + Z.b2z (borrow false x (S k))).
    rewrite Z.ltb_lt. destruct (borrow false x (S k)) eqn:E; cbn [Z.b2z]; split.
    + intros H. destruct (Z.eq_dec (lane (S k) x) 0); [now left|].
      right. split; [lia|]. exists k. auto.
    + intros [H|[H _]]; lia.
    + intros H. left. lia.
    + intros [H|[_ [k' [H1 H2]]]]; [lia|].
      injection H1 as <-. congruence.
Qed.

Lemma borrow_first (x : Z) (k : nat) :
  borrow false x (S k) = true ->
  (forall j, (j < k)%nat -> borrow false x (S j) = false) ->
  lane k x = 0.
Proof.
  intros Hk Hlow. apply borrow_flag_iff in Hk.
  destruct Hk as [H|[_ [k' [-> H]]]]; [exact H|].
  rewrite Hlow in H by lia. discriminate.
Qed.

(** For 4 and 8 bytes these are the constants of the source. *)
Lemma mycroft_constants :
  ones_of 4 = 0x01010101 /\ highs_of 4 = 0x80808080 /\
  u8 star * ones_of 4 = 0x2a2a2a2a /\
  ones_of 8 = 0x0101010101010101 /\ highs_of 8 = 0x8080808080808080 /\
  u8 star * ones_of 8 = 0x2a2a2a2a2a2a2a2a /\
  u8 hash * ones_of 8 = 0x2323232323232323.
Proof. repeat split. Qed.

(** C3, as the code has it.  For a word of [n] bytes [w] and a target byte
    [t], the formula [(x - ones) & ~x & highs] on [x = w ^ (t repeated)] sets
    the top bit of lane [k] exactly when lane [k] of [w] is the target, or
    lane [k] holds the target with its lowest bit flipped and the lane
    directly below is flagged too (the borrow of the subtraction runs
    through it).  So every lane equal to the target is flagged, and the
    lowest flagged lane is always equal to the target. *)
Theorem mycroft_lanes (n : nat) (w t : Z) (k : nat) :
  0 <= t < 256 -> (k < n)%nat ->
  (flagged n w t k = true <->
   lane k w = t \/
   (lane k w = Z.lxor t 1 /\ exists k', k = S k' /\ flagged n w t k' = true)) /\
  (flagged n w t k = true -> (forall j, (j < k)%nat -> flagged n w t j = false) ->
   lane k w = t).
Proof.
  intros Ht Hk.
  assert (Hfl : forall j, (j < n)%nat ->
                  flagged n w t j = borrow false (Z.lxor w (t * ones_of n)) (S j))
    by (intros j Hj; apply mycroft_bit; exact Hj).
  assert (Hlane : forall j, (j < n)%nat ->
                    lane j (Z.lxor w (t * ones_of n)) = Z.lxor (lane j w) t)
    by (intros j Hj; rewrite lane_lxor, lane_rep by auto; reflexivity).
  assert (H0 : forall a, Z.lxor a t = 0 <-> a = t) by (intros a; apply Z.lxor_eq_0_iff).
  assert (H1 : forall a, Z.lxor a t = 1 <-> a = Z.lxor t 1).
  { intros a. split; intros H.
    - rewrite <- H, (Z.lxor_comm a t), <- Z.lxor_assoc, Z.lxor_nilpotent.
      now rewrite Z.lxor_0_l.
    - rewrite H, (Z.lxor_comm t 1), Z.lxor_assoc, Z.lxor_nilpotent.
      now rewrite Z.lxor_0_r. }
  split.
  - rewrite Hfl, borrow_flag_iff, Hlane, H0, H1 by exact Hk.
    split; (intros [H|[H [k' [-> H']]]]; [now left|right]);
      (split; [exact H|]); exists k'; (split; [reflexivity|]).
    + rewrite Hfl by lia. exact H'.
    + rewrite Hfl in H' by lia. exact H'.
  - intros Hset Hlow. apply H0. rewrite <- Hlane by exact Hk.
    apply borrow_first.
    + rewrite <- Hfl by exact Hk. exact Hset.
    + intros j Hj. rewrite <- Hfl by lia. apply Hlow. exact Hj.
Qed.

(** The word with the bytes [*], [+], 0, 0 and the target [*]. *)
Lemma mycroft_lanes_witness :
  (flagged 4 0x2b2a 0x2a 1 = true <->
   lane 1 0x2b2a = 0x2a \/
   (lane 1 0x2b2a = Z.lxor 0x2a 1 /\
    exists k', 1%nat = S k' /\ flagged 4 0x2b2a 0x2a k' = true)) /\
  (flagged 4 0x2b2a 0x2a 1 = true ->
   (forall j, (j < 1)%nat -> flagged 4 0x2b2a 0x2a j = false) ->
   lane 1 0x2b2a = 0x2a).
Proof. apply (mycroft_lanes 4 0x2b2a 0x2a 1); lia. Defined.

(** C3 as the specification states it fails: in the 32-bit word with the
    bytes [*], [+], 0, 0 the formula for the target [*] sets the top bit of
    lane 1, whose byte is not the target. *)
Lemma mycroft_flags_unequal_lane :
  Z.testbit (mycroft 32 0x01010101 0x80808080 (Z.lxor 0x2b2a 0x2a2a2a2a)) (8 * 1 + 7)
  = true /\
  lane 1 0x2b2a <> 0x2a.
Proof. split; [vm_compute; reflexivity|vm_compute; discriminate]. Qed.

(** ** Single byte, Mycroft's trick after a prologue: the contract holds *)

Lemma u8_bounds (b : byte) : 0 <= u8 b < 256.
Proof. unfold u8. pose proof (Byte.to_N_bounded b). lia. Qed.

Lemma u8_inj (a b : byte) : u8 a = u8 b -> a = b.
Proof.
  unfold u8. intros H. apply N2Z.inj in H.
  pose proof (Byte.of_to_N a) as Ha. rewrite H, Byte.of_to_N in Ha. congruence.
Qed.

Lemma shiftr_ffs_lane (k : Z) : 0 <= k -> Z.shiftr (8 * k + 7 + 1) 3 = k + 1.
Proof.
  intros Hk. rewrite Z.shiftr_div_pow2 by lia. change (2 ^ 3) with 8.
  Z.div_mod_to_equations; lia.
Qed.

Section MycroftSingle.

Variable mem : memory.

Lemma lane_le_word (n : nat) :
  forall (a : Z) (k : nat), (k < n)%nat ->
    lane k (le_word mem n a) = u8 (mem (a + Z.of_nat k)).
Proof.
  induction n as [|n IH]; intros a k Hk; [lia|].
  cbn [le_word]. pose proof (u8_bounds (mem a)).
  destruct k as [|k].
  - rewrite lane_cons_0 by lia. now rewrite Z.add_0_r.
  - rewrite lane_cons_S, IH by lia. f_equal. f_equal. lia.
Qed.

(** Lane [k] of the word at [a], xored with the repeated [c], is zero exactly
    when the byte at [a + k] is [c]. *)
Lemma xor_lane_zero (c : byte) (n : nat) (a : Z) (k : nat) :
  (k < n)%nat ->
  lane k (Z.lxor (le_word mem n a) (u8 c * ones_of n)) = 0 <->
  mem (a + Z.of_nat k) = c.
Proof.
  intros Hk. rewrite lane_lxor, lane_le_word, lane_rep by (auto using u8_bounds).
  rewrite Z.lxor_eq_0_iff. split; [apply u8_inj|congruence].
Qed.

Lemma highs_of_nonneg (n : nat) : 0 <= highs_of n.
Proof. unfold highs_of. induction n; cbn [ones_of]; lia. Qed.

Lemma mycroft_block (n : nat) (a : Z) :
  let m := mycroft (8 * Z.of_nat n) (ones_of n) (highs_of n)
                   (Z.lxor (le_word mem n a) (u8 star * ones_of n)) in
  (nonzero m = false ->
   forall k, (k < n)%nat -> mem (a + Z.of_nat k) <> star) /\
  (nonzero m = true ->
   exists k, (k < n)%nat /\ Z.shiftr (__builtin_ffs m) 3 = Z.of_nat k + 1 /\
             mem (a + Z.of_nat k) = star /\
             forall j, (j < k)%nat -> mem (a + Z.of_nat j) <> star).
Proof.
  intros m.
  set (x := Z.lxor (le_word mem n a) (u8 star * ones_of n)) in *.
  assert (Hfl : forall j, (j < n)%nat ->
                  Z.testbit m (8 * Z.of_nat j + 7) = borrow false x (S j))
    by (intros j Hj; apply mycroft_bit; exact Hj).
  assert (Hclear : forall j, (j < n)%nat ->
                     borrow false x (S j) = false -> mem (a + Z.of_nat j) <> star).
  { intros j Hj Hb Hs. apply (xor_lane_zero star n a j Hj) in Hs. fold x in Hs.
    assert (borrow false x (S j) = true) by (apply borrow_flag_iff; now left).
    congruence. }
  split.
  - intros Hz k Hk. apply nonzero_false in Hz. apply Hclear; [exact Hk|].
    rewrite <- Hfl by exact Hk. rewrite Hz. apply Z.testbit_0_l.
  - intros Hnz.
    assert (Hpos : 0 < m).
    { apply nonzero_true in Hnz.
      assert (0 <= m) by (apply Z.land_nonneg; right; apply highs_of_nonneg). lia. }
    destruct (ffs_spec m Hpos) as [p [Hp [Hffs [Hset Hlow]]]].
    assert (Hh : Z.testbit (highs_of n) p = true).
    { unfold m, mycroft in Hset. rewrite Z.land_spec in Hset.
      now apply andb_prop in Hset. }
    rewrite highs_of_bit in Hh by lia. apply andb_prop in Hh.
    destruct Hh as [Hh1 Hh2]. apply Z.ltb_lt in Hh1. apply Z.eqb_eq in Hh2.
    assert (Hpk : p = 8 * Z.of_nat (Z.to_nat (p / 8)) + 7).
    { rewrite Z2Nat.id by (Z.div_mod_to_equations; lia).
      Z.div_mod_to_equations; lia. }
    set (k := Z.to_nat (p / 8)) in *.
    assert (Hk : (k < n)%nat) by lia.
    exists k. split; [exact Hk|]. split.
    + rewrite Hffs, Hpk. apply shiftr_ffs_lane. lia.
    + assert (Hlower : forall j, (j < k)%nat -> borrow false x (S j) = false).
      { intros j Hj. rewrite <- Hfl by lia. apply Hlow. lia. }
      split.
      * apply (xor_lane_zero star n a k Hk). fold x.
        apply borrow_first; [|exact Hlower].
        rewrite <- Hfl by exact Hk. rewrite <- Hpk. exact Hset.
      * intros j Hj. apply Hclear; [lia|]. apply Hlower. exact Hj.
Qed.

Variables s len : Z.

(** The result of one word of a Mycroft loop that starts at a non-negative
    index [i] with no star before it. *)
Lemma mycroft_word_found (n : nat) (i : Z) (k : nat) :
  0 <= i ->
  (forall j, 0 <= j < i -> ~ star_at mem s j) ->
  mem (s + i + Z.of_nat k) = star ->
  (forall j, (j < k)%nat -> mem (s + i + Z.of_nat j) <> star) ->
  scan1_spec mem s len
    (Some (if i + (Z.of_nat k + 1) - 1 >=? len then -127
           else i + (Z.of_nat k + 1) - 1)).
Proof.
  intros Hi Hpre Hstar Hlow.
  replace (i + (Z.of_nat k + 1) - 1) with (i + Z.of_nat k) by lia.
  assert (Hbefore : forall j, 0 <= j < i + Z.of_nat k -> ~ star_at mem s j).
  { intros j Hj. destruct (Z.lt_ge_cases j i) as [Hji|Hji]; [apply Hpre; lia|].
    unfold star_at. replace (s + j) with (s + i + Z.of_nat (Z.to_nat (j - i))) by lia.
    apply Hlow. lia. }
  destruct (Z.geb_spec (i + Z.of_nat k) len) as [Hout|Hin].
  - right. split; [reflexivity|]. intros j Hj. apply Hbefore. lia.
  - left. exists (i + Z.of_nat k). split; [reflexivity|].
    split; [lia|]. split; [|exact Hbefore].
    unfold star_at. now rewrite Z.add_assoc.
Qed.

Lemma mycroft_word_none (n : nat) (i : Z) :
  0 <= i ->
  (forall j, 0 <= j < i -> ~ star_at mem s j) ->
  (forall k, (k < n)%nat -> mem (s + i + Z.of_nat k) <> star) ->
  forall j, 0 <= j < i + Z.of_nat n -> ~ star_at mem s j.
Proof.
  intros Hi Hpre Hnone j Hj.
  destruct (Z.lt_ge_cases j i) as [Hji|Hji]; [apply Hpre; lia|].
  unfold star_at. replace (s + j) with (s + i + Z.of_nat (Z.to_nat (j - i))) by lia.
  apply Hnone. lia.
Qed.

Lemma mycroft_loop_spec (n : nat) (fuel : nat) :
  (0 < n)%nat ->
  forall i, 0 <= i -> len - i <= Z.of_nat fuel ->
    (forall j, 0 <= j < i -> ~ star_at mem s j) ->
    scan1_spec mem s len
      (result (mycroft_loop mem s len n (u8 star * ones_of n) (highs_of n) (ones_of n)
                            fuel i)).
Proof.
  intros Hn.
  induction fuel as [|fuel IH]; intros i Hi Hf Hpre; cbn [mycroft_loop];
    destruct (Z.ltb_spec i len) as [Hlt|Hge]; try lia.
  - right. split; [reflexivity|]. intros j Hj. apply Hpre. lia.
  - rewrite result_bind. cbn [load result snd]. cbv zeta.
    destruct (mycroft_block n (s + i)) as [Hnone Hsome].
    set (m := mycroft _ _ _ _) in *.
    destruct (nonzero m) eqn:Hnz.
    + destruct (Hsome eq_refl) as [k [Hk [Hffs [Hstar Hlow]]]].
      rewrite result_if_ret, Hffs. now apply mycroft_word_found.
    + apply IH; try lia.
      apply mycroft_word_none; auto.
  - right. split; [reflexivity|]. intros j Hj. apply Hpre. lia.
Qed.

Lemma mycroft_scan_spec (n : nat) (A : Z) :
  (0 < n)%nat ->
  scan1_spec mem s len
    (result (mycroft_scan mem s len n A (u8 star * ones_of n) (highs_of n) (ones_of n))).
Proof.
  intros Hn. unfold mycroft_scan. rewrite result_bind.
  destruct (prologue1_spec mem s len A (Z.to_nat len) 0) as [r [Hr Hpost]]; [lia|].
  rewrite Hr. destruct r as [v|i]; cbn in Hpost.
  - left. exists v. split; [reflexivity|].
    destruct Hpost as [Hv [Hs Hnn]]. repeat split; auto; lia.
  - destruct Hpost as [Hi [Hin [Hout [_ Hnn]]]].
    destruct (Z.geb_spec i len) as [Hge|Hlt].
    + right. split; [reflexivity|]. intros j Hj. apply Hnn. lia.
    + apply mycroft_loop_spec; try lia. intros j Hj. apply Hnn. lia.
Qed.

Lemma test_mycroft4_spec : scan1_spec mem s len (result (test_mycroft4 mem s len)).
Proof. apply (mycroft_scan_spec 4 3). lia. Qed.

Lemma test_mycroft_spec : scan1_spec mem s len (result (test_mycroft mem s len)).
Proof. apply (mycroft_scan_spec 8 7). lia. Qed.

(** The 4-byte loop in the middle of test_sse2_and_mycroft4. *)
Lemma mycroft4_until16_spec (fuel : nat) :
  forall i, 0 <= i -> len - i <= Z.of_nat fuel ->
    (forall j, 0 <= j < i -> ~ star_at mem s j) ->
    exists r, result (mycroft4_until16 mem s len fuel i) = Some r /\
      match r with
      | Return v => scan1_spec mem s len (Some v)
      | Continue j => i <= j /\ forall k, 0 <= k < j -> ~ star_at mem s k
      end.
Proof.
  induction fuel as [|fuel IH]; intros i Hi Hf Hpre; cbn [mycroft4_until16];
    destruct (Z.ltb_spec i len) as [Hlt|Hge]; try lia.
  - exists (Continue i). split; [reflexivity|]. split; [lia|exact Hpre].
  - rewrite result_bind. cbn [load32 load result snd]. cbv zeta.
    destruct (mycroft_block 4 (s + i)) as [Hnone Hsome].
    change (mycroft (8 * Z.of_nat 4) (ones_of 4) (highs_of 4)
              (Z.lxor (le_word mem 4 (s + i)) (u8 star * ones_of 4)))
      with (mycroft 32 0x01010101 0x80808080 (Z.lxor (le_word mem 4 (s + i)) 0x2a2a2a2a))
      in Hnone, Hsome.
    set (m := mycroft _ _ _ _) in *.
    destruct (nonzero m) eqn:Hnz.
    + destruct (Hsome eq_refl) as [k [Hk [Hffs [Hstar Hlow]]]].
      rewrite Hffs.
      pose proof (mycroft_word_found 4 i k Hi Hpre Hstar Hlow) as Hspec.
      destruct (i + (Z.of_nat k + 1) - 1 >=? len).
      * exists (Return (-127)). split; [reflexivity|exact Hspec].
      * exists (Return (i + (Z.of_nat k + 1) - 1)). split; [reflexivity|exact Hspec].
    + pose proof (mycroft_word_none 4 i Hi Hpre (Hnone eq_refl)) as Hpre'.
      change (Z.of_nat 4) with 4 in Hpre'.
      destruct (Z.land (s + (i + 4)) 15 =? 0).
      * exists (Continue (i + 4)). split; [reflexivity|]. split; [lia|exact Hpre'].
      * destruct (IH (i + 4)) as [r [Hr Hpost]]; try lia; [exact Hpre'|].
        exists r. split; [exact Hr|].
        destruct r as [v|j]; [exact Hpost|].
        destruct Hpost as [Hj Hnn]. split; [lia|exact Hnn].
  - exists (Continue i). split; [reflexivity|]. split; [lia|exact Hpre].
Qed.

Lemma test_sse2_and_mycroft4_spec :
  scan1_spec mem s len (result (test_sse2_and_mycroft4 mem s len)).
Proof.
  unfold test_sse2_and_mycroft4. rewrite result_bind.
  destruct (prologue1_spec mem s len 3 (Z.to_nat len) 0) as [r [Hr Hpost]]; [lia|].
  rewrite Hr. destruct r as [v|i]; cbn in Hpost.
  - left. exists v. split; [reflexivity|].
    destruct Hpost as [Hv [Hs Hnn]]. repeat split; auto; lia.
  - destruct Hpost as [Hi [Hin [Hout [_ Hnn]]]].
    destruct (Z.geb_spec i len) as [Hge|Hlt].
    + right. split; [reflexivity|]. intros j Hj. apply Hnn. lia.
    + rewrite result_bind.
      destruct (mycroft4_until16_spec (Z.to_nat (len - i)) i) as [r [Hr' Hpost]];
        try lia; [intros j Hj; apply Hnn; lia|].
      rewrite Hr'. destruct r as [v|j]; [exact Hpost|].
      destruct Hpost as [Hj Hnn'].
      destruct (Z.geb_spec j len) as [Hge|Hlt'].
      * right. split; [reflexivity|]. intros k Hk. apply Hnn'. lia.
      * apply sse2_loop_spec; try lia. exact Hnn'.
Qed.

End MycroftSingle.

(** ** Every block scanner reports only indices of the buffer *)

Lemma scan1_spec_range (mem : memory) (s len : Z) (r : option Z) :
  scan1_spec mem s len r -> in_range1 len r.
Proof.
  intros [[i [Hr [Hi _]]]|[Hr _]].
  - exists i. split; [exact Hr|right; exact Hi].
  - exists (-127). split; [exact Hr|now left].
Qed.

Lemma scan2_spec_range (mem : memory) (s len : Z) (r : option Z) :
  scan2_spec mem s len r -> in_range2 len r.
Proof.
  intros [[i [Hr [Hi [Hi' _]]]]|[Hr _]].
  - exists i. split; [exact Hr|right; split; assumption].
  - exists (-127). split; [exact Hr|now left].
Qed.

Lemma pow2_divide_land (m x y : Z) :
  0 <= m -> (2 ^ m | y) -> (2 ^ m | Z.land x y).
Proof.
  intros Hm Hy.
  assert (Hp : 2 ^ m <> 0) by (apply Z.pow_nonzero; lia).
  apply Z.mod_divide in Hy; [|exact Hp]. apply Z.mod_divide; [exact Hp|].
  rewrite <- Z.land_ones, <- Z.land_assoc, (Z.land_ones y), Hy by lia.
  apply Z.land_0_r.
Qed.

Lemma pow2_divide_wrap (m W x : Z) :
  0 <= m -> 0 <= W -> (2 ^ m | x) -> (2 ^ m | wrap W x).
Proof.
  intros Hm HW Hx. unfold wrap.
  assert (Hp : 2 ^ W <> 0) by (apply Z.pow_nonzero; lia).
  destruct (Z.le_gt_cases m W) as [Hle|Hgt].
  - rewrite Z.mod_eq by exact Hp. apply Z.divide_sub_r; [exact Hx|].
    apply Z.divide_mul_l. exists (2 ^ (W - m)).
    rewrite <- Z.pow_add_r by lia. f_equal. lia.
  - assert (Hd : (2 ^ W | x)).
    { apply Z.divide_trans with (2 ^ m); [|exact Hx].
      exists (2 ^ (m - W)). rewrite <- Z.pow_add_r by lia. f_equal. lia. }
    apply Z.mod_divide in Hd; [|exact Hp]. rewrite Hd. apply Z.divide_0_r.
Qed.

Lemma pow2_divide_shiftl (m k x : Z) :
  0 <= m -> 0 <= k -> (2 ^ m | x) -> (2 ^ (m + k) | Z.shiftl x k).
Proof.
  intros Hm Hk [q Hq]. rewrite Z.shiftl_mul_pow2 by lia.
  exists q. rewrite Hq, Z.pow_add_r by lia. ring.
Qed.

Lemma pow2_divide_weaken (m m' x : Z) :
  0 <= m' <= m -> (2 ^ m | x) -> (2 ^ m' | x).
Proof.
  intros Hm Hx. apply Z.divide_trans with (2 ^ m); [|exact Hx].
  exists (2 ^ (m - m')). rewrite <- Z.pow_add_r by lia. f_equal. lia.
Qed.

(** The lowest set bit of a multiple of [2 ^ m] is at [m] or above. *)
Lemma ffs_divide_bound (m x : Z) :
  0 <= m -> 0 < x -> (2 ^ m | x) -> m + 1 <= __builtin_ffs x.
Proof.
  intros Hm Hx [q Hq].
  destruct (ffs_spec x Hx) as [p [Hp [Hffs [Hset _]]]].
  destruct (Z.lt_ge_cases p m) as [Hlt|Hge]; [|lia].
  rewrite Hq, Z.mul_pow2_bits_low in Hset by lia. discriminate.
Qed.

Lemma shiftr3_bound (L f : Z) : 8 * L + 8 <= f -> L + 1 <= Z.shiftr f 3.
Proof.
  intros H. rewrite Z.shiftr_div_pow2 by lia. change (2 ^ 3) with 8.
  Z.div_mod_to_equations; lia.
Qed.

Lemma highs_of_divide (n : nat) : (2 ^ 7 | highs_of n).
Proof. unfold highs_of. change (2 ^ 7) with 128. apply Z.divide_factor_l. Qed.

Lemma bits_divide (m x : Z) :
  0 <= m -> (forall p, 0 <= p < m -> Z.testbit x p = false) -> (2 ^ m | x).
Proof.
  intros Hm Hbits. apply Z.mod_divide; [apply Z.pow_nonzero; lia|].
  apply Z.bits_inj'. intros p Hp.
  rewrite Z.testbit_mod_pow2, Z.testbit_0_l by lia.
  destruct (Z.ltb_spec p m); [|reflexivity]. cbn [andb]. apply Hbits. lia.
Qed.

Lemma land_s_bounds (s k : Z) : 0 <= k -> 0 <= Z.land s (Z.ones k) < 2 ^ k.
Proof.
  intros Hk. rewrite Z.land_ones by lia. apply Z.mod_pos_bound.
  apply Z.pow_pos_nonneg; lia.
Qed.

Section Ranges.

Variable mem : memory.
Variables s len : Z.

Lemma in_range1_clamp (answer : Z) :
  0 <= answer ->
  in_range1 len (result (if answer >=? len then ret (-127) else ret answer)).
Proof.
  intros Ha. rewrite result_if_ret.
  destruct (Z.geb_spec answer len).
  - exists (-127). split; [reflexivity|now left].
  - exists answer. split; [reflexivity|right; lia].
Qed.

Lemma in_range2_clamp (answer : Z) :
  0 <= answer ->
  in_range2 len (result (if answer >=? len - 1 then ret (-127) else ret answer)).
Proof.
  intros Ha. rewrite result_if_ret.
  destruct (Z.geb_spec answer (len - 1)).
  - exists (-127). split; [reflexivity|now left].
  - exists answer. split; [reflexivity|right; lia].
Qed.

Lemma in_range1_notfound : in_range1 len (result (ret (-127))).
Proof. exists (-127). split; [reflexivity|now left]. Qed.

Lemma in_range2_notfound : in_range2 len (result (ret (-127))).
Proof. exists (-127). split; [reflexivity|now left]. Qed.

Lemma highs_ok_next (n : nat) (i : Z) :
  (n <= 8)%nat -> 0 <= i -> highs_ok i (highs_of n).
Proof.
  intros Hn Hi. split; [apply highs_of_nonneg|]. split.
  - replace (8 * Z.max 0 (- i) + 7) with 7 by lia. apply highs_of_divide.
  - intros p Hp Hset. rewrite highs_of_bit in Hset by lia.
    apply andb_prop in Hset. destruct Hset as [H1 H2].
    apply Z.ltb_lt in H1. apply Z.eqb_eq in H2. lia.
Qed.

Lemma highs_ok_first (n : nat) (last_bits : Z) :
  (n <= 8)%nat -> 0 <= last_bits ->
  highs_ok (- last_bits)
    (wrap (8 * Z.of_nat n) (Z.shiftl (highs_of n) (Z.shiftl last_bits 3))).
Proof.
  intros Hn Hl.
  assert (Hsh : Z.shiftl last_bits 3 = 8 * last_bits)
    by (rewrite Z.shiftl_mul_pow2 by lia; change (2 ^ 3) with 8; lia).
  rewrite Hsh. split; [|split].
  - unfold wrap. apply Z.mod_pos_bound. apply Z.pow_pos_nonneg; lia.
  - apply pow2_divide_wrap; try lia.
    replace (8 * Z.max 0 (- - last_bits) + 7) with (7 + 8 * last_bits) by lia.
    apply pow2_divide_shiftl; try lia. apply highs_of_divide.
  - intros p Hp Hset. unfold wrap in Hset.
    rewrite Z.testbit_mod_pow2, Z.shiftl_spec in Hset by lia.
    apply andb_prop in Hset. destruct Hset as [H1 H2]. apply Z.ltb_lt in H1.
    destruct (Z.lt_ge_cases (p - 8 * last_bits) 0) as [Hneg|Hnn].
    + rewrite Z.testbit_neg_r in H2 by lia. discriminate.
    + rewrite highs_of_bit in H2 by lia. apply andb_prop in H2.
      destruct H2 as [_ H2]. apply Z.eqb_eq in H2.
      split; [lia|]. Z.div_mod_to_equations; lia.
Qed.

Lemma pure_mycroft_loop_range (n : nat) (mask ones : Z) (fuel : nat) :
  (0 < n <= 8)%nat ->
  forall i h, - Z.of_nat n < i -> len - i <= Z.of_nat fuel -> highs_ok i h ->
    in_range1 len
      (result (pure_mycroft_loop mem s len n mask (highs_of n) ones fuel i h)).
Proof.
  intros Hn.
  induction fuel as [|fuel IH]; intros i h Hi Hf [Hh [Hdiv Hbits]];
    cbn [pure_mycroft_loop];
    destruct (Z.ltb_spec i len) as [Hlt|Hge]; try lia;
    try apply in_range1_notfound.
  rewrite result_bind. cbn [load result snd]. cbv zeta.
  set (m := mycroft _ _ _ _).
  destruct (nonzero m) eqn:Hnz.
  - apply in_range1_clamp.
    assert (Hm : 0 < m).
    { apply nonzero_true in Hnz.
      assert (0 <= m) by (apply Z.land_nonneg; now right). lia. }
    assert (Hd : (2 ^ (8 * Z.max 0 (- i) + 7) | m))
      by (apply pow2_divide_land; [lia|exact Hdiv]).
    apply ffs_divide_bound in Hd; [|lia|exact Hm].
    pose proof (shiftr3_bound (Z.max 0 (- i)) (__builtin_ffs m) ltac:(lia)). lia.
  - apply IH; try lia. apply highs_ok_next; lia.
Qed.

Lemma mycroft2_loop_range (fuel : nat) :
  forall i, 1 <= i -> len - i <= Z.of_nat fuel ->
    in_range2 len (result (mycroft2_loop mem s len fuel i)).
Proof.
  induction fuel as [|fuel IH]; intros i Hi Hf; cbn [mycroft2_loop];
    destruct (Z.ltb_spec i len) as [Hlt|Hge]; try lia;
    try apply in_range2_notfound.
  rewrite result_bind. cbn [load64 load result snd].
  rewrite result_bind. cbn [load64 load result snd]. cbv zeta.
  set (m := Z.land (Z.land _ _) highs64).
  destruct (nonzero m) eqn:Hnz.
  - apply in_range2_clamp. unfold __builtin_ffsll.
    assert (Hm : 0 < m).
    { apply nonzero_true in Hnz.
      assert (0 <= m) by (apply Z.land_nonneg; right; unfold highs64; lia). lia. }
    assert (Hd : (2 ^ 7 | m))
      by (apply pow2_divide_land; [lia|apply (highs_of_divide 8)]).
    apply ffs_divide_bound in Hd; [|lia|exact Hm].
    pose proof (shiftr3_bound 0 (__builtin_ffs m) Hd). lia.
  - apply IH; lia.
Qed.

Lemma pure_mycroft2_loop_range (fuel : nat) :
  forall i h stars_low, -8 < i -> len - i <= Z.of_nat fuel -> highs_ok i h ->
    0 <= stars_low -> (2 ^ 7 | stars_low) -> (i <= 0 -> stars_low = 0) ->
    in_range2 len (result (pure_mycroft2_loop mem s len fuel i h stars_low)).
Proof.
  induction fuel as [|fuel IH]; intros i h sl Hi Hf [Hh [Hdiv Hbits]] Hsl Hsl7 Hsl0;
    cbn [pure_mycroft2_loop];
    destruct (Z.ltb_spec i len) as [Hlt|Hge]; try lia;
    try apply in_range2_notfound.
  rewrite result_bind. cbn [load64 load result snd]. cbv zeta.
  set (new_stars := Z.land (borrow_test 64 ones64 _) h).
  set (sl' := wrap 64 (sl + wrap 64 (Z.shiftl new_stars 8))).
  set (m := Z.land sl' _).
  assert (Hns : 0 <= new_stars) by (apply Z.land_nonneg; now right).
  assert (Hnsd : (2 ^ (8 * Z.max 0 (- i) + 7) | new_stars))
    by (apply pow2_divide_land; [lia|exact Hdiv]).
  assert (Hsl' : 0 <= sl')
    by (unfold sl', wrap; apply Z.mod_pos_bound; reflexivity).
  destruct (nonzero m) eqn:Hnz.
  - apply in_range2_clamp. unfold __builtin_ffsll.
    assert (Hm : 0 < m).
    { apply nonzero_true in Hnz.
      assert (0 <= m) by (apply Z.land_nonneg; now left). lia. }
    assert (Hshift : (2 ^ (8 * Z.max 0 (- i) + 7 + 8) | wrap 64 (Z.shiftl new_stars 8))).
    { apply pow2_divide_wrap; try lia. apply pow2_divide_shiftl; try lia. exact Hnsd. }
    destruct (Z.le_gt_cases i 0) as [Hfirst|Hlater].
    + assert (Hd : (2 ^ (8 * (- i + 1) + 7) | m)).
      { unfold m. rewrite Z.land_comm. apply pow2_divide_land; [lia|].
        unfold sl'. rewrite (Hsl0 Hfirst), Z.add_0_l.
        apply pow2_divide_wrap; try lia.
        replace (8 * (- i + 1) + 7) with (8 * Z.max 0 (- i) + 7 + 8) by lia.
        exact Hshift. }
      apply ffs_divide_bound in Hd; [|lia|exact Hm].
      pose proof (shiftr3_bound (- i + 1) (__builtin_ffs m) ltac:(lia)). lia.
    + assert (Hd : (2 ^ 7 | m)).
      { unfold m. rewrite Z.land_comm. apply pow2_divide_land; [lia|].
        unfold sl'. apply pow2_divide_wrap; try lia.
        apply Z.divide_add_r; [exact Hsl7|].
        apply pow2_divide_weaken with (m := 8 * Z.max 0 (- i) + 7 + 8); [lia|exact Hshift]. }
      apply ffs_divide_bound in Hd; [|lia|exact Hm].
      pose proof (shiftr3_bound 0 (__builtin_ffs m) Hd). lia.
  - apply IH; try lia.
    + apply (highs_ok_next 8); lia.
    + apply Z.shiftr_nonneg. exact Hns.
    + apply bits_divide; [lia|]. intros p Hp.
      rewrite Z.shiftr_spec by lia.
      destruct (Z.testbit new_stars (p + 56)) eqn:E; [|reflexivity].
      unfold new_stars in E. rewrite Z.land_spec in E.
      apply andb_prop in E. destruct E as [_ E].
      apply Hbits in E; [|lia]. destruct E as [E1 E2].
      exfalso. Z.div_mod_to_equations; lia.
Qed.

Lemma test_pure_mycroft4_range :
  in_range1 len (result (test_pure_mycroft4 mem s len)).
Proof.
  unfold test_pure_mycroft4, pure_mycroft_scan. cbv zeta.
  pose proof (land_s_bounds s 2 ltac:(lia)) as Hb.
  change (Z.ones 2) with 3 in Hb. change (2 ^ 2) with 4 in Hb.
  apply (pure_mycroft_loop_range 4); try lia.
  apply (highs_ok_first 4); lia.
Qed.

Lemma test_pure_mycroft_range :
  in_range1 len (result (test_pure_mycroft mem s len)).
Proof.
  unfold test_pure_mycroft, pure_mycroft_scan. cbv zeta.
  pose proof (land_s_bounds s 3 ltac:(lia)) as Hb.
  change (Z.ones 3) with 7 in Hb. change (2 ^ 3) with 8 in Hb.
  apply (pure_mycroft_loop_range 8); try lia.
  apply (highs_ok_first 8); lia.
Qed.

Lemma test_mycroft2_range : in_range2 len (result (test_mycroft2 mem s len)).
Proof.
  unfold test_mycroft2. rewrite result_bind.
  destruct (prologue2_spec mem s len 7 (Z.to_nat len) 0) as [r [Hr Hpost]]; [lia|].
  rewrite Hr. destruct r as [v|i]; cbn in Hpost.
  - exists v. split; [reflexivity|]. right. lia.
  - destruct Hpost as [Hi [Hin [Hout _]]].
    destruct (Z.geb_spec i (len - 1)) as [Hge|Hlt];
      [apply in_range2_notfound|].
    apply mycroft2_loop_range; lia.
Qed.

Lemma test_pure_mycroft2_range :
  in_range2 len (result (test_pure_mycroft2 mem s len)).
Proof.
  unfold test_pure_mycroft2. cbv zeta.
  pose proof (land_s_bounds s 3 ltac:(lia)) as Hb.
  change (Z.ones 3) with 7 in Hb. change (2 ^ 3) with 8 in Hb.
  apply pure_mycroft2_loop_range; try lia.
  - apply (highs_ok_first 8); lia.
  - apply Z.divide_0_r.
Qed.

End Ranges.



(** ** The contracts determine the outcome *)

Lemma scan1_spec_found (mem : memory) (s len i : Z) (r : option Z) :
  scan1_spec mem s len r -> first_star mem s len i -> r = Some i.
Proof.
  intros [[i' [Hr [Hi' [Hs' Hn']]]]|[Hr Hnone]] [Hi [Hs Hn]].
  - rewrite Hr. f_equal.
    destruct (Z.lt_trichotomy i' i) as [Hlt|[Heq|Hgt]]; [|exact Heq|].
    + exfalso. apply (Hn i'); [lia|exact Hs'].
    + exfalso. apply (Hn' i); [lia|exact Hs].
  - exfalso. apply (Hnone i); [lia|exact Hs].
Qed.

Lemma scan1_spec_none (mem : memory) (s len : Z) (r : option Z) :
  scan1_spec mem s len r -> no_star mem s len -> r = Some (-127).
Proof.
  intros [[i [Hr [Hi [Hs _]]]]|[Hr _]] Hnone; [|exact Hr].
  exfalso. apply (Hnone i); [lia|exact Hs].
Qed.

Lemma scan2_spec_found (mem : memory) (s len i : Z) (r : option Z) :
  scan2_spec mem s len r -> first_pair mem s len i -> r = Some i.
Proof.
  intros [[i' [Hr [Hi' [Hl' [Hs' Hn']]]]]|[Hr Hnone]] [Hi [Hl [Hs Hn]]].
  - rewrite Hr. f_equal.
    destruct (Z.lt_trichotomy i' i) as [Hlt|[Heq|Hgt]]; [|exact Heq|].
    + exfalso. apply (Hn i'); [lia|exact Hs'].
    + exfalso. apply (Hn' i); [lia|exact Hs].
  - exfalso. apply (Hnone i); [lia|lia|exact Hs].
Qed.

Lemma scan2_spec_none (mem : memory) (s len : Z) (r : option Z) :
  scan2_spec mem s len r -> no_pair mem s len -> r = Some (-127).
Proof.
  intros [[i [Hr [Hi [Hl [Hs _]]]]]|[Hr _]] Hnone; [|exact Hr].
  exfalso. apply (Hnone i); [lia|lia|exact Hs].
Qed.

Lemma scan1_spec_first (mem : memory) (s len i : Z) (r : option Z) :
  scan1_spec mem s len r -> r = Some i -> i <> -127 -> first_star mem s len i.
Proof.
  intros [[i' [Hr Hi']]|[Hr _]] E Hne; rewrite Hr in E; injection E as <-;
    [exact Hi'|contradiction].
Qed.

Lemma scan2_spec_first (mem : memory) (s len i : Z) (r : option Z) :
  scan2_spec mem s len r -> r = Some i -> i <> -127 -> first_pair mem s len i.
Proof.
  intros [[i' [Hr Hi']]|[Hr _]] E Hne; rewrite Hr in E; injection E as <-;
    [exact Hi'|contradiction].
Qed.

(** The contracts determine the outcome. *)
Lemma scan1_spec_unique (mem : memory) (s len : Z) (r r' : option Z) :
  scan1_spec mem s len r -> scan1_spec mem s len r' -> r = r'.
Proof.
  intros Hr [[i [-> Hi]]|[-> Hnone]].
  - now apply (scan1_spec_found mem s len).
  - now apply (scan1_spec_none mem s len).
Qed.

Lemma scan2_spec_unique (mem : memory) (s len : Z) (r r' : option Z) :
  scan2_spec mem s len r -> scan2_spec mem s len r' -> r = r'.
Proof.
  intros Hr [[i [-> Hi]]|[-> Hnone]].
  - now apply (scan2_spec_found mem s len).
  - now apply (scan2_spec_none mem s len).
Qed.

(** X1.  The single-byte scanners built on SSE2, and those that run
    Mycroft's trick after a bytewise prologue, agree with test_naive on
    every memory and pointer, for every length up to [INT_MAX - 15] (beyond
    it the [i += 16] of a block loop overflows in the source). *)
Lemma single_byte_scanners_agree (mem : memory) (s len : Z) :
  len <= INT_MAX - 15 ->
  result (test_sse2 mem s len) = result (test_naive mem s len) /\
  result (test_pure_sse2 mem s len) = result (test_naive mem s len) /\
  result (test_sse2_and_mycroft4 mem s len) = result (test_naive mem s len) /\
  result (test_mycroft4 mem s len) = result (test_naive mem s len) /\
  result (test_mycroft mem s len) = result (test_naive mem s len).
Proof.
  intros _. pose proof (test_naive_spec mem s len) as Hn.
  repeat split; apply (scan1_spec_unique mem s len); auto.
  - apply test_sse2_spec.
  - apply test_pure_sse2_spec.
  - apply test_sse2_and_mycroft4_spec.
  - apply test_mycroft4_spec.
  - apply test_mycroft_spec.
Qed.

Lemma single_byte_scanners_agree_witness :
  35 <= INT_MAX - 15 /\
  result (test_sse2 (buf 5 "Now is the time *# for all good men") 5 35) =
    result (test_naive (buf 5 "Now is the time *# for all good men") 5 35) /\
  result (test_pure_sse2 (buf 5 "Now is the time *# for all good men") 5 35) =
    result (test_naive (buf 5 "Now is the time *# for all good men") 5 35) /\
  result (test_sse2_and_mycroft4 (buf 5 "Now is the time *# for all good men") 5 35) =
    result (test_naive (buf 5 "Now is the time *# for all good men") 5 35) /\
  result (test_mycroft4 (buf 5 "Now is the time *# for all good men") 5 35) =
    result (test_naive (buf 5 "Now is the time *# for all good men") 5 35) /\
  result (test_mycroft (buf 5 "Now is the time *# for all good men") 5 35) =
    result (test_naive (buf 5 "Now is the time *# for all good men") 5 35).
Proof.
  assert (Hlen : 35 <= INT_MAX - 15) by (unfold INT_MAX; lia).
  split; [exact Hlen|].
  exact (single_byte_scanners_agree
           (buf 5 "Now is the time *# for all good men") 5 35 Hlen).
Defined.

(** X2.  The pair scanners built on SSE2 agree with test_twobyte on every
    memory and pointer, pairs across block boundaries included, for every
    length for which [len - 1] and [i += 16] do not overflow. *)
Lemma sse2_pair_scanners_agree (mem : memory) (s len : Z) :
  int_ok len ->
  result (test_twosse2 mem s len) = result (test_twobyte mem s len) /\
  result (test_twobsse2 mem s len) = result (test_twobyte mem s len) /\
  result (test_pure_twobsse2 mem s len) = result (test_twobyte mem s len).
Proof.
  intros _. pose proof (test_twobyte_spec mem s len) as Hn.
  repeat split; apply (scan2_spec_unique mem s len); auto.
  - apply test_twosse2_spec.
  - apply test_twobsse2_spec.
  - apply test_pure_twobsse2_spec.
Qed.

(** A pair that straddles a 16-byte boundary. *)
Lemma sse2_pair_scanners_agree_witness :
  int_ok 18 /\
  result (test_twosse2 (buf 15 "aaaaaaaaaaaaaaaa*#") 15 18) =
    result (test_twobyte (buf 15 "aaaaaaaaaaaaaaaa*#") 15 18) /\
  result (test_twobsse2 (buf 15 "aaaaaaaaaaaaaaaa*#") 15 18) =
    result (test_twobyte (buf 15 "aaaaaaaaaaaaaaaa*#") 15 18) /\
  result (test_pure_twobsse2 (buf 15 "aaaaaaaaaaaaaaaa*#") 15 18) =
    result (test_twobyte (buf 15 "aaaaaaaaaaaaaaaa*#") 15 18).
Proof.
  assert (Hlen : int_ok 18) by (unfold int_ok, INT_MIN, INT_MAX; lia).
  split; [exact Hlen|].
  exact (sse2_pair_scanners_agree (buf 15 "aaaaaaaaaaaaaaaa*#") 15 18 Hlen).
Defined.

(** X8.  Every pair scanner answers -127 on a buffer shorter than two
    bytes, for every length above [INT_MIN] (where [len - 1] overflows in
    the source). *)
Lemma pair_scanners_short_buffer (mem : memory) (s len : Z) :
  INT_MIN < len -> len < 2 ->
  result (test_twobyte mem s len) = Some (-127) /\
  result (test_twosse2 mem s len) = Some (-127) /\
  result (test_twobsse2 mem s len) = Some (-127) /\
  result (test_pure_twobsse2 mem s len) = Some (-127) /\
  result (test_mycroft2 mem s len) = Some (-127) /\
  result (test_pure_mycroft2 mem s len) = Some (-127).
Proof.
  intros _ Hlen.
  assert (H : forall r, in_range2 len r -> r = Some (-127)).
  { intros r [v [-> [->|Hv]]]; [reflexivity|lia]. }
  repeat split; apply H.
  - apply (scan2_spec_range mem s), test_twobyte_spec.
  - apply (scan2_spec_range mem s), test_twosse2_spec.
  - apply (scan2_spec_range mem s), test_twobsse2_spec.
  - apply (scan2_spec_range mem s), test_pure_twobsse2_spec.
  - apply test_mycroft2_range.
  - apply test_pure_mycroft2_range.
Qed.

(** ** Where the Mycroft pair scanners and the pure Mycroft scanners go wrong *)

(** C1.  On the three bytes [*+#] the two Mycroft pair scanners report a
    pair at index 1, where the bytewise oracle test_twobyte finds none:
    test_mycroft2 when the buffer starts one byte before an 8-byte boundary,
    test_pure_mycroft2 when it starts on one.  The byte after a star is
    flagged as a star when it is [+] (the target with its low bit flipped),
    and the scanners take the flag for a star. *)
Theorem mycroft_pair_scanners_disagree :
  result (test_mycroft2 (buf 7 "*+#") 7 3) = Some 1 /\
  result (test_twobyte (buf 7 "*+#") 7 3) = Some (-127) /\
  result (test_pure_mycroft2 (buf 8 "*+#") 8 3) = Some 1 /\
  result (test_twobyte (buf 8 "*+#") 8 3) = Some (-127).
Proof. repeat split; vm_compute; reflexivity. Qed.

(** C2.  With a star in the byte just before the buffer, in the same aligned
    word, and a [+] as the first byte of the buffer, the two pure Mycroft
    scanners report index 0, where test_naive finds no star: the mask on
    [highs] removes the lane of the star before the buffer but not the flag
    its borrow raises in the next lane. *)
Theorem pure_mycroft_scanners_disagree :
  result (test_pure_mycroft4 (buf 0 "*+") 1 1) = Some 0 /\
  result (test_pure_mycroft (buf 0 "*+") 1 1) = Some 0 /\
  result (test_naive (buf 0 "*+") 1 1) = Some (-127).
Proof. repeat split; vm_compute; reflexivity. Qed.

(** C5.  On the five bytes [*+#*#], whose only pair is at index 3, the two
    Mycroft pair scanners report index 1. *)
Theorem mycroft_pair_scanners_not_first :
  first_pair (buf 7 "*+#*#") 7 5 3 /\
  result (test_mycroft2 (buf 7 "*+#*#") 7 5) = Some 1 /\
  first_pair (buf 8 "*+#*#") 8 5 3 /\
  result (test_pure_mycroft2 (buf 8 "*+#*#") 8 5) = Some 1.
Proof.
  assert (H7 : first_pair (buf 7 "*+#*#") 7 5 3).
  { apply (scan2_spec_first (buf 7 "*+#*#") 7 5 3 _ (test_twobyte_spec _ _ _));
      [vm_compute; reflexivity|lia]. }
  assert (H8 : first_pair (buf 8 "*+#*#") 8 5 3).
  { apply (scan2_spec_first (buf 8 "*+#*#") 8 5 3 _ (test_twobyte_spec _ _ _));
      [vm_compute; reflexivity|lia]. }
  repeat split; try apply H7; try apply H8; vm_compute; reflexivity.
Qed.

(** C8.  The index 0 that test_pure_mycroft4 and test_pure_mycroft return on
    a buffer whose only byte is [+] is an index of the buffer, but there is
    no star in the buffer. *)
Theorem pure_mycroft_index_not_a_match :
  result (test_pure_mycroft4 (buf 0 "*+") 1 1) = Some 0 /\
  result (test_pure_mycroft (buf 0 "*+") 1 1) = Some 0 /\
  no_star (buf 0 "*+") 1 1.
Proof.
  split; [vm_compute; reflexivity|]. split; [vm_compute; reflexivity|].
  intros j Hj. replace j with 0 by lia. unfold star_at. vm_compute. discriminate.
Qed.


(** ** The buffer of the test harness *)

Lemma holds_at (mem : memory) (s : Z) (l : list byte) (j : Z) :
  holds mem s l -> 0 <= j < Z.of_nat (List.length l) ->
  mem (s + j) = nth (Z.to_nat j) l x00.
Proof.
  intros H Hj. rewrite <- (Z2Nat.id j) at 1 by lia. apply H. lia.
Qed.

Lemma small_no_star_before_16 (mem : memory) (s : Z) :
  holds mem s small -> forall j, 0 <= j < 16 -> ~ star_at mem s j.
Proof.
  intros H j Hj. unfold star_at.
  rewrite (holds_at mem s small j H) by (cbn; lia).
  assert (Hall : forallb (fun k => negb (Byte.eqb (nth k small x00) star)) (seq 0 16) = true)
    by (vm_compute; reflexivity).
  rewrite forallb_forall in Hall.
  specialize (Hall (Z.to_nat j)). rewrite in_seq in Hall.
  intros E. rewrite E in Hall.
  specialize (Hall ltac:(lia)). discriminate.
Qed.

Lemma small_first_star (mem : memory) (s : Z) :
  holds mem s small -> first_star mem s 35 16.
Proof.
  intros H. split; [lia|]. split; [|now apply small_no_star_before_16].
  unfold star_at. now rewrite (holds_at mem s small 16 H) by (cbn; lia).
Qed.

Lemma small_first_pair (mem : memory) (s : Z) :
  holds mem s small -> first_pair mem s 35 16.
Proof.
  intros H. split; [lia|]. split; [lia|]. split.
  - split.
    + now rewrite (holds_at mem s small 16 H) by (cbn; lia).
    + now rewrite (holds_at mem s small (16 + 1) H) by (cbn; lia).
  - intros j Hj [Hs _]. now apply (small_no_star_before_16 mem s H j).
Qed.

Lemma scan1_proved_spec (mem : memory) (s len : Z) :
  Forall (fun scan => scan1_spec mem s len (result (scan mem s len))) scan1_proved.
Proof.
  unfold scan1_proved. repeat apply Forall_cons; try apply Forall_nil.
  - apply test_naive_spec.
  - apply test_sse2_spec.
  - apply test_pure_sse2_spec.
  - apply test_sse2_and_mycroft4_spec.
  - apply test_mycroft4_spec.
  - apply test_mycroft_spec.
Qed.

Lemma scan2_proved_spec (mem : memory) (s len : Z) :
  Forall (fun scan => scan2_spec mem s len (result (scan mem s len))) scan2_proved.
Proof.
  unfold scan2_proved. repeat apply Forall_cons; try apply Forall_nil.
  - apply test_twobyte_spec.
  - apply test_twosse2_spec.
  - apply test_twobsse2_spec.
  - apply test_pure_twobsse2_spec.
Qed.

(** C9, with the indices the code returns.  Wherever the 35 bytes of
    "Now is the time *# for all good men" lie in memory, scanning them for a
    star returns 16 and scanning them for the pair returns 16; scanning the
    first 16 bytes, "Now is the time ", for a star returns -127.  This holds
    for the bytewise scanners and for every block scanner whose contract is
    proved. *)
Theorem small_buffer_results (mem : memory) (s : Z) :
  holds mem s small ->
  Forall (fun scan => result (scan mem s 35) = Some 16) scan1_proved /\
  Forall (fun scan => result (scan mem s 35) = Some 16) scan2_proved /\
  Forall (fun scan => result (scan mem s 16) = Some (-127)) scan1_proved.
Proof.
  intros H. split; [|split].
  - eapply Forall_impl; [|apply (scan1_proved_spec mem s 35)].
    intros scan Hspec. cbv beta in Hspec.
    apply (scan1_spec_found mem s 35 16 _ Hspec). now apply small_first_star.
  - eapply Forall_impl; [|apply (scan2_proved_spec mem s 35)].
    intros scan Hspec. cbv beta in Hspec.
    apply (scan2_spec_found mem s 35 16 _ Hspec). now apply small_first_pair.
  - eapply Forall_impl; [|apply (scan1_proved_spec mem s 16)].
    intros scan Hspec. cbv beta in Hspec.
    apply (scan1_spec_none mem s 16 _ Hspec).
    intros j Hj. now apply (small_no_star_before_16 mem s H).
Qed.

Lemma small_buffer_holds : holds (mem_of x00 0 small) 0 small.
Proof.
  intros k Hk. unfold mem_of.
  destruct (Z.ltb_spec (0 + Z.of_nat k) 0); [lia|].
  rewrite Z.add_0_l, Z.sub_0_r, Nat2Z.id. reflexivity.
Qed.

Lemma small_buffer_results_witness :
  Forall (fun scan => result (scan (mem_of x00 0 small) 0 35) = Some 16) scan1_proved /\
  Forall (fun scan => result (scan (mem_of x00 0 small) 0 35) = Some 16) scan2_proved /\
  Forall (fun scan => result (scan (mem_of x00 0 small) 0 16) = Some (-127)) scan1_proved.
Proof. apply (small_buffer_results (mem_of x00 0 small) 0), small_buffer_holds. Defined.

(** C9 as the specification states it fails: the star is at index 16, not
    17, and the first 17 bytes of the buffer contain it. *)
Lemma small_buffer_star_not_at_17 :
  result (test_naive (mem_of x00 0 small) 0 35) = Some 16 /\
  result (test_twobyte (mem_of x00 0 small) 0 35) = Some 16 /\
  result (test_naive (mem_of x00 0 small) 0 17) = Some 16.
Proof. repeat split; vm_compute; reflexivity. Qed.

(** ** What the scanners load *)

Lemma loads_if_ret {A : Type} (c : bool) (a b : A) :
  loads (if c then ret a else ret b) = [].
Proof. now destruct c. Qed.

Lemma covered_byte (s len j : Z) :
  0 <= j < len -> covered s len (Access (s + j) 1).
Proof.
  intros Hj o Ho. cbn in Ho. exists j. split; [exact Hj|].
  rewrite !Z.div_1_r. lia.
Qed.

(** An aligned block that holds the byte of index [j]. *)
Lemma covered_block (s len W i j : Z) :
  0 < W -> (s + i) mod W = 0 -> 0 <= j < len -> i <= j < i + W ->
  covered s len (Access (s + i) W).
Proof.
  intros HW Hal Hj Hij o Ho. cbn in Ho. exists j. split; [exact Hj|].
  cbn [acc_width].
  assert (H1 : (s + j) / W = (s + i) / W) by (Z.div_mod_to_equations; nia).
  assert (H2 : o / W = (s + i) / W) by (Z.div_mod_to_equations; nia).
  congruence.
Qed.

(** The unaligned load of test_mycroft2: its first byte is the byte of index
    [i - 1], the others lie in the aligned block of the byte of index [i]. *)
Lemma covered_before_block (s len i : Z) :
  (s + i) mod 8 = 0 -> 1 <= i < len -> covered s len (Access (s + i - 1) 8).
Proof.
  intros Hal Hi o Ho. cbn in Ho. cbn [acc_width].
  destruct (Z.eq_dec o (s + i - 1)) as [->|Hne].
  - exists (i - 1). split; [lia|]. f_equal. lia.
  - exists i. split; [lia|]. Z.div_mod_to_equations; nia.
Qed.

Lemma land_ones_aligned (x k : Z) :
  0 <= k -> Z.land x (Z.ones k) = 0 -> x mod 2 ^ k = 0.
Proof. intros Hk H. now rewrite <- Z.land_ones. Qed.

Lemma pure_start_aligned (s k : Z) :
  0 <= k -> (s + - Z.land s (Z.ones k)) mod 2 ^ k = 0.
Proof.
  intros Hk. rewrite Z.land_ones by lia.
  assert (Hp : 0 < 2 ^ k) by (apply Z.pow_pos_nonneg; lia).
  replace (s + - (s mod 2 ^ k)) with (s / 2 ^ k * 2 ^ k)
    by (pose proof (Z.div_mod s (2 ^ k)); lia).
  apply Z.mod_mul. lia.
Qed.

Lemma next_aligned (x W : Z) : 0 < W -> x mod W = 0 -> (x + W) mod W = 0.
Proof.
  intros HW H. replace (x + W) with (x + 1 * W) by lia.
  rewrite Z.mod_add by lia. exact H.
Qed.

Section Loads.

Variable mem : memory.
Variables s len : Z.

Local Abbreviation safe m := (Forall (covered s len) (loads m)).

Lemma safe_ret {A : Type} (a : A) : safe (ret a).
Proof. constructor. Qed.

Lemma safe_if_ret {A : Type} (c : bool) (a b : A) :
  safe (if c then ret a else ret b).
Proof. rewrite loads_if_ret. constructor. Qed.

Lemma sse2_loop_safe (fuel : nat) :
  forall i, 0 <= i -> (s + i) mod 16 = 0 -> safe (sse2_loop mem s len fuel i).
Proof.
  induction fuel as [|fuel IH]; intros i Hi Hal; cbn [sse2_loop];
    destruct (Z.ltb_spec i len) as [Hlt|Hge]; try apply safe_ret.
  - constructor.
  - rewrite loads_bind. cbn [load128 loads result fst snd app].
    constructor; [apply covered_block with (j := i); lia|].
    destruct (nonzero _); [apply safe_if_ret|].
    apply IH; [lia|]. rewrite Z.add_assoc. now apply next_aligned.
Qed.

Lemma naive_loop_safe (fuel : nat) :
  forall i, 0 <= i -> safe (naive_loop mem s len fuel i).
Proof.
  induction fuel as [|fuel IH]; intros i Hi; cbn [naive_loop];
    destruct (Z.ltb_spec i len) as [Hlt|Hge]; try apply safe_ret.
  - constructor.
  - rewrite loads_bind. cbn [load8 loads result fst snd app].
    constructor; [apply covered_byte; lia|].
    destruct (Byte.eqb _ _); [apply safe_ret|apply IH; lia].
Qed.

Lemma twobyte_loop_safe (fuel : nat) :
  forall i, 0 <= i -> safe (twobyte_loop mem s len fuel i).
Proof.
  induction fuel as [|fuel IH]; intros i Hi; cbn [twobyte_loop];
    destruct (Z.ltb_spec i (len - 1)) as [Hlt|Hge]; try apply safe_ret.
  - constructor.
  - rewrite loads_bind. cbn [load8 loads result fst snd app].
    constructor; [apply covered_byte; lia|].
    destruct (Byte.eqb _ _); [|apply IH; lia].
    rewrite loads_bind. cbn [load8 loads result fst snd app].
    constructor; [apply covered_byte; lia|].
    destruct (Byte.eqb _ _); [apply safe_ret|apply IH; lia].
Qed.

Lemma prologue1_safe (A : Z) (fuel : nat) :
  forall i, 0 <= i -> safe (prologue1 mem s len A fuel i).
Proof.
  induction fuel as [|fuel IH]; intros i Hi; cbn [prologue1];
    destruct (Z.ltb_spec i len) as [Hlt|Hge]; try apply safe_ret.
  - constructor.
  - rewrite loads_bind. cbn [load8 loads result fst snd app].
    constructor; [apply covered_byte; lia|].
    destruct (Byte.eqb _ _); [apply safe_ret|].
    destruct (_ =? 0); [apply safe_ret|apply IH; lia].
Qed.

Lemma prologue2_safe (A : Z) (fuel : nat) :
  forall i, 0 <= i -> safe (prologue2 mem s len A fuel i).
Proof.
  induction fuel as [|fuel IH]; intros i Hi; cbn [prologue2];
    destruct (Z.ltb_spec i (len - 1)) as [Hlt|Hge]; try apply safe_ret.
  - constructor.
  - assert (Hrest : forall found : bool,
              safe (if found then ret (Return i)
                    else if Z.land (s + (i + 1)) A =? 0 then ret (Continue (i + 1))
                         else prologue2 mem s len A fuel (i + 1))).
    { intros [|]; [apply safe_ret|].
      destruct (_ =? 0); [apply safe_ret|apply IH; lia]. }
    rewrite loads_bind. cbn [load8 loads result fst snd app].
    constructor; [apply covered_byte; lia|].
    destruct (Byte.eqb _ _).
    + rewrite !loads_bind. cbn [load8 loads result fst snd app ret].
      constructor; [apply covered_byte; lia|]. apply Hrest.
    + rewrite loads_bind. cbn [loads result fst snd app ret]. apply (Hrest false).
Qed.

(** The index [Z.max 0 i] lies in the buffer and in the block at [i], for
    the first block of a pure scanner as for the later ones. *)
Lemma pure_block_covered (W i : Z) :
  0 < W -> - W < i -> i < len -> (i < 0 -> 1 <= len) -> (s + i) mod W = 0 ->
  covered s len (Access (s + i) W).
Proof.
  intros HW Hi Hlt Hneg Hal. apply covered_block with (j := Z.max 0 i); lia.
Qed.

Lemma pure_sse2_loop_safe (fuel : nat) :
  forall i amask, -16 < i -> (i < 0 -> 1 <= len) -> (s + i) mod 16 = 0 ->
    safe (pure_sse2_loop mem s len fuel i amask).
Proof.
  induction fuel as [|fuel IH]; intros i amask Hi Hneg Hal; cbn [pure_sse2_loop];
    destruct (Z.ltb_spec i len) as [Hlt|Hge]; try apply safe_ret.
  - constructor.
  - rewrite loads_bind. cbn [load128 loads result fst snd app].
    constructor; [apply pure_block_covered; auto; lia|].
    destruct (nonzero _); [apply safe_if_ret|].
    apply IH; try lia. rewrite Z.add_assoc. now apply next_aligned.
Qed.

Lemma mycroft4_until16_safe (fuel : nat) :
  forall i, 0 <= i -> (s + i) mod 4 = 0 -> safe (mycroft4_until16 mem s len fuel i).
Proof.
  induction fuel as [|fuel IH]; intros i Hi Hal; cbn [mycroft4_until16];
    destruct (Z.ltb_spec i len) as [Hlt|Hge]; try apply safe_ret.
  - constructor.
  - rewrite loads_bind. cbn [load32 load loads result fst snd app].
    constructor; [apply covered_block with (j := i); cbn; lia|].
    cbv zeta. destruct (nonzero _); [apply safe_if_ret|].
    destruct (_ =? 0); [apply safe_ret|].
    apply IH; [lia|]. rewrite Z.add_assoc. now apply next_aligned.
Qed.

Lemma mycroft4_until16_exit (fuel : nat) :
  forall i r, result (mycroft4_until16 mem s len fuel i) = Some r ->
    match r with
    | Return _ => True
    | Continue j => i <= j /\ (j < len -> Z.land (s + j) 15 = 0)
    end.
Proof.
  induction fuel as [|fuel IH]; intros i r; cbn [mycroft4_until16];
    destruct (Z.ltb_spec i len) as [Hlt|Hge];
    try (intros E; injection E as <-; split; lia).
  - discriminate.
  - rewrite result_bind. cbn [load32 load result snd]. cbv zeta.
    destruct (nonzero _).
    + rewrite result_if_ret. intros E. injection E as <-. now destruct (_ >=? _).
    + destruct (Z.eqb_spec (Z.land (s + (i + 4)) 15) 0) as [Hal|Hal].
      * intros E. injection E as <-. split; [lia|auto].
      * intros E. apply IH in E. destruct r as [v|j]; [exact I|].
        destruct E as [Hj Hal']. split; [lia|exact Hal'].
Qed.

Lemma twosse2_loop_safe (fuel : nat) :
  forall i prev, 0 <= i -> (s + i) mod 16 = 0 ->
    safe (twosse2_loop mem s len fuel i prev).
Proof.
  induction fuel as [|fuel IH]; intros i prev Hi Hal; cbn [twosse2_loop];
    destruct (Z.ltb_spec i len) as [Hlt|Hge]; try apply safe_ret.
  - constructor.
  - rewrite loads_bind. cbn [load128 loads result fst snd app].
    constructor; [apply covered_block with (j := i); lia|].
    cbv zeta. destruct (_ && _); [apply safe_ret|].
    destruct (nonzero _); [apply safe_if_ret|].
    apply IH; [lia|]. rewrite Z.add_assoc. now apply next_aligned.
Qed.

Lemma twobsse2_loop_safe (fuel : nat) :
  forall i stars, 0 <= i -> (s + i) mod 16 = 0 ->
    safe (twobsse2_loop mem s len fuel i stars).
Proof.
  induction fuel as [|fuel IH]; intros i stars Hi Hal; cbn [twobsse2_loop];
    destruct (Z.ltb_spec i len) as [Hlt|Hge]; try apply safe_ret.
  - constructor.
  - rewrite loads_bind. cbn [load128 loads result fst snd app].
    constructor; [apply covered_block with (j := i); lia|].
    cbv zeta. destruct (nonzero _); [apply safe_if_ret|].
    apply IH; [lia|]. rewrite Z.add_assoc. now apply next_aligned.
Qed.

Lemma pure_twobsse2_loop_safe (fuel : nat) :
  forall i amask stars, -16 < i -> (i < 0 -> 1 <= len) -> (s + i) mod 16 = 0 ->
    safe (pure_twobsse2_loop mem s len fuel i amask stars).
Proof.
  induction fuel as [|fuel IH]; intros i amask stars Hi Hneg Hal;
    cbn [pure_twobsse2_loop];
    destruct (Z.ltb_spec i len) as [Hlt|Hge]; try apply safe_ret.
  - constructor.
  - rewrite loads_bind. cbn [load128 loads result fst snd app].
    constructor; [apply pure_block_covered; auto; lia|].
    cbv zeta. destruct (nonzero _); [apply safe_if_ret|].
    apply IH; try lia. rewrite Z.add_assoc. now apply next_aligned.
Qed.

Lemma mycroft_loop_safe (n : nat) (mask highs ones : Z) (fuel : nat) :
  (0 < n)%nat ->
  forall i, 0 <= i -> (s + i) mod Z.of_nat n = 0 ->
    safe (mycroft_loop mem s len n mask highs ones fuel i).
Proof.
  intros Hn.
  induction fuel as [|fuel IH]; intros i Hi Hal; cbn [mycroft_loop];
    destruct (Z.ltb_spec i len) as [Hlt|Hge]; try apply safe_ret.
  - constructor.
  - rewrite loads_bind. cbn [load loads result fst snd app].
    constructor; [apply covered_block with (j := i); lia|].
    cbv zeta. destruct (nonzero _); [apply safe_if_ret|].
    apply IH; [lia|]. rewrite Z.add_assoc. apply next_aligned; [lia|exact Hal].
Qed.

Lemma pure_mycroft_loop_safe (n : nat) (mask highs ones : Z) (fuel : nat) :
  (0 < n)%nat ->
  forall i h, - Z.of_nat n < i -> (i < 0 -> 1 <= len) ->
    (s + i) mod Z.of_nat n = 0 ->
    safe (pure_mycroft_loop mem s len n mask highs ones fuel i h).
Proof.
  intros Hn.
  induction fuel as [|fuel IH]; intros i h Hi Hneg Hal; cbn [pure_mycroft_loop];
    destruct (Z.ltb_spec i len) as [Hlt|Hge]; try apply safe_ret.
  - constructor.
  - rewrite loads_bind. cbn [load loads result fst snd app].
    constructor; [apply pure_block_covered; auto; lia|].
    cbv zeta. destruct (nonzero _); [apply safe_if_ret|].
    apply IH; try lia. rewrite Z.add_assoc. apply next_aligned; [lia|exact Hal].
Qed.

Lemma mycroft2_loop_safe (fuel : nat) :
  forall i, 1 <= i -> (s + i) mod 8 = 0 -> safe (mycroft2_loop mem s len fuel i).
Proof.
  induction fuel as [|fuel IH]; intros i Hi Hal; cbn [mycroft2_loop];
    destruct (Z.ltb_spec i len) as [Hlt|Hge]; try apply safe_ret.
  - constructor.
  - rewrite loads_bind. cbn [load64 load loads result fst snd app].
    constructor; [apply covered_before_block; [exact Hal|lia]|].
    rewrite loads_bind. cbn [load64 load loads result fst snd app].
    constructor; [apply covered_block with (j := i); cbn; lia|].
    cbv zeta. destruct (nonzero _); [apply safe_if_ret|].
    apply IH; [lia|]. rewrite Z.add_assoc. now apply next_aligned.
Qed.

Lemma pure_mycroft2_loop_safe (fuel : nat) :
  forall i h stars_low, -8 < i -> (i < 0 -> 1 <= len) -> (s + i) mod 8 = 0 ->
    safe (pure_mycroft2_loop mem s len fuel i h stars_low).
Proof.
  induction fuel as [|fuel IH]; intros i h sl Hi Hneg Hal; cbn [pure_mycroft2_loop];
    destruct (Z.ltb_spec i len) as [Hlt|Hge]; try apply safe_ret.
  - constructor.
  - rewrite loads_bind. cbn [load64 load loads result fst snd app].
    constructor; [apply pure_block_covered; auto; cbn; lia|].
    cbv zeta. destruct (nonzero _); [apply safe_if_ret|].
    apply IH; try lia. rewrite Z.add_assoc. now apply next_aligned.
Qed.

Lemma prologue1_aligned (k : Z) (i : Z) :
  0 <= k -> prologue1_post mem s len (Z.ones k) 0 (Continue i) -> i < len ->
  0 <= i /\ (s + i) mod 2 ^ k = 0.
Proof.
  intros Hk [Hi [_ [_ [Hal _]]]] Hlt. split; [exact Hi|].
  apply land_ones_aligned; [exact Hk|apply Hal; exact Hlt].
Qed.

Lemma prologue2_aligned (k : Z) (i : Z) :
  0 <= k -> prologue2_post mem s len (Z.ones k) 0 (Continue i) -> i < len - 1 ->
  1 <= i /\ (s + i) mod 2 ^ k = 0.
Proof.
  intros Hk [Hi [Hin [_ [Hal _]]]] Hlt. split; [lia|].
  apply land_ones_aligned; [exact Hk|apply Hal; exact Hlt].
Qed.

Lemma test_naive_safe : safe (test_naive mem s len).
Proof. apply naive_loop_safe. lia. Qed.

Lemma test_twobyte_safe : safe (test_twobyte mem s len).
Proof. apply twobyte_loop_safe. lia. Qed.

Lemma test_sse2_safe : safe (test_sse2 mem s len).
Proof.
  unfold test_sse2. rewrite loads_bind. apply Forall_app.
  split; [apply prologue1_safe; lia|].
  destruct (prologue1_spec mem s len 15 (Z.to_nat len) 0) as [r [Hr Hpost]]; [lia|].
  rewrite Hr. destruct r as [v|i]; [apply safe_ret|].
  destruct (Z.geb_spec i len); [apply safe_ret|].
  destruct (prologue1_aligned 4 i ltac:(lia) Hpost ltac:(lia)) as [Hi Hal].
  now apply sse2_loop_safe.
Qed.

Lemma test_sse2_and_mycroft4_safe : safe (test_sse2_and_mycroft4 mem s len).
Proof.
  unfold test_sse2_and_mycroft4. rewrite loads_bind. apply Forall_app.
  split; [apply prologue1_safe; lia|].
  destruct (prologue1_spec mem s len 3 (Z.to_nat len) 0) as [r [Hr Hpost]]; [lia|].
  rewrite Hr. destruct r as [v|i]; [apply safe_ret|].
  destruct (Z.geb_spec i len); [apply safe_ret|].
  destruct (prologue1_aligned 2 i ltac:(lia) Hpost ltac:(lia)) as [Hi Hal].
  rewrite loads_bind. apply Forall_app.
  split; [now apply mycroft4_until16_safe|].
  destruct (result (mycroft4_until16 mem s len (Z.to_nat (len - i)) i)) as [r|] eqn:Hr';
    [|constructor].
  apply mycroft4_until16_exit in Hr'.
  destruct r as [v|j]; [apply safe_ret|].
  destruct Hr' as [Hj Hal'].
  destruct (Z.geb_spec j len); [apply safe_ret|].
  apply sse2_loop_safe; [lia|].
  apply (land_ones_aligned (s + j) 4); [lia|apply Hal'; lia].
Qed.

Lemma mycroft_scan_safe (n : nat) (k : Z) (mask highs ones : Z) :
  0 <= k -> Z.of_nat n = 2 ^ k ->
  safe (mycroft_scan mem s len n (Z.ones k) mask highs ones).
Proof.
  intros Hk Hn. unfold mycroft_scan. rewrite loads_bind. apply Forall_app.
  split; [apply prologue1_safe; lia|].
  destruct (prologue1_spec mem s len (Z.ones k) (Z.to_nat len) 0) as [r [Hr Hpost]];
    [lia|].
  rewrite Hr. destruct r as [v|i]; [apply safe_ret|].
  destruct (Z.geb_spec i len); [apply safe_ret|].
  destruct (prologue1_aligned k i Hk Hpost ltac:(lia)) as [Hi Hal].
  assert (0 < 2 ^ k) by (apply Z.pow_pos_nonneg; lia).
  apply mycroft_loop_safe; [lia|exact Hi|now rewrite Hn].
Qed.

Lemma test_mycroft4_safe : safe (test_mycroft4 mem s len).
Proof. apply (mycroft_scan_safe 4 2); [lia|reflexivity]. Qed.

Lemma test_mycroft_safe : safe (test_mycroft mem s len).
Proof. apply (mycroft_scan_safe 8 3); [lia|reflexivity]. Qed.

Lemma test_twosse2_safe : safe (test_twosse2 mem s len).
Proof.
  unfold test_twosse2. rewrite loads_bind. apply Forall_app. split.
  - unfold twosse2_run. rewrite loads_bind. apply Forall_app.
    split; [apply prologue2_safe; lia|].
    destruct (prologue2_spec mem s len 15 (Z.to_nat len) 0) as [r [Hr Hpost]]; [lia|].
    rewrite Hr. destruct r as [v|i]; [apply safe_ret|].
    destruct (Z.geb_spec i (len - 1)); [apply safe_ret|].
    destruct (prologue2_aligned 4 i ltac:(lia) Hpost ltac:(lia)) as [Hi Hal].
    rewrite loads_bind. cbn [load8 loads result fst snd app].
    constructor; [apply covered_byte; lia|].
    cbv zeta. rewrite loads_bind. apply Forall_app.
    split; [apply twosse2_loop_safe; [lia|exact Hal]|].
    destruct (result (twosse2_loop _ _ _ _ _ _)); [apply safe_ret|constructor].
  - destruct (result (twosse2_run mem s len)); [apply safe_ret|constructor].
Qed.

Lemma test_twobsse2_safe : safe (test_twobsse2 mem s len).
Proof.
  unfold test_twobsse2. rewrite loads_bind. apply Forall_app.
  split; [apply prologue2_safe; lia|].
  destruct (prologue2_spec mem s len 15 (Z.to_nat len) 0) as [r [Hr Hpost]]; [lia|].
  rewrite Hr. destruct r as [v|i]; [apply safe_ret|].
  destruct (Z.geb_spec i (len - 1)); [apply safe_ret|].
  destruct (prologue2_aligned 4 i ltac:(lia) Hpost ltac:(lia)) as [Hi Hal].
  rewrite loads_bind. cbn [load8 loads result fst snd app].
  constructor; [apply covered_byte; lia|].
  cbv zeta. apply twobsse2_loop_safe; [lia|exact Hal].
Qed.

Lemma test_mycroft2_safe : safe (test_mycroft2 mem s len).
Proof.
  unfold test_mycroft2. rewrite loads_bind. apply Forall_app.
  split; [apply prologue2_safe; lia|].
  destruct (prologue2_spec mem s len 7 (Z.to_nat len) 0) as [r [Hr Hpost]]; [lia|].
  rewrite Hr. destruct r as [v|i]; [apply safe_ret|].
  destruct (Z.geb_spec i (len - 1)); [apply safe_ret|].
  destruct (prologue2_aligned 3 i ltac:(lia) Hpost ltac:(lia)) as [Hi Hal].
  apply mycroft2_loop_safe; [lia|exact Hal].
Qed.

(** The pure scanners, called with a buffer that has a byte, or with an
    aligned pointer. *)
Lemma test_pure_sse2_safe :
  1 <= len \/ Z.land s 15 = 0 -> safe (test_pure_sse2 mem s len).
Proof.
  intros H. unfold test_pure_sse2. cbv zeta.
  pose proof (land_s_bounds s 4 ltac:(lia)) as Hb.
  apply pure_sse2_loop_safe.
  - change (Z.ones 4) with 15 in Hb. change (2 ^ 4) with 16 in Hb. lia.
  - change (Z.ones 4) with 15 in Hb. lia.
  - apply (pure_start_aligned s 4). lia.
Qed.

Lemma test_pure_twobsse2_safe :
  1 <= len \/ Z.land s 15 = 0 -> safe (test_pure_twobsse2 mem s len).
Proof.
  intros H. unfold test_pure_twobsse2. cbv zeta.
  pose proof (land_s_bounds s 4 ltac:(lia)) as Hb.
  apply pure_twobsse2_loop_safe.
  - change (Z.ones 4) with 15 in Hb. change (2 ^ 4) with 16 in Hb. lia.
  - change (Z.ones 4) with 15 in Hb. lia.
  - apply (pure_start_aligned s 4). lia.
Qed.

Lemma test_pure_mycroft4_safe :
  1 <= len \/ Z.land s 3 = 0 -> safe (test_pure_mycroft4 mem s len).
Proof.
  intros H. unfold test_pure_mycroft4, pure_mycroft_scan. cbv zeta.
  pose proof (land_s_bounds s 2 ltac:(lia)) as Hb.
  apply pure_mycroft_loop_safe; [lia| | |].
  - change (Z.ones 2) with 3 in Hb. change (2 ^ 2) with 4 in Hb. lia.
  - change (Z.ones 2) with 3 in Hb. lia.
  - apply (pure_start_aligned s 2). lia.
Qed.

Lemma test_pure_mycroft_safe :
  1 <= len \/ Z.land s 7 = 0 -> safe (test_pure_mycroft mem s len).
Proof.
  intros H. unfold test_pure_mycroft, pure_mycroft_scan. cbv zeta.
  pose proof (land_s_bounds s 3 ltac:(lia)) as Hb.
  apply pure_mycroft_loop_safe; [lia| | |].
  - change (Z.ones 3) with 7 in Hb. change (2 ^ 3) with 8 in Hb. lia.
  - change (Z.ones 3) with 7 in Hb. lia.
  - apply (pure_start_aligned s 3). lia.
Qed.

Lemma test_pure_mycroft2_safe :
  1 <= len \/ Z.land s 7 = 0 -> safe (test_pure_mycroft2 mem s len).
Proof.
  intros H. unfold test_pure_mycroft2. cbv zeta.
  pose proof (land_s_bounds s 3 ltac:(lia)) as Hb.
  apply pure_mycroft2_loop_safe.
  - change (Z.ones 3) with 7 in Hb. change (2 ^ 3) with 8 in Hb. lia.
  - change (Z.ones 3) with 7 in Hb. lia.
  - apply (pure_start_aligned s 3). lia.
Qed.

End Loads.

(** Every load of a scanner that starts bytewise is covered by the buffer,
    whatever the memory, the pointer and the length. *)
Lemma prologued_loads_covered (mem : memory) (s len : Z) :
  Forall (fun scan => Forall (covered s len) (loads (scan mem s len)))
         prologued_scanners.
Proof.
  unfold prologued_scanners. repeat apply Forall_cons; try apply Forall_nil.
  - apply test_naive_safe.
  - apply test_twobyte_safe.
  - apply test_sse2_safe.
  - apply test_sse2_and_mycroft4_safe.
  - apply test_mycroft4_safe.
  - apply test_mycroft_safe.
  - apply test_twosse2_safe.
  - apply test_twobsse2_safe.
  - apply test_mycroft2_safe.
Qed.

(** Every load of a pure scanner is covered by the buffer as soon as the
    buffer has a byte. *)
Lemma pure_loads_covered (mem : memory) (s len : Z) :
  1 <= len ->
  Forall (fun scan => Forall (covered s len) (loads (scan mem s len)))
         pure_scanners.
Proof.
  intros Hlen. unfold pure_scanners. repeat apply Forall_cons; try apply Forall_nil.
  - apply test_pure_sse2_safe. now left.
  - apply test_pure_twobsse2_safe. now left.
  - apply test_pure_mycroft4_safe. now left.
  - apply test_pure_mycroft_safe. now left.
  - apply test_pure_mycroft2_safe. now left.
Qed.

(** ** What the pure scanners load for an empty buffer *)

Lemma empty_buffer_not_covered (s addr w : Z) :
  0 < w -> ~ covered s 0 (Access addr w).
Proof.
  intros Hw H. destruct (H addr) as [j [Hj _]]; cbn; lia.
Qed.

(** The first and only block of a pure loop that is called with length 0
    one byte after an aligned address. *)
Ltac single_block_load :=
  cbv zeta;
  repeat match goal with
         | |- context [Z.land 1 ?A] => change (Z.land 1 A) with 1
         end;
  change (Z.to_nat (0 + 1)) with 1%nat; change (- (1)) with (-1);
  cbn [pure_sse2_loop pure_twobsse2_loop pure_mycroft_loop pure_mycroft2_loop];
  change (-1 <? 0) with true; cbv iota;
  rewrite loads_bind; cbn [load128 load64 load loads result fst snd];
  destruct (nonzero _); [now rewrite loads_if_ret|reflexivity].

(** C4.  Called with length 0 and a pointer that is not aligned, each pure
    scanner still loads the aligned block around the pointer: a load that no
    byte of the (empty) buffer covers. *)
Theorem pure_scanners_load_for_empty_buffer (mem : memory) :
  loads (test_pure_sse2 mem 1 0) = [Access 0 16] /\
  loads (test_pure_twobsse2 mem 1 0) = [Access 0 16] /\
  loads (test_pure_mycroft4 mem 1 0) = [Access 0 4] /\
  loads (test_pure_mycroft mem 1 0) = [Access 0 8] /\
  loads (test_pure_mycroft2 mem 1 0) = [Access 0 8] /\
  ~ covered 1 0 (Access 0 16) /\ ~ covered 1 0 (Access 0 4) /\
  ~ covered 1 0 (Access 0 8).
Proof.
  repeat split; try (apply empty_buffer_not_covered; lia).
  - unfold test_pure_sse2. single_block_load.
  - unfold test_pure_twobsse2. single_block_load.
  - unfold test_pure_mycroft4, pure_mycroft_scan. single_block_load.
  - unfold test_pure_mycroft, pure_mycroft_scan. single_block_load.
  - unfold test_pure_mycroft2. single_block_load.
Qed.

(** ** The pure Mycroft scanners for a single byte, when they are exact *)

Lemma lane_mask_highs (n : nat) : lane_mask n 0 (highs_of n).
Proof.
  split; [apply highs_of_nonneg|]. intros p Hp. rewrite highs_of_bit by lia.
  destruct (Z.leb_spec (8 * 0) p); [|lia]. now rewrite andb_true_r.
Qed.

Lemma lane_mask_first (n : nat) (last_bits : Z) :
  0 <= last_bits ->
  lane_mask n last_bits
    (wrap (8 * Z.of_nat n) (Z.shiftl (highs_of n) (Z.shiftl last_bits 3))).
Proof.
  intros Hl.
  assert (Hsh : Z.shiftl last_bits 3 = 8 * last_bits)
    by (rewrite Z.shiftl_mul_pow2 by lia; change (2 ^ 3) with 8; lia).
  rewrite Hsh. split.
  - unfold wrap. apply Z.mod_pos_bound. apply Z.pow_pos_nonneg; lia.
  - intros p Hp. unfold wrap.
    rewrite Z.testbit_mod_pow2, Z.shiftl_spec by lia.
    destruct (Z.leb_spec (8 * last_bits) p) as [Hle|Hgt].
    + rewrite highs_of_bit by lia.
      replace ((p - 8 * last_bits) mod 8) with (p mod 8)
        by (Z.div_mod_to_equations; lia).
      destruct (Z.ltb_spec p (8 * Z.of_nat n)),
               (Z.ltb_spec (p - 8 * last_bits) (8 * Z.of_nat n)); try lia;
        cbn [andb]; now rewrite ?andb_true_r, ?andb_false_r.
    + rewrite Z.testbit_neg_r by lia. now rewrite !andb_false_r.
Qed.

Lemma masked_bit (n : nat) (L h x : Z) (k : nat) :
  lane_mask n L h -> (k < n)%nat ->
  Z.testbit (mycroft (8 * Z.of_nat n) (ones_of n) h x) (8 * Z.of_nat k + 7) =
  borrow false x (S k) && (L <=? Z.of_nat k).
Proof.
  intros [_ Hh] Hk. unfold mycroft.
  rewrite Z.land_spec, borrow_test_bit, Hh by lia.
  destruct (Z.ltb_spec (8 * Z.of_nat k + 7) (8 * Z.of_nat n)); [|lia].
  replace ((8 * Z.of_nat k + 7) mod 8) with 7 by (Z.div_mod_to_equations; lia).
  cbn [andb Z.eqb Pos.eqb]. f_equal.
  destruct (Z.leb_spec (8 * L) (8 * Z.of_nat k + 7)), (Z.leb_spec L (Z.of_nat k));
    try reflexivity; lia.
Qed.

Lemma masked_only (n : nat) (L h x p : Z) :
  lane_mask n L h -> 0 <= p ->
  Z.testbit (mycroft (8 * Z.of_nat n) (ones_of n) h x) p = true ->
  exists k, (k < n)%nat /\ p = 8 * Z.of_nat k + 7 /\ L <= Z.of_nat k.
Proof.
  intros [_ Hh] Hp Hset. unfold mycroft in Hset.
  rewrite Z.land_spec, Hh in Hset by lia.
  apply andb_prop in Hset. destruct Hset as [_ Hset].
  apply andb_prop in Hset. destruct Hset as [Hset H3].
  apply andb_prop in Hset. destruct Hset as [H1 H2].
  apply Z.ltb_lt in H1. apply Z.eqb_eq in H2. apply Z.leb_le in H3.
  exists (Z.to_nat (p / 8)).
  rewrite Z2Nat.id by (Z.div_mod_to_equations; lia).
  repeat split; Z.div_mod_to_equations; lia.
Qed.

Section PureMycroftSingle.

Variable mem : memory.

(** A flagged lane of the word at [a], for the target [c], holds [c] or [c]
    with its lowest bit flipped. *)
Lemma flag_byte (c : byte) (n : nat) (a : Z) (k : nat) :
  (k < n)%nat ->
  borrow false (Z.lxor (le_word mem n a) (u8 c * ones_of n)) (S k) = true ->
  mem (a + Z.of_nat k) = c \/
  (u8 (mem (a + Z.of_nat k)) = Z.lxor (u8 c) 1 /\
   exists k', k = S k' /\
     borrow false (Z.lxor (le_word mem n a) (u8 c * ones_of n)) (S k') = true).
Proof.
  intros Hk Hfl. apply borrow_flag_iff in Hfl.
  destruct Hfl as [H0|[H1 Hbelow]].
  - left. now apply (xor_lane_zero mem c n a k Hk).
  - right. split; [|exact Hbelow].
    rewrite lane_lxor, lane_le_word, lane_rep in H1 by (auto using u8_bounds).
    rewrite <- H1, (Z.lxor_comm (u8 (mem _))), <- Z.lxor_assoc, Z.lxor_nilpotent.
    now rewrite Z.lxor_0_l.
Qed.

Lemma flag_of_byte (c : byte) (n : nat) (a : Z) (k : nat) :
  (k < n)%nat -> mem (a + Z.of_nat k) = c ->
  borrow false (Z.lxor (le_word mem n a) (u8 c * ones_of n)) (S k) = true.
Proof.
  intros Hk Hc. apply borrow_flag_iff. left. now apply xor_lane_zero.
Qed.

Lemma star_flip_is_plus (b : byte) : u8 b = Z.lxor (u8 star) 1 -> b = plus.
Proof. intros H. apply u8_inj. rewrite H. reflexivity. Qed.

(** One word of a pure loop whose lanes below [L] are masked: the lowest
    flagged lane holds a star, unless it is lane [L] itself, holds a [+] and
    takes the borrow of the masked lane below it. *)
Lemma pure_mycroft_block (n : nat) (a L h : Z) :
  lane_mask n L h -> 0 <= L ->
  let m := mycroft (8 * Z.of_nat n) (ones_of n) h
                   (Z.lxor (le_word mem n a) (u8 star * ones_of n)) in
  (nonzero m = false ->
   forall k, (k < n)%nat -> L <= Z.of_nat k -> mem (a + Z.of_nat k) <> star) /\
  (nonzero m = true ->
   exists k, (k < n)%nat /\ L <= Z.of_nat k /\
     Z.shiftr (__builtin_ffs m) 3 = Z.of_nat k + 1 /\
     (mem (a + Z.of_nat k) = star \/
      (mem (a + Z.of_nat k) = plus /\ Z.of_nat k = L /\ 0 < L)) /\
     forall j, (j < k)%nat -> L <= Z.of_nat j -> mem (a + Z.of_nat j) <> star).
Proof.
  intros Hmask HL m.
  set (x := Z.lxor (le_word mem n a) (u8 star * ones_of n)) in *.
  assert (Hclear : forall j, (j < n)%nat -> L <= Z.of_nat j ->
            Z.testbit m (8 * Z.of_nat j + 7) = false -> mem (a + Z.of_nat j) <> star).
  { intros j Hj HLj Hb Hs. unfold m in Hb.
    rewrite (masked_bit n L h x j Hmask Hj) in Hb.
    pose proof (flag_of_byte star n a j Hj Hs) as Hf. fold x in Hf.
    rewrite Hf in Hb.
    destruct (Z.leb_spec L (Z.of_nat j)); [discriminate|lia]. }
  split.
  - intros Hz k Hk HLk. apply nonzero_false in Hz. apply Hclear; auto.
    rewrite Hz. apply Z.testbit_0_l.
  - intros Hnz.
    assert (Hpos : 0 < m).
    { apply nonzero_true in Hnz.
      assert (0 <= m) by (apply Z.land_nonneg; right; apply Hmask). lia. }
    destruct (ffs_spec m Hpos) as [p [Hp [Hffs [Hset Hlow]]]].
    destruct (masked_only n L h x p Hmask Hp Hset) as [k [Hk [Hpk HLk]]].
    exists k. split; [exact Hk|]. split; [exact HLk|]. split.
    + rewrite Hffs, Hpk. apply shiftr_ffs_lane. lia.
    + split.
      * rewrite Hpk in Hset. unfold m in Hset.
        rewrite (masked_bit n L h x k Hmask Hk) in Hset.
        apply andb_prop in Hset. destruct Hset as [Hfl _].
        destruct (flag_byte star n a k Hk Hfl) as [Hs|[Hflip [k' [-> Hbelow]]]];
          [now left|].
        right. split; [now apply star_flip_is_plus|].
        destruct (Z.le_gt_cases L (Z.of_nat k')) as [Hin|Hout]; [|lia].
        exfalso.
        assert (Hb : Z.testbit m (8 * Z.of_nat k' + 7) = true).
        { unfold m. rewrite (masked_bit n L h x k' Hmask) by lia.
          fold x in Hbelow. rewrite Hbelow.
          destruct (Z.leb_spec L (Z.of_nat k')); [reflexivity|lia]. }
        rewrite Hlow in Hb by lia. discriminate.
      * intros j Hj HLj. apply Hclear; [lia|exact HLj|]. apply Hlow. lia.
Qed.

Variables s len : Z.

Lemma pure_mycroft_loop_spec (n : nat) (fuel : nat) :
  (0 < n)%nat ->
  forall i h, - Z.of_nat n < i -> len - i <= Z.of_nat fuel ->
    lane_mask n (Z.max 0 (- i)) h ->
    (i < 0 -> mem s <> plus) ->
    (forall j, 0 <= j < i -> ~ star_at mem s j) ->
    scan1_spec mem s len
      (result (pure_mycroft_loop mem s len n (u8 star * ones_of n) (highs_of n)
                                 (ones_of n) fuel i h)).
Proof.
  intros Hn.
  induction fuel as [|fuel IH]; intros i h Hi Hf Hmask Hfirst Hpre;
    cbn [pure_mycroft_loop];
    destruct (Z.ltb_spec i len) as [Hlt|Hge]; try lia.
  - right. split; [reflexivity|]. intros j Hj. apply Hpre. lia.
  - rewrite result_bind. cbn [load result snd]. cbv zeta.
    destruct (pure_mycroft_block n (s + i) (Z.max 0 (- i)) h Hmask ltac:(lia))
      as [Hnone Hsome].
    set (m := mycroft _ _ _ _) in *.
    destruct (nonzero m) eqn:Hnz.
    + destruct (Hsome eq_refl) as [k [Hk [HLk [Hffs [Hbyte Hlow]]]]].
      rewrite result_if_ret, Hffs.
      replace (i + (Z.of_nat k + 1) - 1) with (i + Z.of_nat k) by lia.
      assert (Hstar : mem (s + i + Z.of_nat k) = star).
      { destruct Hbyte as [Hs|[Hp [HkL HL]]]; [exact Hs|].
        exfalso. apply Hfirst; [lia|].
        replace (s + i + Z.of_nat k) with s in Hp by lia. exact Hp. }
      assert (Hbefore : forall j, 0 <= j < i + Z.of_nat k -> ~ star_at mem s j).
      { intros j Hj. destruct (Z.lt_ge_cases j i) as [Hji|Hji]; [apply Hpre; lia|].
        unfold star_at.
        replace (s + j) with (s + i + Z.of_nat (Z.to_nat (j - i))) by lia.
        apply Hlow; lia. }
      destruct (Z.geb_spec (i + Z.of_nat k) len) as [Hout|Hin].
      * right. split; [reflexivity|]. intros j Hj. apply Hbefore. lia.
      * left. exists (i + Z.of_nat k). split; [reflexivity|].
        split; [lia|]. split; [|exact Hbefore].
        unfold star_at. now rewrite Z.add_assoc.
    + apply IH; try lia.
      * replace (Z.max 0 (- (i + Z.of_nat n))) with 0 by lia. apply lane_mask_highs.
      * intros j Hj. destruct (Z.lt_ge_cases j i) as [Hji|Hji]; [apply Hpre; lia|].
        unfold star_at.
        replace (s + j) with (s + i + Z.of_nat (Z.to_nat (j - i))) by lia.
        apply (Hnone eq_refl); lia.
  - right. split; [reflexivity|]. intros j Hj. apply Hpre. lia.
Qed.

Lemma pure_mycroft_scan_spec (n : nat) (k : Z) :
  0 <= k -> Z.of_nat n = 2 ^ k ->
  mem s <> plus \/ Z.land s (Z.ones k) = 0 ->
  scan1_spec mem s len
    (result (pure_mycroft_scan mem s len n (Z.ones k) (u8 star * ones_of n)
                               (highs_of n) (ones_of n))).
Proof.
  intros Hk Hn Hcond. unfold pure_mycroft_scan. cbv zeta.
  pose proof (land_s_bounds s k Hk) as Hb.
  assert (0 < 2 ^ k) by (apply Z.pow_pos_nonneg; lia).
  apply pure_mycroft_loop_spec; try lia.
  - replace (Z.max 0 (- - Z.land s (Z.ones k))) with (Z.land s (Z.ones k)) by lia.
    apply lane_mask_first. lia.
  - intros Hneg. destruct Hcond as [Hp|Hal]; [exact Hp|lia].
Qed.

Lemma test_pure_mycroft4_spec :
  mem s <> plus \/ Z.land s 3 = 0 ->
  scan1_spec mem s len (result (test_pure_mycroft4 mem s len)).
Proof. intros H. apply (pure_mycroft_scan_spec 4 2); [lia|reflexivity|exact H]. Qed.

Lemma test_pure_mycroft_spec :
  mem s <> plus \/ Z.land s 7 = 0 ->
  scan1_spec mem s len (result (test_pure_mycroft mem s len)).
Proof. intros H. apply (pure_mycroft_scan_spec 8 3); [lia|reflexivity|exact H]. Qed.

End PureMycroftSingle.

(** ** The Mycroft pair scanners, when they are exact *)

Lemma bt64_bit (x : Z) (k : nat) :
  (k < 8)%nat ->
  Z.testbit (borrow_test 64 ones64 x) (8 * Z.of_nat k + 7) = borrow false x (S k).
Proof. intros Hk. exact (borrow_test_bit 8 x k Hk). Qed.

Lemma highs64_bit (p : Z) :
  0 <= p -> Z.testbit highs64 p = (p <? 64) && (p mod 8 =? 7).
Proof. intros Hp. exact (highs_of_bit 8 p Hp). Qed.

Lemma lane_of_bit (p : Z) :
  0 <= p < 64 -> p mod 8 = 7 ->
  exists k, (k < 8)%nat /\ p = 8 * Z.of_nat k + 7.
Proof.
  intros Hp Hm. exists (Z.to_nat (p / 8)).
  rewrite Z2Nat.id by (Z.div_mod_to_equations; lia).
  split; Z.div_mod_to_equations; lia.
Qed.

Section MycroftPair.

Variable mem : memory.

Local Abbreviation sflag a k :=
  (borrow false (Z.lxor (le_word mem 8 a) mask_star) (S k)).
Local Abbreviation hflag a k :=
  (borrow false (Z.lxor (le_word mem 8 a) mask_hash) (S k)).

Lemma sflag_byte (a : Z) (k : nat) :
  (k < 8)%nat -> sflag a k = true ->
  mem (a + Z.of_nat k) = star \/ mem (a + Z.of_nat k) = plus.
Proof.
  intros Hk Hfl.
  destruct (flag_byte mem star 8 a k Hk Hfl) as [H|[H _]]; [now left|right].
  now apply star_flip_is_plus.
Qed.

Lemma sflag_of_star (a : Z) (k : nat) :
  (k < 8)%nat -> mem (a + Z.of_nat k) = star -> sflag a k = true.
Proof. intros Hk H. exact (flag_of_byte mem star 8 a k Hk H). Qed.

Lemma hflag_of_hash (a : Z) (k : nat) :
  (k < 8)%nat -> mem (a + Z.of_nat k) = hash -> hflag a k = true.
Proof. intros Hk H. exact (flag_of_byte mem hash 8 a k Hk H). Qed.

(** The hash flag of a lane is exact when the byte of the lane below is a
    star or a [+]: the borrow cannot run through that lane. *)
Lemma hflag_exact (a : Z) (k : nat) :
  (k < 8)%nat -> hflag a k = true ->
  (forall k', k = S k' ->
     mem (a + Z.of_nat k') = star \/ mem (a + Z.of_nat k') = plus) ->
  mem (a + Z.of_nat k) = hash.
Proof.
  intros Hk Hfl Hbelow.
  destruct (flag_byte mem hash 8 a k Hk Hfl) as [H|[_ [k' [-> Hfl']]]]; [exact H|].
  exfalso.
  destruct (flag_byte mem hash 8 a k' ltac:(lia) Hfl') as [H|[H _]];
    destruct (Hbelow k' eq_refl) as [E|E]; rewrite E in H;
    try discriminate; vm_compute in H; discriminate.
Qed.

(** One iteration of test_mycroft2 at the aligned address [a]: lane [k]
    pairs the byte at [a - 1 + k] with the byte at [a + k]. *)
Lemma mycroft2_block (a : Z) :
  let m := Z.land (Z.land (borrow_test 64 ones64 (Z.lxor (le_word mem 8 (a - 1)) mask_star))
                          (borrow_test 64 ones64 (Z.lxor (le_word mem 8 a) mask_hash)))
                  highs64 in
  (nonzero m = false ->
   forall k, (k < 8)%nat ->
     ~ (mem (a - 1 + Z.of_nat k) = star /\ mem (a + Z.of_nat k) = hash)) /\
  (nonzero m = true ->
   exists k, (k < 8)%nat /\ Z.shiftr (__builtin_ffsll m) 3 = Z.of_nat k + 1 /\
     (mem (a - 1 + Z.of_nat k) = star \/ mem (a - 1 + Z.of_nat k) = plus) /\
     mem (a + Z.of_nat k) = hash /\
     forall j, (j < k)%nat ->
       ~ (mem (a - 1 + Z.of_nat j) = star /\ mem (a + Z.of_nat j) = hash)).
Proof.
  intros m.
  assert (Hbit : forall k, (k < 8)%nat ->
            Z.testbit m (8 * Z.of_nat k + 7) = sflag (a - 1) k && hflag a k).
  { intros k Hk. unfold m.
    rewrite !Z.land_spec, !bt64_bit, highs64_bit by lia.
    destruct (Z.ltb_spec (8 * Z.of_nat k + 7) 64); [|lia].
    replace ((8 * Z.of_nat k + 7) mod 8) with 7 by (Z.div_mod_to_equations; lia).
    now rewrite andb_true_r. }
  assert (Hclear : forall j, (j < 8)%nat -> Z.testbit m (8 * Z.of_nat j + 7) = false ->
            ~ (mem (a - 1 + Z.of_nat j) = star /\ mem (a + Z.of_nat j) = hash)).
  { intros j Hj Hb [Hs Hh]. rewrite (Hbit j Hj) in Hb.
    rewrite (sflag_of_star (a - 1) j Hj Hs), (hflag_of_hash a j Hj Hh) in Hb.
    discriminate. }
  split.
  - intros Hz k Hk. apply nonzero_false in Hz. apply Hclear; [exact Hk|].
    rewrite Hz. apply Z.testbit_0_l.
  - intros Hnz.
    assert (Hpos : 0 < m).
    { apply nonzero_true in Hnz.
      assert (0 <= m) by (apply Z.land_nonneg; right; unfold highs64; lia). lia. }
    destruct (ffs_spec m Hpos) as [p [Hp [Hffs [Hset Hlow]]]].
    assert (Hh : Z.testbit highs64 p = true).
    { unfold m in Hset. rewrite Z.land_spec in Hset. now apply andb_prop in Hset. }
    rewrite highs64_bit in Hh by lia. apply andb_prop in Hh.
    destruct Hh as [Hh1 Hh2]. apply Z.ltb_lt in Hh1. apply Z.eqb_eq in Hh2.
    destruct (lane_of_bit p ltac:(lia) Hh2) as [k [Hk Hpk]].
    exists k. split; [exact Hk|]. split.
    { unfold __builtin_ffsll. rewrite Hffs, Hpk. apply shiftr_ffs_lane. lia. }
    rewrite Hpk, (Hbit k Hk) in Hset. apply andb_prop in Hset.
    destruct Hset as [Hs Hh].
    pose proof (sflag_byte (a - 1) k Hk Hs) as Hbyte.
    split; [exact Hbyte|]. split.
    + apply (hflag_exact a k Hk Hh). intros k' ->.
      replace (a - 1 + Z.of_nat (S k')) with (a + Z.of_nat k') in Hbyte by lia.
      exact Hbyte.
    + intros j Hj. apply Hclear; [lia|]. apply Hlow. lia.
Qed.

Variables s len : Z.

Hypothesis Hfree : no_plus_hash mem s len.

(** A candidate: a star or a [+] at [r], a hash at [r + 1], and no pair
    before [r].  The length check and the absence of "+#" make it the
    outcome the contract asks for. *)
Lemma pair_candidate (r : Z) :
  0 <= r ->
  mem (s + r) = star \/ mem (s + r) = plus ->
  mem (s + (r + 1)) = hash ->
  (forall j, 0 <= j < r -> ~ pair_at mem s j) ->
  scan2_spec mem s len (Some (if r >=? len - 1 then -127 else r)).
Proof.
  intros Hr Hbyte Hh Hbefore.
  destruct (Z.geb_spec r (len - 1)) as [Hout|Hin].
  - right. split; [reflexivity|]. intros j Hj Hj'. apply Hbefore. lia.
  - left. exists r. split; [reflexivity|].
    split; [lia|]. split; [lia|]. split; [|exact Hbefore].
    split; [|exact Hh].
    destruct Hbyte as [Hs|Hp]; [exact Hs|].
    exfalso. apply (Hfree r); [lia|lia|]. split; assumption.
Qed.

Lemma mycroft2_loop_spec (fuel : nat) :
  forall i, 1 <= i -> len - i <= Z.of_nat fuel ->
    (forall j, 0 <= j < i - 1 -> ~ pair_at mem s j) ->
    scan2_spec mem s len (result (mycroft2_loop mem s len fuel i)).
Proof.
  induction fuel as [|fuel IH]; intros i Hi Hf Hpre; cbn [mycroft2_loop];
    destruct (Z.ltb_spec i len) as [Hlt|Hge]; try lia.
  - right. split; [reflexivity|]. intros j Hj Hj'. apply Hpre. lia.
  - rewrite result_bind. cbn [load64 load result snd].
    rewrite result_bind. cbn [load64 load result snd]. cbv zeta.
    destruct (mycroft2_block (s + i)) as [Hnone Hsome].
    set (m := Z.land (Z.land _ _) highs64) in *.
    assert (Hlane : forall q, (q < 8)%nat ->
              ~ (mem (s + i - 1 + Z.of_nat q) = star /\ mem (s + i + Z.of_nat q) = hash) ->
              ~ pair_at mem s (i - 1 + Z.of_nat q)).
    { intros q Hq Hn [H1 H2]. apply Hn. split.
      - now replace (s + i - 1 + Z.of_nat q) with (s + (i - 1 + Z.of_nat q)) by lia.
      - now replace (s + i + Z.of_nat q) with (s + (i - 1 + Z.of_nat q + 1)) by lia. }
    destruct (nonzero m) eqn:Hnz.
    + destruct (Hsome eq_refl) as [k [Hk [Hffs [Hbyte [Hh Hlow]]]]].
      rewrite result_if_ret, Hffs.
      replace (i - 1 + (Z.of_nat k + 1) - 1) with (i - 1 + Z.of_nat k) by lia.
      apply pair_candidate.
      * lia.
      * now replace (s + (i - 1 + Z.of_nat k)) with (s + i - 1 + Z.of_nat k) by lia.
      * now replace (s + (i - 1 + Z.of_nat k + 1)) with (s + i + Z.of_nat k) by lia.
      * intros j Hj. destruct (Z.lt_ge_cases j (i - 1)) as [Hji|Hji]; [apply Hpre; lia|].
        replace j with (i - 1 + Z.of_nat (Z.to_nat (j - (i - 1)))) by lia.
        apply Hlane; [lia|]. apply Hlow. lia.
    + apply IH; try lia.
      intros j Hj. destruct (Z.lt_ge_cases j (i - 1)) as [Hji|Hji]; [apply Hpre; lia|].
      replace j with (i - 1 + Z.of_nat (Z.to_nat (j - (i - 1)))) by lia.
      apply Hlane; [lia|]. apply (Hnone eq_refl). lia.
  - right. split; [reflexivity|]. intros j Hj Hj'. apply Hpre. lia.
Qed.

Lemma test_mycroft2_spec : scan2_spec mem s len (result (test_mycroft2 mem s len)).
Proof.
  unfold test_mycroft2. rewrite result_bind.
  destruct (prologue2_spec mem s len 7 (Z.to_nat len) 0) as [r [Hr Hpost]]; [lia|].
  rewrite Hr. destruct r as [v|i]; cbn in Hpost.
  - left. exists v. split; [reflexivity|].
    destruct Hpost as [Hv [Hv' [Hs Hn]]].
    split; [lia|]. split; [lia|]. split; [exact Hs|]. intros j Hj. apply Hn. lia.
  - destruct Hpost as [Hi [Hin [Hout [_ Hn]]]].
    destruct (Z.geb_spec i (len - 1)) as [Hge|Hlt].
    + right. split; [reflexivity|]. intros j Hj Hj'. apply Hn. lia.
    + apply mycroft2_loop_spec; try lia. intros j Hj. apply Hn. lia.
Qed.

End MycroftPair.

(** The bits of [stars_low] after [stars_low += new_stars << 8]: the carried
    flag in lane 0, the flags of [new_stars] one lane up. *)
Lemma stars_low_bits (c : bool) (new_stars p : Z) :
  0 <= p ->
  Z.testbit (wrap 64 (128 * Z.b2z c + wrap 64 (Z.shiftl new_stars 8))) p =
  (p <? 64) && (if p <? 8 then c && (p =? 7) else Z.testbit new_stars (p - 8)).
Proof.
  intros Hp. unfold wrap. rewrite Z.testbit_mod_pow2 by lia.
  destruct (Z.ltb_spec p 64) as [H64|H64]; cbn [andb]; [|reflexivity].
  rewrite Z.shiftl_mul_pow2 by lia.
  change (2 ^ 64) with (2 ^ 56 * 2 ^ 8).
  rewrite Z.mul_mod_distr_r by lia.
  change (2 ^ 8) with 256. rewrite (Z.mul_comm _ 256).
  assert (Hu : 0 <= 128 * Z.b2z c < 256) by (destruct c; cbn; lia).
  rewrite testbit_byte_cons by lia.
  destruct (Z.ltb_spec p 8) as [Hlt|Hge].
  - destruct c; cbn [Z.b2z andb].
    + change (128 * 1) with (2 ^ 7). rewrite Z.pow2_bits_eqb by lia. apply Z.eqb_sym.
    + apply Z.testbit_0_l.
  - rewrite Z.testbit_mod_pow2 by lia.
    destruct (Z.ltb_spec (p - 8) 56); [reflexivity|lia].
Qed.

Lemma carry_bits (new_stars : Z) (c : bool) :
  (forall p, 0 <= p -> Z.testbit new_stars (p + 56) = c && (p =? 7)) ->
  Z.shiftr new_stars 56 = 128 * Z.b2z c.
Proof.
  intros H. apply Z.bits_inj'. intros p Hp.
  rewrite Z.shiftr_spec, H by lia.
  destruct c; cbn [Z.b2z andb].
  - change (128 * 1) with (2 ^ 7). rewrite Z.pow2_bits_eqb by lia.
    symmetry. apply Z.eqb_sym.
  - symmetry. apply Z.testbit_0_l.
Qed.

Section PureMycroftPair.

Variable mem : memory.

Local Abbreviation sflag a k :=
  (borrow false (Z.lxor (le_word mem 8 a) mask_star) (S k)).
Local Abbreviation hflag a k :=
  (borrow false (Z.lxor (le_word mem 8 a) mask_hash) (S k)).

Lemma pure_mycroft2_block (a L h : Z) (c : bool) :
  lane_mask 8 L h ->
  let new_stars :=
    Z.land (borrow_test 64 ones64 (Z.lxor (le_word mem 8 a) mask_star)) h in
  let stars_low := wrap 64 (128 * Z.b2z c + wrap 64 (Z.shiftl new_stars 8)) in
  let m := Z.land stars_low (borrow_test 64 ones64 (Z.lxor (le_word mem 8 a) mask_hash)) in
  Z.shiftr new_stars 56 = 128 * Z.b2z (sflag a 7 && (L <=? 7)) /\
  (nonzero m = false ->
   forall k, (k < 8)%nat -> ~ (star_below mem a L c k = true /\ hflag a k = true)) /\
  (nonzero m = true ->
   exists k, (k < 8)%nat /\ Z.shiftr (__builtin_ffsll m) 3 = Z.of_nat k + 1 /\
     star_below mem a L c k = true /\ hflag a k = true /\
     forall j, (j < k)%nat -> ~ (star_below mem a L c j = true /\ hflag a j = true)).
Proof.
  intros Hmask new_stars stars_low m.
  assert (Hns : forall k, (k < 8)%nat ->
            Z.testbit new_stars (8 * Z.of_nat k + 7) = sflag a k && (L <=? Z.of_nat k))
    by (intros k Hk; exact (masked_bit 8 L h _ k Hmask Hk)).
  assert (Hnsonly : forall p, 0 <= p -> Z.testbit new_stars p = true ->
            exists k, (k < 8)%nat /\ p = 8 * Z.of_nat k + 7)
    by (intros p Hp Hset;
        destruct (masked_only 8 L h _ p Hmask Hp Hset) as [k [Hk [Hpk _]]];
        exists k; auto).
  assert (Hbit : forall k, (k < 8)%nat ->
            Z.testbit m (8 * Z.of_nat k + 7) = star_below mem a L c k && hflag a k).
  { intros k Hk. unfold m, stars_low.
    rewrite Z.land_spec, stars_low_bits, bt64_bit by lia. f_equal.
    destruct (Z.ltb_spec (8 * Z.of_nat k + 7) 64); [|lia]. cbn [andb].
    destruct k as [|k]; cbn [star_below].
    - change (8 * Z.of_nat 0 + 7) with 7. cbn. now rewrite andb_true_r.
    - destruct (Z.ltb_spec (8 * Z.of_nat (S k) + 7) 8); [lia|].
      replace (8 * Z.of_nat (S k) + 7 - 8) with (8 * Z.of_nat k + 7) by lia.
      apply Hns. lia. }
  assert (Honly : forall p, 0 <= p -> Z.testbit m p = true ->
            exists k, (k < 8)%nat /\ p = 8 * Z.of_nat k + 7).
  { intros p Hp Hset. unfold m, stars_low in Hset.
    rewrite Z.land_spec, stars_low_bits in Hset by lia.
    apply andb_prop in Hset. destruct Hset as [Hset _].
    apply andb_prop in Hset. destruct Hset as [H64 Hset]. apply Z.ltb_lt in H64.
    destruct (Z.ltb_spec p 8).
    - apply andb_prop in Hset. destruct Hset as [_ H7]. apply Z.eqb_eq in H7.
      exists 0%nat. split; [lia|]. subst p. reflexivity.
    - destruct (Hnsonly (p - 8) ltac:(lia) Hset) as [k [Hk Hpk]].
      exists (S k). split; lia. }
  split; [|split].
  - apply carry_bits. intros p Hp.
    destruct (Z.eqb_spec p 7) as [->|Hne].
    + rewrite andb_true_r. exact (Hns 7%nat ltac:(lia)).
    + rewrite andb_false_r.
      destruct (Z.testbit new_stars (p + 56)) eqn:E; [|reflexivity].
      destruct (Hnsonly (p + 56) ltac:(lia) E) as [k [Hk Hpk]]. lia.
  - intros Hz k Hk [H1 H2]. apply nonzero_false in Hz.
    pose proof (Hbit k Hk) as Hb. rewrite Hz, Z.testbit_0_l, H1, H2 in Hb.
    discriminate.
  - intros Hnz.
    assert (Hpos : 0 < m).
    { apply nonzero_true in Hnz.
      assert (0 <= m).
      { apply Z.land_nonneg. left. unfold stars_low, wrap.
        apply Z.mod_pos_bound. reflexivity. }
      lia. }
    destruct (ffs_spec m Hpos) as [p [Hp [Hffs [Hset Hlow]]]].
    destruct (Honly p Hp Hset) as [k [Hk Hpk]].
    exists k. split; [exact Hk|]. split.
    { unfold __builtin_ffsll. rewrite Hffs, Hpk. apply shiftr_ffs_lane. lia. }
    rewrite Hpk, (Hbit k Hk) in Hset. apply andb_prop in Hset.
    destruct Hset as [H1 H2]. split; [exact H1|]. split; [exact H2|].
    intros j Hj [H1' H2'].
    pose proof (Hbit j ltac:(lia)) as Hb.
    rewrite Hlow, H1', H2' in Hb by lia. discriminate.
Qed.

End PureMycroftPair.

Section PureMycroftPairLoop.

Variable mem : memory.
Variables s len : Z.

Hypothesis Hfree : no_plus_hash mem s len.

Local Abbreviation sflag a k :=
  (borrow false (Z.lxor (le_word mem 8 a) mask_star) (S k)).
Local Abbreviation hflag a k :=
  (borrow false (Z.lxor (le_word mem 8 a) mask_hash) (S k)).

(** A combined flag in lane [k] of the word at [s + i]: a star or a [+] at
    index [i - 1 + k], which is in the buffer, and a hash after it. *)
Lemma pure_pair_lane (i sl : Z) (c : bool) (k : nat) :
  -8 < i -> carried mem s i sl c -> (k < 8)%nat ->
  star_below mem (s + i) (Z.max 0 (- i)) c k = true -> hflag (s + i) k = true ->
  0 <= i - 1 + Z.of_nat k /\
  (mem (s + (i - 1 + Z.of_nat k)) = star \/ mem (s + (i - 1 + Z.of_nat k)) = plus) /\
  mem (s + (i - 1 + Z.of_nat k + 1)) = hash.
Proof.
  intros Hi [_ [Hc _]] Hk Hs Hh.
  assert (Hbelow : 0 <= i - 1 + Z.of_nat k /\
            (mem (s + (i - 1 + Z.of_nat k)) = star \/
             mem (s + (i - 1 + Z.of_nat k)) = plus)).
  { destruct k as [|k']; cbn [star_below] in Hs.
    - destruct (Hc Hs) as [H1 Hb]. split; [lia|].
      now replace (s + (i - 1 + Z.of_nat 0)) with (s + (i - 1)) by lia.
    - apply andb_prop in Hs. destruct Hs as [Hs HL]. apply Z.leb_le in HL.
      split; [lia|].
      replace (s + (i - 1 + Z.of_nat (S k'))) with (s + i + Z.of_nat k') by lia.
      apply sflag_byte; [lia|exact Hs]. }
  split; [apply Hbelow|]. split; [apply Hbelow|].
  replace (s + (i - 1 + Z.of_nat k + 1)) with (s + i + Z.of_nat k) by lia.
  apply (hflag_exact mem (s + i) k Hk Hh). intros k' ->.
  destruct Hbelow as [_ Hb].
  now replace (s + (i - 1 + Z.of_nat (S k'))) with (s + i + Z.of_nat k') in Hb by lia.
Qed.

(** A pair at index [i - 1 + k] of the buffer raises the combined flag of
    lane [k]. *)
Lemma pure_pair_flag (i sl : Z) (c : bool) (k : nat) :
  -8 < i -> carried mem s i sl c -> (k < 8)%nat ->
  0 <= i - 1 + Z.of_nat k -> pair_at mem s (i - 1 + Z.of_nat k) ->
  star_below mem (s + i) (Z.max 0 (- i)) c k = true /\ hflag (s + i) k = true.
Proof.
  intros Hi [_ [_ Hc]] Hk Hr [Hs Hh]. split.
  - destruct k as [|k']; cbn [star_below].
    + apply Hc; [lia|].
      now replace (s + (i - 1 + Z.of_nat 0)) with (s + (i - 1)) in Hs by lia.
    + apply andb_true_intro. split; [|apply Z.leb_le; lia].
      apply sflag_of_star; [lia|].
      now replace (s + (i - 1 + Z.of_nat (S k'))) with (s + i + Z.of_nat k') in Hs by lia.
  - apply hflag_of_hash; [exact Hk|].
    now replace (s + (i - 1 + Z.of_nat k + 1)) with (s + i + Z.of_nat k) in Hh by lia.
Qed.

Lemma pure_mycroft2_loop_spec (fuel : nat) :
  forall i h sl c, -8 < i -> len - i <= Z.of_nat fuel ->
    lane_mask 8 (Z.max 0 (- i)) h -> carried mem s i sl c ->
    (forall j, 0 <= j < i - 1 -> ~ pair_at mem s j) ->
    scan2_spec mem s len (result (pure_mycroft2_loop mem s len fuel i h sl)).
Proof.
  induction fuel as [|fuel IH]; intros i h sl c Hi Hf Hmask Hcar Hpre;
    cbn [pure_mycroft2_loop];
    destruct (Z.ltb_spec i len) as [Hlt|Hge]; try lia.
  - right. split; [reflexivity|]. intros j Hj Hj'. apply Hpre. lia.
  - rewrite result_bind. cbn [load64 load result snd]. cbv zeta.
    pose proof Hcar as [Hsl _]. rewrite Hsl.
    destruct (pure_mycroft2_block mem (s + i) (Z.max 0 (- i)) h c Hmask)
      as [Hnext [Hnone Hsome]].
    set (new_stars := Z.land (borrow_test 64 ones64 _) h) in *.
    set (m := Z.land (wrap 64 _) _) in *.
    assert (Hclear : forall q, (q < 8)%nat ->
              ~ (star_below mem (s + i) (Z.max 0 (- i)) c q = true /\
                 hflag (s + i) q = true) ->
              forall j, j = i - 1 + Z.of_nat q -> 0 <= j -> ~ pair_at mem s j).
    { intros q Hq Hn j -> Hj Hp. apply Hn.
      exact (pure_pair_flag i sl c q Hi Hcar Hq Hj Hp). }
    destruct (nonzero m) eqn:Hnz.
    + destruct (Hsome eq_refl) as [k [Hk [Hffs [Hs [Hh Hlow]]]]].
      rewrite result_if_ret, Hffs.
      replace (i - 1 + (Z.of_nat k + 1) - 1) with (i - 1 + Z.of_nat k) by lia.
      destruct (pure_pair_lane i sl c k Hi Hcar Hk Hs Hh) as [Hr [Hbyte Hhash]].
      apply (pair_candidate mem s len Hfree); try assumption.
      intros j Hj. destruct (Z.lt_ge_cases j (i - 1)) as [Hji|Hji]; [apply Hpre; lia|].
      apply (Hclear (Z.to_nat (j - (i - 1)))); [lia|apply Hlow; lia|lia|lia].
    + apply (IH (i + 8) highs64 (Z.shiftr new_stars 56)
                (sflag (s + i) 7 && (Z.max 0 (- i) <=? 7))); try lia.
      * replace (Z.max 0 (- (i + 8))) with 0 by lia. exact (lane_mask_highs 8).
      * split; [exact Hnext|]. split.
        -- intros Hc. apply andb_prop in Hc. destruct Hc as [Hc _].
           split; [lia|].
           replace (s + (i + 8 - 1)) with (s + i + Z.of_nat 7) by lia.
           apply sflag_byte; [lia|exact Hc].
        -- intros _ Hs. apply andb_true_intro. split; [|apply Z.leb_le; lia].
           apply sflag_of_star; [lia|].
           now replace (s + (i + 8 - 1)) with (s + i + Z.of_nat 7) in Hs by lia.
      * intros j Hj. destruct (Z.lt_ge_cases j (i - 1)) as [Hji|Hji]; [apply Hpre; lia|].
        apply (Hclear (Z.to_nat (j - (i - 1)))); [lia|apply (Hnone eq_refl); lia|lia|lia].
  - right. split; [reflexivity|]. intros j Hj Hj'. apply Hpre. lia.
Qed.

Lemma test_pure_mycroft2_spec :
  scan2_spec mem s len (result (test_pure_mycroft2 mem s len)).
Proof.
  unfold test_pure_mycroft2. cbv zeta.
  pose proof (land_s_bounds s 3 ltac:(lia)) as Hb.
  change (Z.ones 3) with 7 in Hb. change (2 ^ 3) with 8 in Hb.
  apply (pure_mycroft2_loop_spec _ _ _ _ false); try lia.
  - replace (Z.max 0 (- - Z.land s 7)) with (Z.land s 7) by lia.
    exact (lane_mask_first 8 (Z.land s 7) ltac:(lia)).
  - split; [reflexivity|]. split; [discriminate|]. intros H. lia.
Qed.

End PureMycroftPairLoop.

(** * Further properties

    What the code shows beyond its specification: when the Mycroft scanners
    are exact, what an outcome depends on, where the loads go, and what the
    harness of search.cc makes of all this. *)

(** ** When the Mycroft scanners are exact *)


Lemma land_7_3 (s : Z) : Z.land s 7 = 0 -> Z.land s 3 = 0.
Proof.
  intros H. change 3 with (Z.land 7 3). now rewrite Z.land_assoc, H.
Qed.

(** X3.  The pure Mycroft scanners for a single byte agree with test_naive
    as soon as the first byte of the buffer is not a [+], or the pointer is
    aligned to eight bytes: the only false flag their first word can raise
    is that of a [+] at index 0, through the borrow of a star in the masked
    lane before it.  The length is at most [INT_MAX - 15], so that the
    [i += 4] and [i += 8] of the loops do not overflow. *)
Theorem pure_mycroft_scanners_exact (mem : memory) (s len : Z) :
  len <= INT_MAX - 15 ->
  mem s <> plus \/ Z.land s 7 = 0 ->
  result (test_pure_mycroft4 mem s len) = result (test_naive mem s len) /\
  result (test_pure_mycroft mem s len) = result (test_naive mem s len).
Proof.
  intros _ H. pose proof (test_naive_spec mem s len) as Hn.
  split; apply (scan1_spec_unique mem s len); auto.
  - apply test_pure_mycroft4_spec.
    destruct H as [H|H]; [now left|right; now apply land_7_3].
  - now apply test_pure_mycroft_spec.
Qed.

Lemma pure_mycroft_scanners_exact_witness :
  2 <= INT_MAX - 15 /\
  (buf 0 "*a*" 1 <> plus \/ Z.land 1 7 = 0) /\
  result (test_pure_mycroft4 (buf 0 "*a*") 1 2) = result (test_naive (buf 0 "*a*") 1 2) /\
  result (test_pure_mycroft (buf 0 "*a*") 1 2) = result (test_naive (buf 0 "*a*") 1 2).
Proof.
  assert (Hlen : 2 <= INT_MAX - 15) by (unfold INT_MAX; lia).
  assert (H : buf 0 "*a*" 1 <> plus \/ Z.land 1 7 = 0) by (left; discriminate).
  split; [exact Hlen|]. split; [exact H|].
  exact (pure_mycroft_scanners_exact (buf 0 "*a*") 1 2 Hlen H).
Defined.

(** X4.  The Mycroft pair scanners agree with test_twobyte on every buffer
    that holds no [+] directly followed by a hash, for every length for
    which [len - 1] and [i += 8] do not overflow. *)
Theorem mycroft_pair_scanners_exact (mem : memory) (s len : Z) :
  int_ok len ->
  no_plus_hash mem s len ->
  result (test_mycroft2 mem s len) = result (test_twobyte mem s len) /\
  result (test_pure_mycroft2 mem s len) = result (test_twobyte mem s len).
Proof.
  intros _ H. pose proof (test_twobyte_spec mem s len) as Hn.
  split; apply (scan2_spec_unique mem s len); auto.
  - now apply test_mycroft2_spec.
  - now apply test_pure_mycroft2_spec.
Qed.

Lemma mycroft_pair_scanners_exact_witness :
  int_ok 2 /\
  no_plus_hash (buf 7 "+*#") 8 2 /\
  result (test_mycroft2 (buf 7 "+*#") 8 2) = result (test_twobyte (buf 7 "+*#") 8 2) /\
  result (test_pure_mycroft2 (buf 7 "+*#") 8 2) =
    result (test_twobyte (buf 7 "+*#") 8 2).
Proof.
  assert (H : no_plus_hash (buf 7 "+*#") 8 2).
  { intros j Hj Hj'. assert (j = 0) as -> by lia. intros [E _]. discriminate E. }
  assert (Hlen : int_ok 2) by (unfold int_ok, INT_MIN, INT_MAX; lia).
  split; [exact Hlen|]. split; [exact H|].
  exact (mycroft_pair_scanners_exact (buf 7 "+*#") 8 2 Hlen H).
Defined.


(** ** What an outcome depends on *)

Lemma scan1_spec_same (mem mem' : memory) (s len : Z) (r : option Z) :
  same_buffer mem mem' s len -> scan1_spec mem s len r -> scan1_spec mem' s len r.
Proof.
  intros Hsame [[i [Hr [Hi [Hs Hn]]]]|[Hr Hnone]].
  - left. exists i. split; [exact Hr|]. split; [exact Hi|]. split.
    + unfold star_at. rewrite <- Hsame by lia. exact Hs.
    + intros j Hj. unfold star_at. rewrite <- Hsame by lia. now apply Hn.
  - right. split; [exact Hr|]. intros j Hj. unfold star_at.
    rewrite <- Hsame by lia. now apply Hnone.
Qed.

Lemma scan2_spec_same (mem mem' : memory) (s len : Z) (r : option Z) :
  same_buffer mem mem' s len -> scan2_spec mem s len r -> scan2_spec mem' s len r.
Proof.
  intros Hsame.
  assert (Hp : forall j, 0 <= j -> j + 1 < len -> pair_at mem' s j -> pair_at mem s j).
  { intros j Hj Hj' [H1 H2]. split.
    - rewrite Hsame by lia. exact H1.
    - rewrite Hsame by lia. exact H2. }
  intros [[i [Hr [Hi [Hi' [[Hs Hh] Hn]]]]]|[Hr Hnone]].
  - left. exists i. split; [exact Hr|]. split; [exact Hi|]. split; [exact Hi'|]. split.
    + split; rewrite <- Hsame by lia; assumption.
    + intros j Hj H. apply (Hn j Hj). apply Hp; [lia|lia|exact H].
  - right. split; [exact Hr|]. intros j Hj Hj' H. apply (Hnone j Hj Hj').
    now apply Hp.
Qed.

Lemma scan1_spec_shorter (mem : memory) (s len len' : Z) (r : option Z) :
  len' <= len -> scan1_spec mem s len r ->
  scan1_spec mem s len' (option_map (clamp1 len') r).
Proof.
  intros Hle [[i [-> [Hi [Hs Hn]]]]|[-> Hnone]]; cbn [option_map]; unfold clamp1.
  - destruct (Z.leb_spec 0 i); [|lia]. cbn [andb].
    destruct (Z.ltb_spec i len').
    + left. exists i. split; [reflexivity|]. split; [lia|]. split; assumption.
    + right. split; [reflexivity|]. intros j Hj. apply Hn. lia.
  - right. split; [reflexivity|]. intros j Hj. apply Hnone. lia.
Qed.

Lemma scan2_spec_shorter (mem : memory) (s len len' : Z) (r : option Z) :
  len' <= len -> scan2_spec mem s len r ->
  scan2_spec mem s len' (option_map (clamp2 len') r).
Proof.
  intros Hle [[i [-> [Hi [Hi' [Hs Hn]]]]]|[-> Hnone]]; cbn [option_map]; unfold clamp2.
  - destruct (Z.leb_spec 0 i); [|lia]. cbn [andb].
    destruct (Z.ltb_spec (i + 1) len').
    + left. exists i. split; [reflexivity|]. split; [lia|]. split; [lia|].
      split; assumption.
    + right. split; [reflexivity|]. intros j Hj Hj'. apply Hn. lia.
  - right. split; [reflexivity|]. intros j Hj Hj'. apply Hnone; lia.
Qed.

Lemma scan1_spec_later (mem : memory) (s len off : Z) (r : option Z) :
  0 <= off -> (forall j, 0 <= j < off -> ~ star_at mem s j) ->
  scan1_spec mem s len r ->
  scan1_spec mem (s + off) (len - off) (option_map (rebase off) r).
Proof.
  intros Hoff Hpre.
  assert (Hat : forall j, star_at mem (s + off) j <-> star_at mem s (off + j))
    by (intros j; unfold star_at; now rewrite Z.add_assoc).
  intros [[i [-> [Hi [Hs Hn]]]]|[-> Hnone]]; cbn [option_map]; unfold rebase.
  - destruct (Z.eqb_spec i (-127)); [lia|].
    assert (Hle : off <= i).
    { destruct (Z.le_gt_cases off i) as [Hc|Hc]; [exact Hc|].
      exfalso. apply (Hpre i); [lia|exact Hs]. }
    left. exists (i - off). split; [reflexivity|]. split; [lia|]. split.
    + apply Hat. now replace (off + (i - off)) with i by lia.
    + intros j Hj H. apply Hat in H. apply (Hn (off + j)); [lia|exact H].
  - right. split; [reflexivity|]. intros j Hj H. apply Hat in H.
    apply (Hnone (off + j)); [lia|exact H].
Qed.

Lemma scan2_spec_later (mem : memory) (s len off : Z) (r : option Z) :
  0 <= off -> (forall j, 0 <= j < off -> ~ pair_at mem s j) ->
  scan2_spec mem s len r ->
  scan2_spec mem (s + off) (len - off) (option_map (rebase off) r).
Proof.
  intros Hoff Hpre.
  assert (Hat : forall j, pair_at mem (s + off) j <-> pair_at mem s (off + j)).
  { intros j. unfold pair_at.
    replace (s + off + j) with (s + (off + j)) by lia.
    replace (s + off + (j + 1)) with (s + (off + j + 1)) by lia. tauto. }
  intros [[i [-> [Hi [Hi' [Hs Hn]]]]]|[-> Hnone]]; cbn [option_map]; unfold rebase.
  - destruct (Z.eqb_spec i (-127)); [lia|].
    assert (Hle : off <= i).
    { destruct (Z.le_gt_cases off i) as [Hc|Hc]; [exact Hc|].
      exfalso. apply (Hpre i); [lia|exact Hs]. }
    left. exists (i - off). split; [reflexivity|]. split; [lia|]. split; [lia|]. split.
    + apply Hat. now replace (off + (i - off)) with i by lia.
    + intros j Hj H. apply Hat in H. apply (Hn (off + j)); [lia|exact H].
  - right. split; [reflexivity|]. intros j Hj Hj' H. apply Hat in H.
    apply (Hnone (off + j)); [lia|lia|exact H].
Qed.

Lemma star_free_pair_free (mem : memory) (s off : Z) :
  (forall j, 0 <= j < off -> ~ star_at mem s j) ->
  forall j, 0 <= j < off -> ~ pair_at mem s j.
Proof. intros H j Hj [Hs _]. now apply (H j Hj). Qed.

(** X9.  The outcome of a scanner whose contract is proved depends on the
    bytes of the buffer alone: two memories that agree on the buffer give
    the same outcome, whatever the block loads read before and after it.
    The length is one for which [len - 1] and [i += 16] do not overflow. *)
Theorem outcome_depends_on_buffer_only (mem mem' : memory) (s len : Z) :
  int_ok len ->
  same_buffer mem mem' s len ->
  Forall (fun scan => result (scan mem s len) = result (scan mem' s len))
         (scan1_proved ++ scan2_proved).
Proof.
  intros _ Hsame. apply Forall_app. split.
  - pose proof (scan1_proved_spec mem s len) as H.
    pose proof (scan1_proved_spec mem' s len) as H'.
    rewrite Forall_forall in *. intros scan Hin.
    apply (scan1_spec_unique mem' s len); [|now apply H'].
    apply (scan1_spec_same mem mem'); [exact Hsame|now apply H].
  - pose proof (scan2_proved_spec mem s len) as H.
    pose proof (scan2_proved_spec mem' s len) as H'.
    rewrite Forall_forall in *. intros scan Hin.
    apply (scan2_spec_unique mem' s len); [|now apply H'].
    apply (scan2_spec_same mem mem'); [exact Hsame|now apply H].
Qed.

Lemma outcome_depends_on_buffer_only_witness :
  int_ok 3 /\
  same_buffer (mem_of "a" 1 (bytes_of "a*#")) (mem_of "*" 1 (bytes_of "a*#")) 1 3 /\
  Forall (fun scan => result (scan (mem_of "a" 1 (bytes_of "a*#")) 1 3) =
                      result (scan (mem_of "*" 1 (bytes_of "a*#")) 1 3))
         (scan1_proved ++ scan2_proved).
Proof.
  assert (H : same_buffer (mem_of "a" 1 (bytes_of "a*#"))
                          (mem_of "*" 1 (bytes_of "a*#")) 1 3).
  { intros j Hj.
    assert (E : j = 0 \/ j = 1 \/ j = 2) by lia.
    destruct E as [->|[->| ->]]; reflexivity. }
  assert (Hlen : int_ok 3) by (unfold int_ok, INT_MIN, INT_MAX; lia).
  split; [exact Hlen|]. split; [exact H|].
  exact (outcome_depends_on_buffer_only _ _ 1 3 Hlen H).
Defined.

(** X10.  Scanning the first [len'] bytes of a buffer gives the outcome for
    the whole buffer clamped to [len']: the index if it is below [len'] (for
    a pair, if its successor is), -127 otherwise.  Both lengths are such
    that [len - 1] and [i += 16] do not overflow. *)
Theorem shorter_buffer_clamps (mem : memory) (s len len' : Z) :
  INT_MIN < len' -> len' <= len -> len <= INT_MAX - 15 ->
  Forall (fun scan => result (scan mem s len') =
                      option_map (clamp1 len') (result (scan mem s len)))
         scan1_proved /\
  Forall (fun scan => result (scan mem s len') =
                      option_map (clamp2 len') (result (scan mem s len)))
         scan2_proved.
Proof.
  intros _ Hle _. split.
  - pose proof (scan1_proved_spec mem s len) as H.
    pose proof (scan1_proved_spec mem s len') as H'.
    rewrite Forall_forall in *. intros scan Hin.
    apply (scan1_spec_unique mem s len'); [now apply H'|].
    apply (scan1_spec_shorter mem s len); [exact Hle|now apply H].
  - pose proof (scan2_proved_spec mem s len) as H.
    pose proof (scan2_proved_spec mem s len') as H'.
    rewrite Forall_forall in *. intros scan Hin.
    apply (scan2_spec_unique mem s len'); [now apply H'|].
    apply (scan2_spec_shorter mem s len); [exact Hle|now apply H].
Qed.

Lemma shorter_buffer_clamps_witness :
  (INT_MIN < 16 /\ 16 <= 35 /\ 35 <= INT_MAX - 15) /\
  Forall (fun scan => result (scan (buf 3 "Now is the time *# for all good men") 3 16) =
                      option_map (clamp1 16)
                        (result (scan (buf 3 "Now is the time *# for all good men") 3 35)))
         scan1_proved /\
  Forall (fun scan => result (scan (buf 3 "Now is the time *# for all good men") 3 16) =
                      option_map (clamp2 16)
                        (result (scan (buf 3 "Now is the time *# for all good men") 3 35)))
         scan2_proved.
Proof.
  assert (H0 : INT_MIN < 16) by (unfold INT_MIN; lia).
  assert (H : 16 <= 35) by lia.
  assert (H1 : 35 <= INT_MAX - 15) by (unfold INT_MAX; lia).
  split; [repeat split; assumption|].
  exact (shorter_buffer_clamps (buf 3 "Now is the time *# for all good men") 3 35 16
                               H0 H H1).
Defined.

(** X11.  Skipping a prefix that holds no star: scanning from [s + off]
    gives the outcome for the whole buffer moved by [off], whatever the
    alignment of the two pointers.  These are the calls of time in search.cc,
    [fn(small + off, small_length - off)].  Both lengths are such that
    [len - 1] and [i += 16] do not overflow. *)
Theorem later_start_rebases (mem : memory) (s len off : Z) :
  0 <= off -> INT_MIN < len - off -> len <= INT_MAX - 15 ->
  (forall j, 0 <= j < off -> ~ star_at mem s j) ->
  Forall (fun scan => result (scan mem (s + off) (len - off)) =
                      option_map (rebase off) (result (scan mem s len)))
         (scan1_proved ++ scan2_proved).
Proof.
  intros Hoff _ _ Hpre. apply Forall_app. split.
  - pose proof (scan1_proved_spec mem s len) as H.
    pose proof (scan1_proved_spec mem (s + off) (len - off)) as H'.
    rewrite Forall_forall in *. intros scan Hin.
    apply (scan1_spec_unique mem (s + off) (len - off)); [now apply H'|].
    apply scan1_spec_later; [exact Hoff|exact Hpre|now apply H].
  - pose proof (scan2_proved_spec mem s len) as H.
    pose proof (scan2_proved_spec mem (s + off) (len - off)) as H'.
    rewrite Forall_forall in *. intros scan Hin.
    apply (scan2_spec_unique mem (s + off) (len - off)); [now apply H'|].
    apply scan2_spec_later; [exact Hoff| |now apply H].
    now apply star_free_pair_free.
Qed.

(** ** The widths of the loads *)

Section Widths.

Variable mem : memory.
Variables s len : Z.

Local Abbreviation wf m := (Forall width_ok (loads m)).

Lemma wf_ret {A : Type} (a : A) : wf (ret a).
Proof. constructor. Qed.

Lemma wf_out_of_fuel {A : Type} : wf (@out_of_fuel A).
Proof. constructor. Qed.

Lemma wf_bind {A B : Type} (m : M A) (f : A -> M B) :
  wf m -> (forall a, wf (f a)) -> wf (bind m f).
Proof.
  intros Hm Hf. rewrite loads_bind. apply Forall_app. split; [exact Hm|].
  destruct (result m); [apply Hf|constructor].
Qed.

Lemma wf_load8 (a : Z) : wf (load8 mem a).
Proof. apply Forall_cons; [|apply Forall_nil]. unfold width_ok. cbn. tauto. Qed.

Lemma wf_load128 (a : Z) : wf (load128 mem a).
Proof. apply Forall_cons; [|apply Forall_nil]. unfold width_ok. cbn. tauto. Qed.

Lemma wf_load (n : nat) (a : Z) : (n = 4 \/ n = 8)%nat -> wf (load mem n a).
Proof.
  intros [->| ->]; (apply Forall_cons; [|apply Forall_nil]); unfold width_ok; cbn; tauto.
Qed.

Ltac wf_step IH :=
  first
    [ apply wf_ret | apply wf_out_of_fuel | apply wf_load8 | apply wf_load128
    | apply wf_load; tauto
    | apply IH
    | apply wf_bind; [|intros ?]
    | match goal with |- Forall _ (loads (if ?c then _ else _)) => destruct c end
    | match goal with |- Forall _ (loads (match ?c with _ => _ end)) => destruct c end
    | progress cbv zeta ].

Ltac wf_loop :=
  let fuel := fresh "fuel" in
  let IH := fresh "IH" in
  intros fuel; induction fuel as [|fuel IH]; intros;
  cbn -[bind ret out_of_fuel load8 load load32 load64 load128 loads];
  repeat wf_step IH.

Lemma naive_loop_wf : forall fuel i, wf (naive_loop mem s len fuel i).
Proof. wf_loop. Qed.

Lemma twobyte_loop_wf : forall fuel i, wf (twobyte_loop mem s len fuel i).
Proof. wf_loop. Qed.

Lemma prologue1_wf (A : Z) : forall fuel i, wf (prologue1 mem s len A fuel i).
Proof. wf_loop. Qed.

Lemma prologue2_wf (A : Z) : forall fuel i, wf (prologue2 mem s len A fuel i).
Proof. wf_loop. Qed.

Lemma pure_sse2_loop_wf : forall fuel i m, wf (pure_sse2_loop mem s len fuel i m).
Proof. wf_loop. Qed.

Lemma sse2_loop_wf : forall fuel i, wf (sse2_loop mem s len fuel i).
Proof. wf_loop. Qed.

Lemma mycroft4_until16_wf : forall fuel i, wf (mycroft4_until16 mem s len fuel i).
Proof. wf_loop. Qed.

Lemma twosse2_loop_wf : forall fuel i p, wf (twosse2_loop mem s len fuel i p).
Proof. wf_loop. Qed.

Lemma twobsse2_loop_wf : forall fuel i p, wf (twobsse2_loop mem s len fuel i p).
Proof. wf_loop. Qed.

Lemma pure_twobsse2_loop_wf :
  forall fuel i m p, wf (pure_twobsse2_loop mem s len fuel i m p).
Proof. wf_loop. Qed.

Lemma mycroft_loop_wf (n : nat) (mask highs ones : Z) :
  (n = 4 \/ n = 8)%nat ->
  forall fuel i, wf (mycroft_loop mem s len n mask highs ones fuel i).
Proof. intros Hn. wf_loop. Qed.

Lemma pure_mycroft_loop_wf (n : nat) (mask highs ones : Z) :
  (n = 4 \/ n = 8)%nat ->
  forall fuel i h, wf (pure_mycroft_loop mem s len n mask highs ones fuel i h).
Proof. intros Hn. wf_loop. Qed.

Lemma mycroft2_loop_wf : forall fuel i, wf (mycroft2_loop mem s len fuel i).
Proof. wf_loop. Qed.

Lemma pure_mycroft2_loop_wf :
  forall fuel i h sl, wf (pure_mycroft2_loop mem s len fuel i h sl).
Proof. wf_loop. Qed.

Ltac wf_scan :=
  repeat first
    [ apply naive_loop_wf | apply twobyte_loop_wf | apply prologue1_wf
    | apply prologue2_wf | apply pure_sse2_loop_wf | apply sse2_loop_wf
    | apply mycroft4_until16_wf | apply twosse2_loop_wf | apply twobsse2_loop_wf
    | apply pure_twobsse2_loop_wf | apply mycroft_loop_wf; tauto
    | apply pure_mycroft_loop_wf; tauto | apply mycroft2_loop_wf
    | apply pure_mycroft2_loop_wf
    | apply wf_ret | apply wf_load8
    | apply wf_bind; [|intros ?]
    | match goal with |- Forall _ (loads (if ?c then _ else _)) => destruct c end
    | match goal with |- Forall _ (loads (match ?c with _ => _ end)) => destruct c end
    | progress cbv zeta ].

Lemma scanners_wf :
  Forall (fun scan => wf (scan mem s len)) (prologued_scanners ++ pure_scanners).
Proof.
  unfold prologued_scanners, pure_scanners. cbn [app].
  repeat apply Forall_cons; try apply Forall_nil.
  - unfold test_naive. wf_scan.
  - unfold test_twobyte. wf_scan.
  - unfold test_sse2. wf_scan.
  - unfold test_sse2_and_mycroft4. wf_scan.
  - unfold test_mycroft4, mycroft_scan. wf_scan.
  - unfold test_mycroft, mycroft_scan. wf_scan.
  - unfold test_twosse2, twosse2_run. wf_scan.
  - unfold test_twobsse2. wf_scan.
  - unfold test_mycroft2. wf_scan.
  - unfold test_pure_sse2. wf_scan.
  - unfold test_pure_twobsse2. wf_scan.
  - unfold test_pure_mycroft4, pure_mycroft_scan. wf_scan.
  - unfold test_pure_mycroft, pure_mycroft_scan. wf_scan.
  - unfold test_pure_mycroft2. wf_scan.
Qed.

End Widths.

(** ** The loads of the pure scanners, for every length *)

Section PureLoads.

Variable mem : memory.
Variables s len : Z.

Local Abbreviation safe1 m := (Forall (covered s (Z.max len 1)) (loads m)).

(** The block at [i] of a pure loop holds the byte of index [Z.max 0 i],
    which is a byte of the buffer, or byte 0 if the buffer is empty. *)
Lemma pure_block_covered1 (W i : Z) :
  0 < W -> - W < i -> i < len -> (s + i) mod W = 0 ->
  covered s (Z.max len 1) (Access (s + i) W).
Proof.
  intros HW Hi Hlt Hal. apply covered_block with (j := Z.max 0 i); lia.
Qed.

Lemma pure_sse2_loop_safe1 (fuel : nat) :
  forall i amask, -16 < i -> (s + i) mod 16 = 0 ->
    safe1 (pure_sse2_loop mem s len fuel i amask).
Proof.
  induction fuel as [|fuel IH]; intros i amask Hi Hal; cbn [pure_sse2_loop];
    destruct (Z.ltb_spec i len) as [Hlt|Hge]; try apply Forall_nil.
  rewrite loads_bind. cbn [load128 loads result fst snd app].
  constructor; [apply pure_block_covered1; auto; lia|].
  destruct (nonzero _); [rewrite loads_if_ret; constructor|].
  apply IH; try lia. rewrite Z.add_assoc. now apply next_aligned.
Qed.

Lemma pure_twobsse2_loop_safe1 (fuel : nat) :
  forall i amask stars, -16 < i -> (s + i) mod 16 = 0 ->
    safe1 (pure_twobsse2_loop mem s len fuel i amask stars).
Proof.
  induction fuel as [|fuel IH]; intros i amask stars Hi Hal;
    cbn [pure_twobsse2_loop];
    destruct (Z.ltb_spec i len) as [Hlt|Hge]; try apply Forall_nil.
  rewrite loads_bind. cbn [load128 loads result fst snd app].
  constructor; [apply pure_block_covered1; auto; lia|].
  cbv zeta. destruct (nonzero _); [rewrite loads_if_ret; constructor|].
  apply IH; try lia. rewrite Z.add_assoc. now apply next_aligned.
Qed.

Lemma pure_mycroft_loop_safe1 (n : nat) (mask highs ones : Z) (fuel : nat) :
  (0 < n)%nat ->
  forall i h, - Z.of_nat n < i -> (s + i) mod Z.of_nat n = 0 ->
    safe1 (pure_mycroft_loop mem s len n mask highs ones fuel i h).
Proof.
  intros Hn.
  induction fuel as [|fuel IH]; intros i h Hi Hal; cbn [pure_mycroft_loop];
    destruct (Z.ltb_spec i len) as [Hlt|Hge]; try apply Forall_nil.
  rewrite loads_bind. cbn [load loads result fst snd app].
  constructor; [apply pure_block_covered1; auto; lia|].
  cbv zeta. destruct (nonzero _); [rewrite loads_if_ret; constructor|].
  apply IH; try lia. rewrite Z.add_assoc. apply next_aligned; [lia|exact Hal].
Qed.

Lemma pure_mycroft2_loop_safe1 (fuel : nat) :
  forall i h stars_low, -8 < i -> (s + i) mod 8 = 0 ->
    safe1 (pure_mycroft2_loop mem s len fuel i h stars_low).
Proof.
  induction fuel as [|fuel IH]; intros i h sl Hi Hal; cbn [pure_mycroft2_loop];
    destruct (Z.ltb_spec i len) as [Hlt|Hge]; try apply Forall_nil.
  rewrite loads_bind. cbn [load64 load loads result fst snd app].
  constructor; [apply pure_block_covered1; auto; cbn; lia|].
  cbv zeta. destruct (nonzero _); [rewrite loads_if_ret; constructor|].
  apply IH; try lia. rewrite Z.add_assoc. now apply next_aligned.
Qed.

Lemma pure_scanners_safe1 :
  Forall (fun scan => safe1 (scan mem s len)) pure_scanners.
Proof.
  pose proof (land_s_bounds s 4 ltac:(lia)) as H4.
  pose proof (land_s_bounds s 3 ltac:(lia)) as H3.
  pose proof (land_s_bounds s 2 ltac:(lia)) as H2.
  change (Z.ones 4) with 15 in H4. change (2 ^ 4) with 16 in H4.
  change (Z.ones 3) with 7 in H3. change (2 ^ 3) with 8 in H3.
  change (Z.ones 2) with 3 in H2. change (2 ^ 2) with 4 in H2.
  unfold pure_scanners. repeat apply Forall_cons; try apply Forall_nil.
  - unfold test_pure_sse2. cbv zeta.
    apply pure_sse2_loop_safe1; [lia|apply (pure_start_aligned s 4); lia].
  - unfold test_pure_twobsse2. cbv zeta.
    apply pure_twobsse2_loop_safe1; [lia|apply (pure_start_aligned s 4); lia].
  - unfold test_pure_mycroft4, pure_mycroft_scan. cbv zeta.
    apply pure_mycroft_loop_safe1; [lia|lia|apply (pure_start_aligned s 2); lia].
  - unfold test_pure_mycroft, pure_mycroft_scan. cbv zeta.
    apply pure_mycroft_loop_safe1; [lia|lia|apply (pure_start_aligned s 3); lia].
  - unfold test_pure_mycroft2. cbv zeta.
    apply pure_mycroft2_loop_safe1; [lia|apply (pure_start_aligned s 3); lia].
Qed.

End PureLoads.

(** ** Pages *)

Lemma covered_in_page (s L P : Z) (a : access) :
  P mod PAGE = 0 -> P <= s -> s + L <= P + PAGE ->
  width_ok a -> covered s L a -> in_page P a.
Proof.
  unfold PAGE. intros HP Hs HL Hw Hc. destruct a as [addr w].
  unfold width_ok in Hw. cbn [acc_width In] in Hw.
  unfold in_page, PAGE. cbn [acc_addr acc_width].
  assert (Hw0 : 0 < w) by lia.
  destruct (Hc addr) as [j [Hj Ej]]; [cbn; lia|].
  destruct (Hc (addr + w - 1)) as [j' [Hj' Ej']]; [cbn; lia|].
  cbn [acc_width] in Ej, Ej'.
  destruct Hw as [<-|[<-|[<-|[<-|[]]]]]; Z.div_mod_to_equations; lia.
Qed.

Lemma loads_in_page (s L P : Z) (l : list access) :
  P mod PAGE = 0 -> P <= s -> s + L <= P + PAGE ->
  Forall width_ok l -> Forall (covered s L) l -> Forall (in_page P) l.
Proof.
  intros HP Hs HL Hw Hc. rewrite Forall_forall in *. intros a Ha.
  apply (covered_in_page s L P); auto.
Qed.

(** ** The harness of search.cc *)

Lemma for_loop_ind {St : Type} (P : nat -> St -> Prop) (step : Z)
    (body : Z -> St -> St) (n : nat) :
  forall i st,
    P 0%nat st ->
    (forall k st', (k < n)%nat -> P k st' ->
       P (S k) (body (i + Z.of_nat k * step) st')) ->
    P n (for_loop n i step body st).
Proof.
  revert P. induction n as [|n IH]; intros P i st H0 Hstep; cbn [for_loop].
  - exact H0.
  - apply (IH (fun k => P (S k))).
    + pose proof (Hstep 0%nat st ltac:(lia) H0) as H1.
      replace (i + Z.of_nat 0 * step) with i in H1 by lia. exact H1.
    + intros k st' Hk HP.
      pose proof (Hstep (S k) st' ltac:(lia) HP) as H1.
      replace (i + Z.of_nat (S k) * step) with (i + step + Z.of_nat k * step) in H1 by lia.
      exact H1.
Qed.

Lemma for_loop_inv {St : Type} (P : St -> Prop) (step : Z)
    (body : Z -> St -> St) (n : nat) (i : Z) (st : St) :
  P st ->
  (forall k st', (k < n)%nat -> P st' -> P (body (i + Z.of_nat k * step) st')) ->
  P (for_loop n i step body st).
Proof.
  intros H0 Hstep. apply (for_loop_ind (fun _ => P)); assumption.
Qed.

Lemma for_loop_post {St : Type} (P Q : St -> Prop) (step : Z)
    (body : Z -> St -> St) (n : nat) (i : Z) (st : St) :
  P st ->
  (forall k st', (k < n)%nat -> P st' -> P (body (i + Z.of_nat k * step) st')) ->
  (forall st', P st' -> Q st') ->
  Q (for_loop n i step body st).
Proof. intros H0 Hstep HQ. apply HQ. now apply for_loop_inv. Qed.


Lemma memof_poke (a : Z) (b : byte) (st : hstate) (x : Z) :
  memof (poke a b st) x = if x =? a then b else memof st x.
Proof. now destruct st as [[mem n] out]. Qed.

Lemma memof_fill (a : Z) (b : byte) (k : Z) (st : hstate) (x : Z) :
  memof (fill a b k st) x = if (a <=? x) && (x <? a + k) then b else memof st x.
Proof. now destruct st as [[mem n] out]. Qed.

Lemma printed_poke (a : Z) (b : byte) (st : hstate) :
  printed (poke a b st) = printed st.
Proof. now destruct st as [[mem n] out]. Qed.

Lemma printed_fill (a : Z) (b : byte) (k : Z) (st : hstate) :
  printed (fill a b k st) = printed st.
Proof. now destruct st as [[mem n] out]. Qed.

Lemma random_keeps (rand : nat -> Z) (st : hstate) :
  memof (snd (random rand st)) = memof st /\
  printed (snd (random rand st)) = printed st.
Proof. now destruct st as [[mem n] out]. Qed.

Ltac mem_eval :=
  rewrite ?memof_poke, ?memof_fill;
  repeat match goal with
         | |- context [Z.eqb ?a ?b] => destruct (Z.eqb_spec a b); try lia
         | |- context [Z.leb ?a ?b] => destruct (Z.leb_spec a b); try lia
         | |- context [Z.ltb ?a ?b] => destruct (Z.ltb_spec a b); try lia
         end;
  cbn [andb]; try reflexivity; try discriminate.

(** *** What the scanners answer on the buffers of the guard loops *)

Section Shapes.

Variable mem : memory.
Variables s len : Z.

Lemma letters_found_nowhere1 (r : option Z) :
  (forall j, 0 <= j < len -> mem (s + j) = "a"%byte) ->
  (plus_free mem s len -> scan1_spec mem s len r) -> r = Some (-127).
Proof.
  intros Hshape Hspec. apply (scan1_spec_none mem s len).
  - apply Hspec. intros j Hj. now rewrite Hshape.
  - intros j Hj. unfold star_at. now rewrite Hshape.
Qed.

Lemma letters_found_nowhere2 (r : option Z) :
  (forall j, 0 <= j < len -> mem (s + j) = "a"%byte) ->
  (plus_free mem s len -> scan2_spec mem s len r) -> r = Some (-127).
Proof.
  intros Hshape Hspec. apply (scan2_spec_none mem s len).
  - apply Hspec. intros j Hj. now rewrite Hshape.
  - intros j Hj Hj' [Hs _]. now rewrite Hshape in Hs by lia.
Qed.

Lemma star_found (pos : Z) (r : option Z) :
  0 <= pos < len ->
  (forall j, 0 <= j < len -> mem (s + j) = if j =? pos then star else "a"%byte) ->
  (plus_free mem s len -> scan1_spec mem s len r) -> r = Some pos.
Proof.
  intros Hpos Hshape Hspec. apply (scan1_spec_found mem s len).
  - apply Hspec. intros j Hj. rewrite Hshape by lia. now destruct (j =? pos).
  - split; [exact Hpos|]. split.
    + unfold star_at. rewrite Hshape by lia. now rewrite Z.eqb_refl.
    + intros j Hj. unfold star_at. rewrite Hshape by lia.
      destruct (Z.eqb_spec j pos); [lia|discriminate].
Qed.

(** The pair at [pos], and a lone star at [k] if [k] is an index before
    [pos]. *)
Lemma pair_found (pos k : Z) (r : option Z) :
  0 <= pos -> pos + 1 < len -> k < pos ->
  (forall j, 0 <= j < len ->
     mem (s + j) = if j =? k then star
                   else if j =? pos then star
                   else if j =? pos + 1 then hash else "a"%byte) ->
  (plus_free mem s len -> scan2_spec mem s len r) -> r = Some pos.
Proof.
  intros Hpos Hlen Hk Hshape Hspec. apply (scan2_spec_found mem s len).
  - apply Hspec. intros j Hj. rewrite Hshape by lia.
    destruct (j =? k); [discriminate|]. destruct (j =? pos); [discriminate|].
    destruct (j =? pos + 1); discriminate.
  - split; [exact Hpos|]. split; [exact Hlen|]. split.
    + split; rewrite Hshape by lia.
      * destruct (Z.eqb_spec pos k); [reflexivity|]. now rewrite Z.eqb_refl.
      * destruct (Z.eqb_spec (pos + 1) k); [lia|].
        destruct (Z.eqb_spec (pos + 1) pos); [lia|]. now rewrite Z.eqb_refl.
    + intros j Hj [Hs Hh]. rewrite Hshape in Hh by lia. revert Hh.
      destruct (Z.eqb_spec (j + 1) k); [discriminate|].
      destruct (Z.eqb_spec (j + 1) pos); [discriminate|].
      destruct (Z.eqb_spec (j + 1) (pos + 1)); [lia|discriminate].
Qed.

End Shapes.

Ltac on_call lem :=
  match goal with |- result (_ ?m ?s ?l) = _ => apply (lem m s l) end.

Ltac on_call_pair pos k :=
  match goal with |- result (_ ?m ?s ?l) = _ => apply (pair_found m s l pos k) end.

Lemma in_page_not_protected (three_pages : Z) (l : list access) :
  Forall (in_page (three_pages + PAGE)) l ->
  existsb (protected three_pages) l = false.
Proof.
  induction 1 as [|a l [Hlo Hhi] _ IH]; [reflexivity|].
  cbn [existsb]. rewrite IH, orb_false_r. unfold protected. cbv zeta.
  unfold PAGE in *.
  destruct (Z.ltb_spec (acc_addr a) (three_pages + 4096)); [lia|].
  destruct (Z.ltb_spec (three_pages + 4096 * 2) (acc_addr a + acc_width a)); [lia|].
  now rewrite andb_false_r.
Qed.

Lemma page_after (three_pages : Z) :
  three_pages mod PAGE = 0 -> (three_pages + PAGE) mod PAGE = 0.
Proof.
  intros H. replace (three_pages + PAGE) with (three_pages + 1 * PAGE) by lia.
  now rewrite Z.mod_add by (unfold PAGE; lia).
Qed.

Section TestQuiet.

Variable testee : searcher.
Variable bytes : Z.
Variable rand : nat -> Z.
Variable three_pages : Z.

Hypothesis Hmmap : three_pages mod PAGE = 0.
Hypothesis Hsafe : page_safe testee.
Hypothesis Hexact : exact_on_plus_free testee bytes.

(** A call for a buffer inside the second page that gives the expected
    answer leaves no trace. *)
Lemma expect_quiet (want : Z) (line : Z -> report) (s len : Z) (st : hstate) :
  result (testee (memof st) s len) = Some want ->
  three_pages + PAGE <= s -> 0 <= len -> s + len <= three_pages + PAGE * 2 ->
  expect testee three_pages want line s len st = st.
Proof.
  destruct st as [[mem n] out]. cbn [memof fst expect]. intros -> Hs Hlen Hend.
  rewrite in_page_not_protected.
  - now rewrite Z.eqb_refl.
  - apply Hsafe; [now apply page_after|exact Hs|exact Hlen|lia].
Qed.

Lemma guard_front_quiet (st : hstate) :
  printed st = [] -> printed (guard_front testee bytes three_pages st) = [].
Proof.
  intros Hq. unfold guard_front. cbv zeta.
  set (start := three_pages + PAGE).
  apply (for_loop_inv (fun st => printed st = [])); [exact Hq|].
  clear st Hq. intros n st Hn Hq.
  set (len := 0 + Z.of_nat n * 1).
  assert (Hlen : 0 <= len < 40) by lia.
  assert (Hpage : 40 <= PAGE) by (unfold PAGE; lia).
  unfold expect_none, expect_at.
  destruct Hexact as [[-> Hspec]|[-> Hspec]].
  - change (1 =? 2) with false. cbv iota.
    rewrite expect_quiet; try (unfold start; lia).
    2:{ on_call letters_found_nowhere1; [|apply Hspec]. intros j Hj. mem_eval. }
    apply (for_loop_inv (fun st => printed st = []));
      [now rewrite !printed_fill|].
    intros k st' Hk Hq'. rewrite expect_quiet; try (unfold start; lia).
    + now rewrite printed_poke, printed_fill.
    + on_call star_found; [lia| |apply Hspec]. intros j Hj. mem_eval.
  - change (2 =? 2) with true. cbv iota.
    set (st1 := for_loop 15 1 2 _ _).
    assert (H1 : printed st1 = [] /\
                 forall j, 0 <= j < len -> memof st1 (start + j) = "a"%byte).
    { unfold st1. apply (for_loop_inv (fun st =>
        printed st = [] /\ forall j, 0 <= j < len -> memof st (start + j) = "a"%byte)).
      - split; [now rewrite !printed_fill|]. intros j Hj. mem_eval.
      - intros k st' Hk [Hq' Hm]. split; [now rewrite printed_poke|].
        intros j Hj. rewrite memof_poke.
        destruct (Z.eqb_spec (start + j) (start + (len + (1 + Z.of_nat k * 2))));
          [lia|now apply Hm]. }
    destruct H1 as [Hq1 Hm1].
    rewrite expect_quiet; try (unfold start; lia).
    2:{ on_call letters_found_nowhere2; [exact Hm1|apply Hspec]. }
    apply (for_loop_inv (fun st => printed st = [])); [exact Hq1|].
    intros p st' Hp Hq'.
    set (pos := 0 + Z.of_nat p * 1).
    set (st2 := poke (start + (pos + 1)) hash _).
    assert (H2 : printed st2 = [] /\
                 forall j, 0 <= j < len ->
                   memof st2 (start + j) =
                   if j =? pos then star else if j =? pos + 1 then hash else "a"%byte).
    { unfold st2. split; [now rewrite !printed_poke, printed_fill|].
      intros j Hj. mem_eval. }
    destruct H2 as [Hq2 Hm2].
    rewrite expect_quiet; try (unfold start; lia).
    2:{ on_call_pair pos (-1); [lia|lia|lia| |apply Hspec].
        intros j Hj. rewrite Hm2 by lia. destruct (Z.eqb_spec j (-1)); [lia|reflexivity]. }
    apply (for_loop_post (fun st =>
      printed st = [] /\
      forall j, 0 <= j < len ->
        memof st (start + j) =
        if j =? pos then star else if j =? pos + 1 then hash else "a"%byte)
      (fun st => printed st = []));
      [split; assumption| |now intros st3 [H _]].
    intros k st3 Hk [Hq3 Hm3].
    rewrite expect_quiet; try (unfold start; lia).
    + split; [now rewrite !printed_poke|].
      intros j Hj. rewrite !memof_poke.
      destruct (Z.eqb_spec (start + j) (start + (0 + Z.of_nat k * 1))) as [E|E].
      * destruct (Z.eqb_spec j pos); [lia|].
        destruct (Z.eqb_spec j (pos + 1)); [lia|reflexivity].
      * now apply Hm3.
    + on_call_pair pos (0 + Z.of_nat k * 1); [lia|lia|lia| |apply Hspec].
      intros j Hj. rewrite memof_poke.
      destruct (Z.eqb_spec (start + j) (start + (0 + Z.of_nat k * 1))) as [E|E];
        destruct (Z.eqb_spec j (0 + Z.of_nat k * 1)); try lia; [reflexivity|].
      now apply Hm3.
Qed.

Lemma guard_back_quiet (st : hstate) :
  printed st = [] -> printed (guard_back testee bytes three_pages st) = [].
Proof.
  intros Hq. unfold guard_back. cbv zeta.
  set (end_ := three_pages + PAGE * 2).
  apply (for_loop_inv (fun st => printed st = [])); [exact Hq|].
  clear st Hq. intros n st Hn Hq.
  set (len := 0 + Z.of_nat n * 1).
  assert (Hlen : 0 <= len < 40) by lia.
  assert (Hpage : 40 <= PAGE) by (unfold PAGE; lia).
  unfold expect_none, expect_at.
  destruct Hexact as [[-> Hspec]|[-> Hspec]].
  - change (1 =? 2) with false. cbv iota.
    rewrite expect_quiet; try (unfold end_; lia).
    2:{ on_call letters_found_nowhere1; [|apply Hspec]. intros j Hj. mem_eval. }
    apply (for_loop_inv (fun st => printed st = []));
      [now rewrite !printed_fill|].
    intros k st' Hk Hq'. rewrite expect_quiet; try (unfold end_; lia).
    + now rewrite printed_poke, printed_fill.
    + on_call star_found; [lia| |apply Hspec]. intros j Hj. mem_eval.
  - change (2 =? 2) with true. cbv iota.
    rewrite expect_quiet; try (unfold end_; lia).
    2:{ on_call letters_found_nowhere2; [|apply Hspec]. intros j Hj. mem_eval. }
    apply (for_loop_inv (fun st => printed st = []));
      [now rewrite !printed_fill|].
    intros k st' Hk Hq'. rewrite expect_quiet; try (unfold end_; lia).
    + now rewrite !printed_poke, printed_fill.
    + on_call_pair (0 + Z.of_nat k * 1) (-1); [lia|lia|lia| |apply Hspec].
      intros j Hj. mem_eval.
Qed.

(** No byte of the random buffer is a [+]. *)
Lemma fuzz_byte_spec (buffer i : Z) (st : hstate) :
  printed (fuzz_byte rand buffer i st) = printed st /\
  memof (fuzz_byte rand buffer i st) (buffer + i) <> plus /\
  forall x, x <> buffer + i -> memof (fuzz_byte rand buffer i st) x = memof st x.
Proof.
  destruct st as [[mem n] out]. unfold fuzz_byte. cbn [random].
  pose proof (land_s_bounds (rand n) 3 ltac:(lia)) as Hr.
  change (Z.ones 3) with 7 in Hr. change (2 ^ 3) with 8 in Hr.
  remember (Z.land (rand n) 7) as r eqn:Er. clear Er.
  assert (E : r = 0 \/ r = 1 \/ r = 2 \/ r = 3 \/ r = 4 \/ r = 5 \/ r = 6 \/ r = 7)
    by lia.
  destruct E as [->|[->|[->|[->|[->|[->|[->| ->]]]]]]];
    cbn [Z.eqb Pos.eqb poke printed memof fst snd];
    (split; [reflexivity|]); unfold store;
    (split; [rewrite Z.eqb_refl; discriminate|]);
    intros x Hx;
    repeat match goal with
           | |- context [Z.eqb ?a ?b] => destruct (Z.eqb_spec a b); [lia|]
           end; reflexivity.
Qed.

Lemma fuzz_fill_spec (n : nat) (buffer : Z) (st : hstate) :
  printed (for_loop n 0 1 (fuzz_byte rand buffer) st) = printed st /\
  forall j, 0 <= j < Z.of_nat n ->
    memof (for_loop n 0 1 (fuzz_byte rand buffer) st) (buffer + j) <> plus.
Proof.
  apply (for_loop_ind (fun k st' =>
    printed st' = printed st /\
    forall j, 0 <= j < Z.of_nat k -> memof st' (buffer + j) <> plus)).
  - split; [reflexivity|]. intros j Hj. lia.
  - intros k st' Hk [Hq Hm].
    destruct (fuzz_byte_spec buffer (0 + Z.of_nat k * 1) st') as [Hq' [Hnew Hold]].
    split; [congruence|]. intros j Hj.
    destruct (Z.eq_dec j (0 + Z.of_nat k * 1)) as [->|Hne]; [exact Hnew|].
    rewrite Hold by lia. apply Hm. lia.
Qed.

Lemma fuzz_round_quiet (buffer : Z) (st : hstate) :
  printed st = [] -> printed (fuzz_round testee bytes rand buffer st) = [].
Proof.
  intros Hq. unfold fuzz_round.
  destruct (fuzz_fill_spec 128 buffer st) as [Hq1 Hm1].
  destruct (for_loop 128 0 1 (fuzz_byte rand buffer) st) as [[mem n] out].
  cbn [printed memof fst snd] in Hq1, Hm1. cbn [random].
  pose proof (land_s_bounds (rand n) 7 ltac:(lia)) as Ho.
  change (Z.ones 7) with 127 in Ho. change (2 ^ 7) with 128 in Ho.
  set (o := Z.land (rand n) 127) in *.
  replace (buffer + 128 - (buffer + o)) with (128 - o) by lia.
  set (len := Z.rem (rand (S n)) (128 - o)).
  assert (Hlen : len < 128 - o).
  { pose proof (Z.rem_bound_abs (rand (S n)) (128 - o) ltac:(lia)). fold len in H. lia. }
  assert (Hfree : plus_free mem (buffer + o) len).
  { intros j Hj. replace (buffer + o + j) with (buffer + (o + j)) by lia.
    apply Hm1. change (Z.of_nat 128) with 128. lia. }
  assert (Hsame :
    (if bytes =? 2 then result (test_twobyte mem (buffer + o) len)
     else result (test_naive mem (buffer + o) len)) =
    result (testee mem (buffer + o) len) /\
    exists v, result (testee mem (buffer + o) len) = Some v).
  { destruct Hexact as [[-> Hspec]|[-> Hspec]].
    - change (1 =? 2) with false. cbv iota. split.
      + apply (scan1_spec_unique mem (buffer + o) len);
          [apply test_naive_spec|now apply Hspec].
      + destruct (scan1_spec_range _ _ _ _ (Hspec _ _ _ Hfree)) as [v [Hv _]].
        now exists v.
    - change (2 =? 2) with true. cbv iota. split.
      + apply (scan2_spec_unique mem (buffer + o) len);
          [apply test_twobyte_spec|now apply Hspec].
      + destruct (scan2_spec_range _ _ _ _ (Hspec _ _ _ Hfree)) as [v [Hv _]].
        now exists v. }
  destruct Hsame as [-> [v ->]]. rewrite Z.eqb_refl. cbn [negb printed snd].
  congruence.
Qed.

Lemma fuzz_quiet (buffer : Z) (st : hstate) :
  printed st = [] -> printed (fuzz testee bytes rand buffer st) = [].
Proof.
  intros Hq. unfold fuzz.
  apply (for_loop_inv (fun st => printed st = [])); [now rewrite printed_poke|].
  intros k st' _ Hq'. now apply fuzz_round_quiet.
Qed.

Lemma test_quiet (buffer : Z) (st : hstate) :
  printed st = [] -> printed (test testee bytes rand three_pages buffer st) = [].
Proof.
  intros Hq. unfold test. cbv zeta.
  apply fuzz_quiet, guard_back_quiet, guard_front_quiet, Hq.
Qed.

End TestQuiet.

(** *** The scanners on buffers without a [+] *)

Lemma plus_free_first (mem : memory) (s len : Z) :
  plus_free mem s len -> 1 <= len -> mem s <> plus.
Proof. intros H Hlen. replace s with (s + 0) by lia. apply H. lia. Qed.

Lemma plus_free_no_plus_hash (mem : memory) (s len : Z) :
  plus_free mem s len -> no_plus_hash mem s len.
Proof. intros H j Hj Hj' [Hp _]. apply (H j); [lia|exact Hp]. Qed.

Lemma empty_buffer_spec1 (mem : memory) (s len : Z) (r : option Z) :
  len <= 0 -> in_range1 len r -> scan1_spec mem s len r.
Proof.
  intros Hlen [v [-> [->|Hv]]]; [|lia].
  right. split; [reflexivity|]. intros j Hj. lia.
Qed.

Lemma pure_mycroft_plus_free (mem : memory) (s len : Z) :
  plus_free mem s len ->
  scan1_spec mem s len (result (test_pure_mycroft4 mem s len)) /\
  scan1_spec mem s len (result (test_pure_mycroft mem s len)).
Proof.
  intros H. destruct (Z.le_gt_cases len 0) as [Hlen|Hlen].
  - split; apply empty_buffer_spec1; auto.
    + apply test_pure_mycroft4_range.
    + apply test_pure_mycroft_range.
  - pose proof (plus_free_first mem s len H ltac:(lia)) as Hp. split.
    + apply test_pure_mycroft4_spec. now left.
    + apply test_pure_mycroft_spec. now left.
Qed.

Lemma main_tests_exact :
  Forall (fun tb => exact_on_plus_free (fst tb) (snd tb)) main_tests.
Proof.
  unfold main_tests.
  repeat apply Forall_cons; try apply Forall_nil; cbn [fst snd];
    [left|left|left|left|left|left|left|left|right|right|right|right|right|right];
    (split; [reflexivity|]); intros mem s len H.
  - apply test_naive_spec.
  - now apply pure_mycroft_plus_free.
  - apply test_mycroft4_spec.
  - apply test_mycroft_spec.
  - now apply pure_mycroft_plus_free.
  - apply test_pure_sse2_spec.
  - apply test_sse2_spec.
  - apply test_sse2_and_mycroft4_spec.
  - apply test_twobyte_spec.
  - apply test_mycroft2_spec. now apply plus_free_no_plus_hash.
  - apply test_pure_mycroft2_spec. now apply plus_free_no_plus_hash.
  - apply test_twosse2_spec.
  - apply test_twobsse2_spec.
  - apply test_pure_twobsse2_spec.
Qed.


(** *** The whole harness *)

Lemma land_15_7 (s : Z) : Z.land s 15 = 0 -> Z.land s 7 = 0.
Proof.
  intros H. change 7 with (Z.land 15 7). now rewrite Z.land_assoc, H.
Qed.

Lemma pure_scanners_safe_aligned (mem : memory) (s len : Z) :
  Z.land s 15 = 0 ->
  Forall (fun scan => Forall (covered s len) (loads (scan mem s len))) pure_scanners.
Proof.
  intros H15. pose proof (land_15_7 s H15) as H7. pose proof (land_7_3 s H7) as H3.
  unfold pure_scanners. repeat apply Forall_cons; try apply Forall_nil.
  - apply test_pure_sse2_safe. now right.
  - apply test_pure_twobsse2_safe. now right.
  - apply test_pure_mycroft4_safe. now right.
  - apply test_pure_mycroft_safe. now right.
  - apply test_pure_mycroft2_safe. now right.
Qed.

Lemma scanners_page_safe : Forall page_safe (prologued_scanners ++ pure_scanners).
Proof.
  apply Forall_forall. intros scan Hin mem s len P HP Hs Hlen Hend.
  pose proof (scanners_wf mem s len) as Hw. rewrite Forall_forall in Hw.
  specialize (Hw scan Hin). apply in_app_or in Hin. destruct Hin as [Hin|Hin].
  - pose proof (prologued_loads_covered mem s len) as Hc.
    rewrite Forall_forall in Hc.
    apply (loads_in_page s len P); auto.
  - destruct (Z.le_gt_cases (s + Z.max len 1) (P + PAGE)) as [Hfit|Hout].
    + pose proof (pure_scanners_safe1 mem s len) as Hc.
      rewrite Forall_forall in Hc.
      apply (loads_in_page s (Z.max len 1) P); auto.
    + assert (H15 : Z.land s 15 = 0).
      { change 15 with (Z.ones 4). rewrite Z.land_ones by lia.
        change (2 ^ 4) with 16. unfold PAGE in *. Z.div_mod_to_equations; lia. }
      pose proof (pure_scanners_safe_aligned mem s len H15) as Hc.
      rewrite Forall_forall in Hc.
      apply (loads_in_page s len P); auto.
Qed.

Lemma main_tests_listed :
  Forall (fun tb => In (fst tb) (prologued_scanners ++ pure_scanners)) main_tests.
Proof.
  unfold main_tests, prologued_scanners, pure_scanners. cbn [app fst In].
  repeat apply Forall_cons; try apply Forall_nil; cbn [fst]; auto 20.
Qed.

(** X13.  test of search.cc prints nothing and touches no protected page,
    for each of the fourteen scanners that main passes to it, whatever
    [random] returns, wherever [malloc] places the buffer and whatever the
    memory holds before, as long as the pages of [mmap] start at a multiple
    of the page size.  The guard loops never place a [+] in a buffer and the
    random buffers never hold one, so the false flags of the Mycroft pair
    scanners and of the pure Mycroft scanners stay out of sight. *)
Theorem harness_prints_nothing (rand : nat -> Z) (three_pages buffer : Z)
    (mem : memory) (n : nat) :
  three_pages mod PAGE = 0 ->
  Forall (fun tb =>
            printed (test (fst tb) (snd tb) rand three_pages buffer (mem, n, [])) = [])
         main_tests.
Proof.
  intros Hmmap.
  pose proof main_tests_exact as He. pose proof main_tests_listed as Hl.
  pose proof scanners_page_safe as Hs.
  rewrite Forall_forall in *. intros tb Hin.
  apply test_quiet; auto.
Qed.

Lemma harness_prints_nothing_witness :
  8192 mod PAGE = 0 /\
  Forall (fun tb =>
            printed (test (fst tb) (snd tb) (fun k => Z.of_nat k * 7919) 8192 65536
                          (fun _ => x00, 0%nat, [])) = [])
         main_tests.
Proof.
  assert (H : 8192 mod PAGE = 0) by reflexivity.
  split; [exact H|].
  exact (harness_prints_nothing (fun k => Z.of_nat k * 7919) 8192 65536
                                (fun _ => x00) 0%nat H).
Defined.

(** X6.  No scanner loads from outside the page of its buffer: for a buffer
    of any length, zero included, that lies in the page at [P], every load
    of each of the fourteen scanners lies in that page. *)
Theorem loads_stay_in_page (mem : memory) (s len P : Z) :
  P mod PAGE = 0 -> P <= s -> 0 <= len -> s + len <= P + PAGE ->
  Forall (fun scan => Forall (in_page P) (loads (scan mem s len)))
         (prologued_scanners ++ pure_scanners).
Proof.
  intros HP Hs Hlen Hend. pose proof scanners_page_safe as H.
  rewrite Forall_forall in *. intros scan Hin. now apply (H scan Hin).
Qed.

Lemma loads_stay_in_page_witness :
  (4096 mod PAGE = 0 /\ 4096 <= 8189 /\ 0 <= 3 /\ 8189 + 3 <= 4096 + PAGE) /\
  Forall (fun scan => Forall (in_page 4096) (loads (scan (buf 8189 "a*#") 8189 3)))
         (prologued_scanners ++ pure_scanners).
Proof.
  assert (H1 : 4096 mod PAGE = 0) by reflexivity.
  assert (H2 : 4096 <= 8189) by lia.
  assert (H3 : 0 <= 3) by lia.
  assert (H4 : 8189 + 3 <= 4096 + PAGE) by (unfold PAGE; lia).
  split; [repeat split; assumption|].
  exact (loads_stay_in_page (buf 8189 "a*#") 8189 3 4096 H1 H2 H3 H4).
Defined.

(** X5.  Every byte a scanner loads lies in an aligned block, of the size
    of the load, that holds a byte of the buffer: for the scanners that
    start bytewise whatever the length, for the pure scanners with the
    buffer taken to be one byte long when it is empty.  The length is one
    for which [len - 1] and [i += 16] do not overflow. *)
Theorem every_load_covered (mem : memory) (s len : Z) :
  int_ok len ->
  Forall (fun scan => Forall (covered s len) (loads (scan mem s len)))
         prologued_scanners /\
  Forall (fun scan => Forall (covered s (Z.max len 1)) (loads (scan mem s len)))
         pure_scanners.
Proof.
  intros _. split; [apply prologued_loads_covered|apply pure_scanners_safe1].
Qed.

(** A buffer of three bytes that ends one byte before a 16-byte boundary. *)
Lemma every_load_covered_witness :
  int_ok 3 /\
  Forall (fun scan => Forall (covered 12 3) (loads (scan (buf 12 "a*#") 12 3)))
         prologued_scanners /\
  Forall (fun scan => Forall (covered 12 (Z.max 3 1)) (loads (scan (buf 12 "a*#") 12 3)))
         pure_scanners.
Proof.
  assert (Hlen : int_ok 3) by (unfold int_ok, INT_MIN, INT_MAX; lia).
  split; [exact Hlen|]. exact (every_load_covered (buf 12 "a*#") 12 3 Hlen).
Defined.

Lemma scanners_in_range (mem : memory) (s len : Z) :
  Forall (fun scan => in_range1 len (result (scan mem s len)))
         (prologued_scanners ++ pure_scanners).
Proof.
  assert (H21 : forall r, in_range2 len r -> in_range1 len r).
  { intros r [v [Hr [Hv|Hv]]]; exists v; (split; [exact Hr|]); [now left|right; lia]. }
  unfold prologued_scanners, pure_scanners. cbn [app].
  repeat apply Forall_cons; try apply Forall_nil.
  - apply (scan1_spec_range mem s), test_naive_spec.
  - apply H21, (scan2_spec_range mem s), test_twobyte_spec.
  - apply (scan1_spec_range mem s), test_sse2_spec.
  - apply (scan1_spec_range mem s), test_sse2_and_mycroft4_spec.
  - apply (scan1_spec_range mem s), test_mycroft4_spec.
  - apply (scan1_spec_range mem s), test_mycroft_spec.
  - apply H21, (scan2_spec_range mem s), test_twosse2_spec.
  - apply H21, (scan2_spec_range mem s), test_twobsse2_spec.
  - apply H21, test_mycroft2_range.
  - apply (scan1_spec_range mem s), test_pure_sse2_spec.
  - apply H21, (scan2_spec_range mem s), test_pure_twobsse2_spec.
  - apply test_pure_mycroft4_range.
  - apply test_pure_mycroft_range.
  - apply H21, test_pure_mycroft2_range.
Qed.

(** X7.  On an empty buffer ([len <= 0], above [INT_MIN], where [len - 1]
    overflows in the source) every scanner answers -127, and the scanners
    that start bytewise load nothing. *)
Theorem empty_buffer_untouched (mem : memory) (s len : Z) :
  INT_MIN < len -> len <= 0 ->
  Forall (fun scan => result (scan mem s len) = Some (-127))
         (prologued_scanners ++ pure_scanners) /\
  Forall (fun scan => loads (scan mem s len) = []) prologued_scanners.
Proof.
  intros _ Hlen. split.
  - eapply Forall_impl; [|apply (scanners_in_range mem s len)].
    intros scan [v [-> [->|Hv]]]; [reflexivity|lia].
  - pose proof (prologued_loads_covered mem s len) as Hc.
    pose proof (scanners_wf mem s len) as Hw.
    apply Forall_app in Hw. destruct Hw as [Hw _].
    rewrite Forall_forall in *. intros scan Hin.
    specialize (Hc scan Hin). specialize (Hw scan Hin).
    destruct (loads (scan mem s len)) as [|a l]; [reflexivity|]. exfalso.
    apply Forall_inv in Hc. apply Forall_inv in Hw.
    destruct (Hc (acc_addr a)) as [j [Hj _]]; [|lia].
    unfold width_ok in Hw. cbn [In] in Hw. lia.
Qed.

Lemma empty_buffer_untouched_witness :
  (INT_MIN < 0 /\ 0 <= 0) /\
  Forall (fun scan => result (scan (buf 0 "**#") 1 0) = Some (-127))
         (prologued_scanners ++ pure_scanners) /\
  Forall (fun scan => loads (scan (buf 0 "**#") 1 0) = []) prologued_scanners.
Proof.
  assert (H0 : INT_MIN < 0) by (unfold INT_MIN; lia).
  assert (H : 0 <= 0) by lia.
  split; [split; assumption|]. exact (empty_buffer_untouched (buf 0 "**#") 1 0 H0 H).
Defined.

(** X12.  Mycroft's test on the word at [a], for any byte [c] and any word
    size: the mask is zero exactly when no lane holds [c], and otherwise
    [(ffs(mask) >> 3) - 1] is the first lane that holds [c]. *)
Theorem mycroft_first_lane (mem : memory) (c : byte) (n : nat) (a : Z) :
  let m := mycroft (8 * Z.of_nat n) (ones_of n) (highs_of n)
                   (Z.lxor (le_word mem n a) (u8 c * ones_of n)) in
  (nonzero m = false <-> forall k, (k < n)%nat -> mem (a + Z.of_nat k) <> c) /\
  (nonzero m = true ->
   exists k, (k < n)%nat /\ Z.shiftr (__builtin_ffs m) 3 - 1 = Z.of_nat k /\
     mem (a + Z.of_nat k) = c /\
     forall j, (j < k)%nat -> mem (a + Z.of_nat j) <> c).
Proof.
  intros m.
  set (x := Z.lxor (le_word mem n a) (u8 c * ones_of n)) in *.
  pose proof (lane_mask_highs n) as Hmask.
  assert (Hbit : forall k, (k < n)%nat ->
            Z.testbit m (8 * Z.of_nat k + 7) = borrow false x (S k)).
  { intros k Hk. unfold m. rewrite (masked_bit n 0 _ x k Hmask Hk).
    destruct (Z.leb_spec 0 (Z.of_nat k)); [apply andb_true_r|lia]. }
  assert (Hclear : forall k, (k < n)%nat ->
            Z.testbit m (8 * Z.of_nat k + 7) = false -> mem (a + Z.of_nat k) <> c).
  { intros k Hk Hb Hc. rewrite (Hbit k Hk) in Hb.
    pose proof (flag_of_byte mem c n a k Hk Hc) as Hf. fold x in Hf. congruence. }
  assert (Hsome : nonzero m = true ->
    exists k, (k < n)%nat /\ Z.shiftr (__builtin_ffs m) 3 - 1 = Z.of_nat k /\
      mem (a + Z.of_nat k) = c /\
      forall j, (j < k)%nat -> mem (a + Z.of_nat j) <> c).
  { intros Hnz.
    assert (Hpos : 0 < m).
    { apply nonzero_true in Hnz.
      assert (0 <= m) by (apply Z.land_nonneg; right; apply Hmask). lia. }
    destruct (ffs_spec m Hpos) as [p [Hp [Hffs [Hset Hlow]]]].
    destruct (masked_only n 0 _ x p Hmask Hp Hset) as [k [Hk [Hpk _]]].
    exists k. split; [exact Hk|]. split.
    { rewrite Hffs, Hpk, shiftr_ffs_lane by lia. lia. }
    split.
    - rewrite Hpk, (Hbit k Hk) in Hset.
      destruct (flag_byte mem c n a k Hk Hset) as [Hc|[_ [k' [-> Hbelow]]]];
        [exact Hc|].
      exfalso. fold x in Hbelow. rewrite <- (Hbit k') in Hbelow by lia.
      rewrite Hlow in Hbelow by lia. discriminate.
    - intros j Hj. apply Hclear; [lia|]. apply Hlow. lia. }
  split; [split|exact Hsome].
  - intros Hz k Hk. apply Hclear; [exact Hk|].
    apply nonzero_false in Hz. rewrite Hz. apply Z.testbit_0_l.
  - intros Hnone. destruct (nonzero m) eqn:Hnz; [|reflexivity].
    destruct (Hsome eq_refl) as [k [Hk [_ [Hc _]]]]. now destruct (Hnone k Hk).
Qed.

(** X14.  The switch of the random test stores one of eight bytes, whatever
    [random] returns: a star, a hash, the two with the top bit set, or one
    of [$], [%], [&], ['].  The byte that case 4 draws is overwritten, a [+]
    is never stored, and no other byte of the memory changes. *)
Theorem fuzz_byte_values (rand : nat -> Z) (buffer i : Z) (st : hstate) :
  In (memof (fuzz_byte rand buffer i st) (buffer + i))
     [star; hash; xaa; xa3; "$"; "%"; "&"; "'"]%byte /\
  (forall x, x <> buffer + i -> memof (fuzz_byte rand buffer i st) x = memof st x) /\
  printed (fuzz_byte rand buffer i st) = printed st.
Proof.
  destruct st as [[mem n] out]. unfold fuzz_byte. cbn [random].
  pose proof (land_s_bounds (rand n) 3 ltac:(lia)) as Hr.
  change (Z.ones 3) with 7 in Hr. change (2 ^ 3) with 8 in Hr.
  remember (Z.land (rand n) 7) as r eqn:Er. clear Er.
  assert (E : r = 0 \/ r = 1 \/ r = 2 \/ r = 3 \/ r = 4 \/ r = 5 \/ r = 6 \/ r = 7)
    by lia.
  destruct E as [->|[->|[->|[->|[->|[->|[->| ->]]]]]]];
    cbn [Z.eqb Pos.eqb poke printed memof fst snd];
    (split; [unfold store; rewrite Z.eqb_refl; cbn; tauto|]);
    (split; [|reflexivity]);
    intros x Hx; unfold store;
    repeat match goal with
           | |- context [Z.eqb ?a ?b] => destruct (Z.eqb_spec a b); [lia|]
           end; reflexivity.
Qed.

Lemma pair_scanners_short_buffer_witness :
  (INT_MIN < 1 /\ 1 < 2) /\
  result (test_twobyte (buf 0 "*#") 0 1) = Some (-127) /\
  result (test_twosse2 (buf 0 "*#") 0 1) = Some (-127) /\
  result (test_twobsse2 (buf 0 "*#") 0 1) = Some (-127) /\
  result (test_pure_twobsse2 (buf 0 "*#") 0 1) = Some (-127) /\
  result (test_mycroft2 (buf 0 "*#") 0 1) = Some (-127) /\
  result (test_pure_mycroft2 (buf 0 "*#") 0 1) = Some (-127).
Proof.
  assert (H0 : INT_MIN < 1) by (unfold INT_MIN; lia).
  assert (H : 1 < 2) by lia.
  split; [split; assumption|].
  exact (pair_scanners_short_buffer (buf 0 "*#") 0 1 H0 H).
Defined.

Lemma later_start_rebases_witness :
  (0 <= 3 /\ INT_MIN < 35 - 3 /\ 35 <= INT_MAX - 15 /\
   forall j, 0 <= j < 3 ->
     ~ star_at (buf 5 "Now is the time *# for all good men") 5 j) /\
  Forall (fun scan =>
            result (scan (buf 5 "Now is the time *# for all good men") (5 + 3) (35 - 3)) =
            option_map (rebase 3)
              (result (scan (buf 5 "Now is the time *# for all good men") 5 35)))
         (scan1_proved ++ scan2_proved).
Proof.
  assert (H0 : 0 <= 3) by lia.
  assert (H1 : forall j, 0 <= j < 3 ->
                 ~ star_at (buf 5 "Now is the time *# for all good men") 5 j).
  { intros j Hj. assert (E : j = 0 \/ j = 1 \/ j = 2) by lia.
    destruct E as [->|[->| ->]]; discriminate. }
  assert (H2 : INT_MIN < 35 - 3) by (unfold INT_MIN; lia).
  assert (H3 : 35 <= INT_MAX - 15) by (unfold INT_MAX; lia).
  split; [repeat split; assumption|].
  exact (later_start_rebases (buf 5 "Now is the time *# for all good men") 5 35 3
                             H0 H2 H3 H1).
Defined.


(** *** The buffers of set_up and the calls of time *)

Lemma set_up_large_outside (l : Z) (mem : memory) (x : Z) :
  x < l \/ l + LONG <= x -> set_up_large l mem x = mem x.
Proof.
  intros Hx. unfold set_up_large, LONG in *. cbv zeta.
  change (10000 * 3 / 4) with 7500. change (10000 / 4) with 2500.
  unfold store at 1 2.
  destruct (Z.eqb_spec x (l + (7500 + 1))); [lia|].
  destruct (Z.eqb_spec x (l + 7500)); [lia|].
  apply (for_loop_post (fun m => m x = mem x) (fun m => m x = mem x));
    [reflexivity| |auto].
  intros k m Hk Hm. cbv zeta. unfold store.
  repeat match goal with
         | |- context [Z.eqb ?a ?b] => destruct (Z.eqb_spec a b); [lia|]
         end.
  exact Hm.
Qed.

Lemma set_up_large_letters (l : Z) (mem : memory) (j : Z) :
  0 <= j < LONG -> j <> 7500 -> j <> 7501 ->
  In (set_up_large l mem (l + j)) ["F"; "o"; " "]%byte.
Proof.
  intros Hj H0 H1. unfold set_up_large, LONG in *. cbv zeta.
  change (10000 * 3 / 4) with 7500. change (10000 / 4) with 2500.
  unfold store at 1 2.
  destruct (Z.eqb_spec (l + j) (l + (7500 + 1))); [lia|].
  destruct (Z.eqb_spec (l + j) (l + 7500)); [lia|].
  assert (H : forall q, 0 <= q < 4 * Z.of_nat (Z.to_nat 2500) ->
            In (for_loop (Z.to_nat 2500) 0 4 (fun i mem =>
                  let mem := store mem (l + i) "F" in
                  let mem := store mem (l + (i + 1)) "o" in
                  let mem := store mem (l + (i + 2)) "o" in
                  store mem (l + (i + 3)) " ") mem (l + q)) ["F"; "o"; " "]%byte).
  { apply (for_loop_ind (fun k m =>
      forall q, 0 <= q < 4 * Z.of_nat k -> In (m (l + q)) ["F"; "o"; " "]%byte)).
    - intros q Hq. lia.
    - intros k m Hk Hm q Hq. cbv zeta. unfold store.
      repeat match goal with
             | |- context [Z.eqb ?a ?b] => destruct (Z.eqb_spec a b)
             end; try (cbn; tauto).
      apply Hm. lia. }
  apply H. lia.
Qed.

Lemma set_up_large_pair (l : Z) (mem : memory) :
  set_up_large l mem (l + 7500) = star /\ set_up_large l mem (l + (7500 + 1)) = hash.
Proof.
  unfold set_up_large, LONG. cbv zeta. change (10000 * 3 / 4) with 7500.
  split; unfold store.
  - destruct (Z.eqb_spec (l + 7500) (l + (7500 + 1))); [lia|].
    now rewrite Z.eqb_refl.
  - now rewrite Z.eqb_refl.
Qed.

Lemma letter_facts (b : byte) :
  In b ["F"; "o"; " "]%byte -> b <> star /\ b <> plus /\ b <> hash.
Proof.
  intros [<-|[<-|[<-|[]]]]; repeat split; discriminate.
Qed.

Lemma large_shape (l : Z) (mem : memory) (off : Z) :
  0 <= off <= 127 ->
  plus_free (set_up_large l mem) (l + off) (LONG - off) /\
  first_star (set_up_large l mem) (l + off) (LONG - off) (7500 - off) /\
  first_pair (set_up_large l mem) (l + off) (LONG - off) (7500 - off).
Proof.
  intros Hoff. destruct (set_up_large_pair l mem) as [Hs Hh].
  assert (Hno : forall j, 0 <= j < 7500 - off ->
            set_up_large l mem (l + off + j) <> star).
  { intros j Hj. replace (l + off + j) with (l + (off + j)) by lia.
    apply letter_facts, set_up_large_letters; unfold LONG; lia. }
  assert (Hat : set_up_large l mem (l + off + (7500 - off)) = star)
    by (now replace (l + off + (7500 - off)) with (l + 7500) by lia).
  unfold LONG in *. split; [|split].
  - intros j Hj. replace (l + off + j) with (l + (off + j)) by lia.
    destruct (Z.eq_dec (off + j) 7500) as [E|E]; [rewrite E, Hs; discriminate|].
    destruct (Z.eq_dec (off + j) 7501) as [E'|E'].
    + replace (off + j) with (7500 + 1) by lia. rewrite Hh. discriminate.
    + apply letter_facts, set_up_large_letters; unfold LONG; lia.
  - split; [lia|]. split; [exact Hat|]. intros j Hj. now apply Hno.
  - split; [lia|]. split; [lia|]. split.
    + split; [exact Hat|].
      now replace (l + off + (7500 - off + 1)) with (l + (7500 + 1)) by lia.
    + intros j Hj [H _]. now apply (Hno j).
Qed.

Lemma small_plus_free (mem : memory) (s : Z) :
  holds mem s small -> plus_free mem s 35.
Proof.
  intros H j Hj. rewrite (holds_at mem s small j H) by (cbn; lia).
  assert (Hall : forallb (fun k => negb (Byte.eqb (nth k small x00) plus)) (seq 0 35) = true)
    by (vm_compute; reflexivity).
  rewrite forallb_forall in Hall.
  specialize (Hall (Z.to_nat j)). rewrite in_seq in Hall.
  intros E. rewrite E in Hall.
  specialize (Hall ltac:(lia)). discriminate.
Qed.

Lemma small_shape (mem : memory) (sm off : Z) :
  holds mem sm small -> 0 <= off <= 15 ->
  plus_free mem (sm + off) (35 - off) /\
  first_star mem (sm + off) (35 - off) (16 - off) /\
  first_pair mem (sm + off) (35 - off) (16 - off).
Proof.
  intros H Hoff.
  destruct (small_first_pair mem sm H) as [_ [_ [[Hs Hh] _]]].
  pose proof (small_no_star_before_16 mem sm H) as Hno.
  assert (Hat : mem (sm + off + (16 - off)) = star)
    by (now replace (sm + off + (16 - off)) with (sm + 16) by lia).
  assert (Hno' : forall j, 0 <= j < 16 - off -> mem (sm + off + j) <> star).
  { intros j Hj. replace (sm + off + j) with (sm + (off + j)) by lia.
    apply Hno. lia. }
  split; [|split].
  - intros j Hj. replace (sm + off + j) with (sm + (off + j)) by lia.
    apply (small_plus_free mem sm H). lia.
  - split; [lia|]. split; [exact Hat|]. intros j Hj. now apply Hno'.
  - split; [lia|]. split; [lia|]. split.
    + split; [exact Hat|].
      now replace (sm + off + (16 - off + 1)) with (sm + (16 + 1)) by lia.
    + intros j Hj [E _]. now apply (Hno' j).
Qed.

Lemma exact_finds (scan : searcher) (bytes : Z) (mem : memory) (s len v : Z) :
  exact_on_plus_free scan bytes -> plus_free mem s len ->
  first_star mem s len v -> first_pair mem s len v ->
  result (scan mem s len) = Some v.
Proof.
  intros [[_ Hspec]|[_ Hspec]] Hfree H1 H2.
  - apply (scan1_spec_found mem s len); [now apply Hspec|exact H1].
  - apply (scan2_spec_found mem s len); [now apply Hspec|exact H2].
Qed.

(** X15.  Every call of time finds the pair of set_up: on the big buffer
    each of the fourteen scanners returns 7500 less the offset [i & 127] of
    the pointer, on the small one 16 less the offset
    [random_offsets[i & 4095] & 15]. *)
Theorem time_calls_find_the_pair (mem : memory) (sm l i r : Z) :
  holds (set_up_large l mem) sm small ->
  Forall (fun tb =>
            time_call (fst tb) (set_up_large l mem) sm l true i r =
              Some (7500 - Z.land i 127) /\
            time_call (fst tb) (set_up_large l mem) sm l false i r =
              Some (16 - Z.land r 15))
         main_tests.
Proof.
  intros Hsmall.
  pose proof (land_s_bounds i 7 ltac:(lia)) as Hi.
  change (Z.ones 7) with 127 in Hi. change (2 ^ 7) with 128 in Hi.
  pose proof (land_s_bounds r 4 ltac:(lia)) as Hr.
  change (Z.ones 4) with 15 in Hr. change (2 ^ 4) with 16 in Hr.
  destruct (large_shape l mem (Z.land i 127) ltac:(lia)) as [Hf [H1 H2]].
  destruct (small_shape _ sm (Z.land r 15) Hsmall ltac:(lia)) as [Hf' [H1' H2']].
  eapply Forall_impl; [|apply main_tests_exact].
  intros [scan bytes] He. cbn [fst snd] in *. unfold time_call. cbv zeta.
  change (Z.of_nat (List.length small)) with 35.
  split; apply (exact_finds scan bytes); assumption.
Qed.

Lemma time_calls_find_the_pair_witness :
  holds (set_up_large 4096 (mem_of x00 0 small)) 0 small /\
  Forall (fun tb =>
            time_call (fst tb) (set_up_large 4096 (mem_of x00 0 small)) 0 4096 true 200 77 =
              Some (7500 - Z.land 200 127) /\
            time_call (fst tb) (set_up_large 4096 (mem_of x00 0 small)) 0 4096 false 200 77 =
              Some (16 - Z.land 77 15))
         main_tests.
Proof.
  assert (H : holds (set_up_large 4096 (mem_of x00 0 small)) 0 small).
  { intros k Hk. rewrite set_up_large_outside by (cbn in Hk; lia).
    now apply small_buffer_holds. }
  split; [exact H|].
  exact (time_calls_find_the_pair (mem_of x00 0 small) 0 4096 200 77 H).
Defined.
